(** * NBA analyst pipeline: identity resolution, join, features, split,
      artifact selection and serving

    A shallow embedding of the Python sources

    - [scripts/create-team-mapping.py]  (alias table),
    - [scripts/train-ml-model-v2.py], [scripts/train-ml-model-v3.py]
      (join, feature engineering, temporal split, training run),
    - [scripts/predict-games-v3.py]     (artifact selection),
    - [python-service/app.py]           (inference service),

    followed by the properties of these functions.

    Conventions.  Python [str] values are modelled by [string]; the case
    functions act on the ASCII letters, which is what Python does on
    code points below 128 (the team tokens and file names of the
    repository are ASCII).  Module [Unicode] models a [str] as its
    sequence of code points, for tokens beyond ASCII.  Numeric columns
    that pandas holds as floats are modelled by exact rationals [Q];
    [None], [NaN] and [NaT] are [None] of an option type.  Module
    [OddsFloat] computes the odds conversion in binary64, as the
    interpreter does.  Data frames are lists of records in row
    order. *)

From Stdlib Require Import ZArith QArith Qabs Qround Lqa Lia List Ascii String Bool Permutation.
From Stdlib Require PrimFloat Floats.
From stdpp Require Import gmap strings list fin_maps sorting.
Import ListNotations.

Local Open Scope stdpp_scope.

(* ===================================================================== *)
(** * Part I.  The programs                                                *)
(* ===================================================================== *)

(** ** Python string methods used by the scripts *)

Module Str.

(** [str.isspace] on a code point below 128: TAB..CR, FS..US, space. *)
Definition is_space (c : ascii) : bool :=
  let n := N_of_ascii c in
  ((9 <=? n) && (n <=? 13) || (28 <=? n) && (n <=? 32))%N.

Definition upper_char (c : ascii) : ascii :=
  let n := N_of_ascii c in
  if ((97 <=? n) && (n <=? 122))%N then ascii_of_N (n - 32) else c.

Definition lower_char (c : ascii) : ascii :=
  let n := N_of_ascii c in
  if ((65 <=? n) && (n <=? 90))%N then ascii_of_N (n + 32) else c.

(** [s.upper()] and [s.lower()] *)
Fixpoint upper (s : string) : string :=
  match s with
  | EmptyString => EmptyString
  | String c s' => String (upper_char c) (upper s')
  end.

Fixpoint lower (s : string) : string :=
  match s with
  | EmptyString => EmptyString
  | String c s' => String (lower_char c) (lower s')
  end.

(** [s.lstrip()], [s.rstrip()] and [s.strip()] with no argument *)
Fixpoint lstrip (s : string) : string :=
  match s with
  | EmptyString => EmptyString
  | String c s' => if is_space c then lstrip s' else s
  end.

Fixpoint rstrip (s : string) : string :=
  match s with
  | EmptyString => EmptyString
  | String c s' =>
      match rstrip s' with
      | EmptyString => if is_space c then EmptyString else String c EmptyString
      | r => String c r
      end
  end.

Definition strip (s : string) : string := lstrip (rstrip s).

End Str.

(** ** [create-team-mapping.py]: the alias table *)

Module TeamMapping.

(** A Python dict display [{k1: v1, k2: v2, ...}] evaluates its items
    from left to right and stores each one in turn, so a key written
    twice keeps the value written last.  [dict(zip(ks, vs))] fills the
    dict in the same way. *)
Definition dict_of_items (items : list (string * string)) : gmap string string :=
  fold_left (fun m kv => <[kv.1 := kv.2]> m) items ∅.

(** The items of the [TEAM_MAPPING] display, in source order. *)
Definition TEAM_MAPPING_items : list (string * string) :=
  [ ("ATL", "Atlanta Hawks");
    ("BOS", "Boston Celtics");
    ("BRK", "Brooklyn Nets");
    ("BKN", "Brooklyn Nets");
    ("CHA", "Charlotte Hornets");
    ("CHI", "Chicago Bulls");
    ("CHO", "Charlotte Hornets");
    ("CLE", "Cleveland Cavaliers");
    ("DAL", "Dallas Mavericks");
    ("DEN", "Denver Nuggets");
    ("DET", "Detroit Pistons");
    ("GSW", "Golden State Warriors");
    ("HOU", "Houston Rockets");
    ("IND", "Indiana Pacers");
    ("LAC", "LA Clippers");
    ("LAL", "Los Angeles Lakers");
    ("MEM", "Memphis Grizzlies");
    ("MIA", "Miami Heat");
    ("MIL", "Milwaukee Bucks");
    ("MIN", "Minnesota Timberwolves");
    ("NOP", "New Orleans Pelicans");
    ("NYK", "New York Knicks");
    ("NYN", "New Jersey Nets");
    ("OKC", "Oklahoma City Thunder");
    ("ORL", "Orlando Magic");
    ("PHI", "Philadelphia 76ers");
    ("PHO", "Phoenix Suns");
    ("PHX", "Phoenix Suns");
    ("POR", "Portland Trail Blazers");
    ("SAC", "Sacramento Kings");
    ("SAS", "San Antonio Spurs");
    ("TOR", "Toronto Raptors");
    ("UTA", "Utah Jazz");
    ("WAS", "Washington Wizards");
    ("NJN", "New Jersey Nets");
    ("NOH", "New Orleans Hornets");
    ("CHA", "Charlotte Bobcats");
    ("SEA", "Seattle SuperSonics");
    ("VAN", "Vancouver Grizzlies");
    ("KCK", "Kansas City Kings");
    ("SDC", "San Diego Clippers") ].

Definition TEAM_MAPPING : gmap string string :=
  dict_of_items TEAM_MAPPING_items.

(** [create_mapping_table]: one row [(abbreviation, full_name)] per
    item of the dict; [abbreviation] is the primary key. *)
Definition create_mapping_table : list (string * string) :=
  map_to_list TEAM_MAPPING.

(** [team_map = dict(zip(mapping_df['abbreviation'].str.upper(),
                         mapping_df['full_name'].str.lower()))] *)
Definition team_map_of (mapping_df : list (string * string)) : gmap string string :=
  dict_of_items (map (fun r => (Str.upper r.1, Str.lower r.2)) mapping_df).

Definition team_map : gmap string string := team_map_of create_mapping_table.

(** [map_team_name] of [train-ml-model-v3.py].  The parameter [team]
    is rebound to its stripped, upper-cased form before the test, and
    the fallback lower-cases and strips that rebound value. *)
Definition map_team_name_in (tm : gmap string string) (team : string) : string :=
  let team := Str.upper (Str.strip team) in
  match tm !! team with
  | Some full => full
  | None => Str.strip (Str.lower team)
  end.

Definition map_team_name : string -> string := map_team_name_in team_map.

End TeamMapping.

(** ** Team tokens with code points beyond ASCII *)

Module Unicode.

(** A Python [str] as the sequence of its code points. *)
Definition str : Type := list N.

(** A string of code points below 256, read code point by code
    point. *)
Definition of_string (s : string) : str :=
  N_of_ascii <$> list_ascii_of_string s.

(** [s.isascii()] *)
Definition isascii (s : str) : bool := forallb (fun c => c <? 128)%N s.

(** [str.isspace] of a code point, which is the white space that
    [strip] removes: U+0009..U+000D, U+001C..U+0020, U+0085, U+00A0,
    U+1680, U+2000..U+200A, U+2028, U+2029, U+202F, U+205F, U+3000. *)
Definition is_space (c : N) : bool :=
  ((9 <=? c) && (c <=? 13) || (28 <=? c) && (c <=? 32)
   || (c =? 133) || (c =? 160) || (c =? 5760)
   || (8192 <=? c) && (c <=? 8202)
   || (c =? 8232) || (c =? 8233) || (c =? 8239) || (c =? 8287)
   || (c =? 12288))%N.

(** U+212A KELVIN SIGN: an upper-case letter, whose lower case is the
    letter [k]. *)
Definition KELVIN_SIGN : N := 8490.

(** [str.upper] and [str.lower] of one code point, for the code
    points below 128 and for the Kelvin sign; [None] for the code
    points that this table leaves out. *)
Definition upper_point (c : N) : option N :=
  if (c <? 128)%N
  then Some (if ((97 <=? c) && (c <=? 122))%N then (c - 32)%N else c)
  else if (c =? KELVIN_SIGN)%N then Some KELVIN_SIGN
  else None.

Definition lower_point (c : N) : option N :=
  if (c <? 128)%N
  then Some (if ((65 <=? c) && (c <=? 90))%N then (c + 32)%N else c)
  else if (c =? KELVIN_SIGN)%N then Some 107%N
  else None.

Definition upper (s : str) : option str := mapM upper_point s.

Definition lower (s : str) : option str := mapM lower_point s.

Fixpoint lstrip (s : str) : str :=
  match s with
  | [] => []
  | c :: s' => if is_space c then lstrip s' else s
  end.

Fixpoint rstrip (s : str) : str :=
  match s with
  | [] => []
  | c :: s' =>
      match rstrip s' with
      | [] => if is_space c then [] else [c]
      | r => c :: r
      end
  end.

Definition strip (s : str) : str := lstrip (rstrip s).

(** [team_map]: the table holds code points below 128 only, so it is
    [TeamMapping.team_map] with its keys and values read as code
    point sequences. *)
Definition team_map : gmap str str :=
  of_string <$> kmap (M2 := gmap str) of_string TeamMapping.team_map.

(** [map_team_name] on an arbitrary token; [None] when the token
    holds a code point outside the case table above. *)
Definition map_team_name (team : str) : option str :=
  team ← upper (strip team);
  match team_map !! team with
  | Some full => Some full
  | None => strip <$> lower team
  end.

End Unicode.

(** ** [american_odds_to_prob] of the V2 and V3 trainers *)

Module Odds.

(** A cell of the [ml_home] / [ml_away] column (declared [VARCHAR]). *)
Inductive price : Type :=
| Missing                 (* [None] or [NaN]: [pd.isna] holds *)
| Num (p : Q)             (* a number, or text that [float()] converts *)
| Invalid (text : string) (* text that [float()] rejects *).

Inductive exn : Type := ValueError | ZeroDivisionError.

Definition isna (odds : price) : bool :=
  match odds with Missing => true | _ => false end.

(** [float(odds)] *)
Definition float (odds : price) : exn + Q :=
  match odds with
  | Num p => inr p
  | Missing | Invalid _ => inl ValueError
  end.

(** [a / b] on Python floats raises on a zero divisor. *)
Definition truediv (a b : Q) : exn + Q :=
  if Qeq_bool b 0 then inl ZeroDivisionError else inr (a / b)%Q.

(** The body of the [try] block. *)
Definition convert (odds : price) : exn + Q :=
  match float odds with
  | inl e => inl e
  | inr odds =>
      if Qlt_le_dec 0 odds
      then truediv 100 (odds + 100)%Q
      else truediv (Qabs odds) (Qabs odds + 100)%Q
  end.

Definition american_odds_to_prob (odds : price) : Q :=
  if isna odds then 1 # 2
  else match convert odds with
       | inr prob => prob
       | inl _ => 1 # 2      (* bare [except:] *)
       end.

End Odds.

(** ** The conversion in the interpreter's binary64 arithmetic *)

Module OddsFloat.
Import PrimFloat.
Local Open Scope float_scope.

(** A cell of the [ml_home] / [ml_away] column, by what [pd.isna] and
    [float()] make of it. *)
Inductive price : Type :=
| Missing                (* [None] or a float [NaN]: [pd.isna] holds *)
| Converts (x : float)   (* a number, or text that [float()] converts
                            to [x]: [x] is infinite for the text
                            ['inf'] and not a number for ['nan'] *)
| Rejected               (* text for which [float()] raises *).

Inductive exn : Type := ValueError | ZeroDivisionError.

Definition isna (odds : price) : bool :=
  match odds with Missing => true | _ => false end.

(** [float(odds)] *)
Definition float_of (odds : price) : exn + float :=
  match odds with
  | Converts x => inr x
  | Missing | Rejected => inl ValueError
  end.

(** [a / b] on Python floats raises on a zero divisor. *)
Definition truediv (a b : float) : exn + float :=
  if b =? 0 then inl ZeroDivisionError else inr (a / b).

(** The body of the [try] block; a comparison with a NaN is false. *)
Definition convert (odds : price) : exn + float :=
  match float_of odds with
  | inl e => inl e
  | inr odds =>
      if 0 <? odds
      then truediv 100 (odds + 100)
      else truediv (abs odds) (abs odds + 100)
  end.

Definition american_odds_to_prob (odds : price) : float :=
  if isna odds then 0.5
  else match convert odds with
       | inr prob => prob
       | inl _ => 0.5      (* bare [except:] *)
       end.

(** The float of a whole number (exact below 2^53), as [float()]
    gives it for the number or for its decimal text. *)
Fixpoint of_pos (p : positive) : float :=
  match p with
  | xH => 1
  | xO q => 2 * of_pos q
  | xI q => 2 * of_pos q + 1
  end.

Definition of_Z (z : Z) : float :=
  match z with
  | Z0 => 0
  | Zpos p => of_pos p
  | Zneg p => - of_pos p
  end.

(** A whole price [z >= 1] and its negative: both probabilities are
    strictly between 0 and 1. *)
Definition whole_price_ok (z : Z) : bool :=
  let plus := of_Z z in
  let minus := of_Z (- z) in
  (0 <? plus)
  && (0 <? 100 / (plus + 100)) && (100 / (plus + 100) <? 1)
  && negb (0 <? minus)
  && (0 <? abs minus / (abs minus + 100))
  && (abs minus / (abs minus + 100) <? 1).

(** One round of the check of the whole prices [1, 2, ...]. *)
Definition check_next (state : Z * bool) : Z * bool :=
  ((state.1 + 1)%Z, state.2 && whole_price_ok state.1).

Definition check_whole_prices (last : positive) : bool :=
  (Pos.iter check_next (1%Z, true) last).2.

End OddsFloat.

(** ** Data frames of the trainers: rows, merge, group-wise transforms *)

Module Frame.

(** A row of [github_games] as [load_data] selects it; [home_win] is
    the 0/1 column computed by the query. *)
Record game : Type := Game {
  game_id : string;
  date : Z;
  season : Z;
  home_team : string;
  away_team : string;
  home_score : Z;
  away_score : Z;
  elo_home_before : Q;
  elo_away_before : Q;
  home_win : Z
}.

(** A row of [odds_historical]. *)
Record odds : Type := OddsRow {
  o_season : Z;
  o_date : Z;
  o_home_team : option string;   (* [None]: a NULL name *)
  o_away_team : option string;
  spread : option Q;
  over_under : option Q;
  ml_home : Odds.price;
  ml_away : Odds.price
}.

(** A row of [merged]: the game columns and, when an odds row was
    matched, its columns (null otherwise). *)
Record joined : Type := Joined {
  j_game : game;
  j_odds : option odds
}.

(** The join key: season and the two team columns.  A team column is
    null on the game side where [Series.map] found no entry, and on
    the odds side where the name is NULL; [merge] pairs a null key
    with a null key. *)
Definition key : Type := Z * option string * option string.

Section Merge.
Variable left_on : game -> key.
Variable right_on : odds -> key.

(** The odds rows carrying the key of game [g], in table order. *)
Definition matching (g : game) (odds_df : list odds) : list odds :=
  filter (fun o => left_on g = right_on o) odds_df.

(** [games_df.merge(odds_df[...], left_on=..., right_on=..., how=...)]:
    every game row is paired with every odds row carrying the same
    key, in the order of the games; [how='left'] keeps a game
    without any such row, with null odds columns. *)
Definition merge_inner (games : list game) (odds_df : list odds) : list joined :=
  flat_map (fun g => (fun o => Joined g (Some o)) <$> matching g odds_df) games.

Definition merge_left (games : list game) (odds_df : list odds) : list joined :=
  flat_map (fun g =>
              match matching g odds_df with
              | [] => [Joined g None]
              | ms => (fun o => Joined g (Some o)) <$> ms
              end)
           games.
End Merge.

(** [odds_df['home_team'].str.strip().str.lower()] and the season *)
Definition odds_key (o : odds) : key :=
  (o_season o,
   (fun name => Str.lower (Str.strip name)) <$> o_home_team o,
   (fun name => Str.lower (Str.strip name)) <$> o_away_team o).

(** V3: [games_df['home_team'].apply(map_team_name)] *)
Definition game_key_v3 (g : game) : key :=
  (season g,
   Some (TeamMapping.map_team_name (home_team g)),
   Some (TeamMapping.map_team_name (away_team g))).

(** V2: [games_df['home_team'].map(team_map)] *)
Definition game_key_v2 (g : game) : key :=
  (season g,
   TeamMapping.team_map !! home_team g,
   TeamMapping.team_map !! away_team g).

Definition merge_v3 : list game -> list odds -> list joined :=
  merge_inner game_key_v3 odds_key.

Definition merge_v2 : list game -> list odds -> list joined :=
  merge_left game_key_v2 odds_key.

(** *** Series operations *)

Definition Qsum (x : list Q) : Q := foldr Qplus 0%Q x.

Definition mean (x : list Q) : Q := (Qsum x / inject_Z (Z.of_nat (length x)))%Q.

(** [x.shift(1)]: every value moves one position down, the first
    position becomes NaN, the length is kept. *)
Definition shift1 (x : list Q) : list (option Q) :=
  take (length x) (None :: (Some <$> x)).

(** The observations (non-NaN values) of a window. *)
Definition observations (w : list (option Q)) : list Q :=
  omap (fun v => v) w.

(** [x.rolling(window, min_periods).mean()]: position [k] looks at
    positions [k - window + 1 .. k] and averages the observations
    there when there are at least [min_periods] of them. *)
Definition rolling_mean (window min_periods : nat) (x : list (option Q))
  : list (option Q) :=
  (fun k =>
     let obs := observations (drop (S k - window) (take (S k) x)) in
     if (min_periods <=? length obs)%nat then Some (mean obs) else None)
  <$> seq 0 (length x).

Definition fillna (d : Q) (x : list (option Q)) : list Q :=
  default d <$> x.

(** [df.groupby(by)[col].transform(f)]: the rows are split by key,
    each group keeps its row labels, [f] maps the values of a group
    to as many results, and the results are put back at the labels
    they came from. *)
Section GroupBy.
Context {R : Type}.
Variable by_key : R -> string.
Variable col : R -> Q.
Variable f : list Q -> list (option Q).

Definition labelled (start : nat) (df : list R) : list (nat * R) :=
  zip (seq start (length df)) df.

Definition group (k : string) (rows : list (nat * R)) : list (nat * R) :=
  filter (fun r => by_key r.2 = k) rows.

Definition apply_group (g : list (nat * R)) : list (nat * option Q) :=
  zip g.*1 (f (col <$> g.*2)).

Definition group_keys (df : list R) : list string :=
  remove_dups (by_key <$> df).

(** The value stored at label [i], NaN when there is none. *)
Fixpoint at_label (i : nat) (out : list (nat * option Q)) : option Q :=
  match out with
  | [] => None
  | (j, v) :: out' => if decide (j = i) then v else at_label i out'
  end.

Definition groupby_transform (df : list R) : list (option Q) :=
  let out :=
    flat_map (fun k => apply_group (group k (labelled 0 df))) (group_keys df) in
  (fun i => at_label i out) <$> seq 0 (length df).
End GroupBy.

(** *** The rolling-form columns of [engineer_features] *)

Definition last10 (x : list Q) : list (option Q) :=
  rolling_mean 10 1 (shift1 x).

Definition home_win_col (r : joined) : Q := inject_Z (home_win (j_game r)).

Definition home_last10_wins (merged : list joined) : list Q :=
  fillna (1 # 2)
    (groupby_transform (fun r => home_team (j_game r)) home_win_col
                       last10 merged).

(** [lambda x: (1 - x).shift(1).rolling(...).mean()] *)
Definition away_last10_wins (merged : list joined) : list Q :=
  fillna (1 # 2)
    (groupby_transform (fun r => away_team (j_game r)) home_win_col
                       (fun x => last10 ((fun v => 1 - v)%Q <$> x)) merged).

(** The prior-form value the features are meant to be: the mean of
    the last [n] values of a team's earlier games, 0.5 without any. *)
Definition trailing_form (n : nat) (prior : list Q) : Q :=
  match prior with
  | [] => 1 # 2
  | _ => mean (drop (length prior - n) prior)
  end.

(** The earlier results of the home team of row [r] in its home
    games, resp. of its away team in its away games, among the rows
    [pre] that precede [r]. *)
Definition prior_home (r : joined) (pre : list joined) : list Q :=
  home_win_col <$>
    filter (fun x => home_team (j_game x) = home_team (j_game r)) pre.

Definition prior_away (r : joined) (pre : list joined) : list Q :=
  (fun x => (1 - home_win_col x)%Q) <$>
    filter (fun x => away_team (j_game x) = away_team (j_game r)) pre.

(** [merged.sort_values('date')]: rows in ascending date order (rows
    of equal date are kept in their order here; pandas leaves their
    order open). *)
Fixpoint insert_by_date (r : joined) (sorted : list joined) : list joined :=
  match sorted with
  | [] => [r]
  | x :: sorted' =>
      if (date (j_game r) <=? date (j_game x))%Z
      then r :: sorted
      else x :: insert_by_date r sorted'
  end.

Definition sort_values_date (df : list joined) : list joined :=
  foldr insert_by_date [] df.

(** A fraction of games: a value between 0 and 1. *)
Definition unit_interval (v : Q) : Prop := (0 <= v /\ v <= 1)%Q.

End Frame.

(** ** [train_model]: the time-based split *)

Module Split.
Import Frame.

Fixpoint insert (d : Z) (sorted : list Z) : list Z :=
  match sorted with
  | [] => [d]
  | x :: sorted' => if (d <=? x)%Z then d :: sorted else x :: insert d sorted'
  end.

Definition sort (x : list Z) : list Z := foldr insert [] x.

(** [Series.quantile(q)] with the default linear interpolation: the
    value at the fractional position [(n - 1) * q] of the sorted
    values; NaT for an empty series. *)
Definition quantile (q : Q) (x : list Z) : option Q :=
  match x with
  | [] => None
  | _ =>
      let s := sort x in
      let n := Z.of_nat (length x) in
      let h := (inject_Z (n - 1) * q)%Q in
      let lo := Qfloor h in
      let hi := Z.min (lo + 1) (n - 1) in
      let vlo := inject_Z (nth (Z.to_nat lo) s 0%Z) in
      let vhi := inject_Z (nth (Z.to_nat hi) s 0%Z) in
      Some (vlo + (vhi - vlo) * (h - inject_Z lo))%Q
  end.

Definition split_date (model_data : list joined) : option Q :=
  quantile (8 # 10) (date ∘ j_game <$> model_data).

(** [date < split_date] and [date >= split_date]; a comparison with
    NaT is false. *)
Definition before (cutoff : option Q) (r : joined) : Prop :=
  match cutoff with
  | Some c => (inject_Z (date (j_game r)) < c)%Q
  | None => False
  end.

Definition at_or_after (cutoff : option Q) (r : joined) : Prop :=
  match cutoff with
  | Some c => (c <= inject_Z (date (j_game r)))%Q
  | None => False
  end.

Global Instance before_dec cutoff r : Decision (before cutoff r).
Proof.
  destruct cutoff as [c|]; simpl; [|right; tauto].
  destruct (Qlt_le_dec (inject_Z (date (j_game r))) c);
    [left; assumption | right; by apply Qle_not_lt].
Defined.

Global Instance at_or_after_dec cutoff r : Decision (at_or_after cutoff r).
Proof.
  destruct cutoff as [c|]; simpl; [|right; tauto].
  destruct (Qlt_le_dec (inject_Z (date (j_game r))) c);
    [right; by apply Qlt_not_le | left; assumption].
Defined.

Definition train_data (model_data : list joined) : list joined :=
  filter (before (split_date model_data)) model_data.

Definition test_data (model_data : list joined) : list joined :=
  filter (at_or_after (split_date model_data)) model_data.

End Split.

(** ** [NBAMLTrainerV3.run] *)

Module Trainer.
Import Frame.

(** What a run does that matters here, in order. *)
Inductive event : Type :=
| PrintError (n_samples : nat)          (* [ERROR: Only n samples] *)
| FitScaler (model_name : string) (n_rows : nat)
| FitClassifier (model_name : string) (n_rows : nat)
| Dump (model_name : string)
| ValueError.   (* raised by [fit_transform] on no row; it ends the run *)

(** [engineer_features]: the merged, date-sorted frame; the feature
    columns it adds do not change the number of rows. *)
Definition engineer_features (games_df : list game) (odds_df : list odds)
  : list joined :=
  sort_values_date (merge_v3 games_df odds_df).

(** [train_model]: the scaler and the classifier are fitted on the
    rows before the split date, then both are written; with no such
    row, [scaler.fit_transform] raises and nothing is written. *)
Definition train_model (model_data : list joined) (model_name : string)
  : list event :=
  let n := length (Split.train_data model_data) in
  if (n =? 0)%nat then [ValueError]
  else [FitScaler model_name n; FitClassifier model_name n; Dump model_name].

(** The events of a call that ended in an exception. *)
Definition raised (events : list event) : bool :=
  match last events with
  | Some ValueError => true
  | _ => false
  end.

Definition recent_seasons : list Z := [2019; 2020; 2021; 2022; 2023]%Z.

Definition train_2025_model (games_df : list game) (odds_df : list odds)
  : list event :=
  let games_recent := filter (fun g => season g ∈ recent_seasons) games_df in
  let odds_recent := filter (fun o => o_season o ∈ recent_seasons) odds_df in
  let merged := sort_values_date (merge_v3 games_recent odds_recent) in
  train_model merged "2025".

Definition run (games_df : list game) (odds_df : list odds) : list event :=
  let model_data := engineer_features games_df odds_df in
  if (length model_data <? 1000)%nat
  then [PrintError (length model_data)]
  else
    let trained := train_model model_data "global" in
    if raised trained then trained
    else trained ++ train_2025_model games_df odds_df.

(** The season column of the 2025 model. *)

(** [(merged['season'] - 2019) / 4], in [train_2025_model] *)
Definition season_norm_recent (r : joined) : Q :=
  ((inject_Z (season (j_game r)) - 2019) / 4)%Q.

(** The frame that [train_2025_model] hands to [train_model]. *)
Definition recent_frame (games_df : list game) (odds_df : list odds)
  : list joined :=
  let games_recent := filter (fun g => season g ∈ recent_seasons) games_df in
  let odds_recent := filter (fun o => o_season o ∈ recent_seasons) odds_df in
  sort_values_date (merge_v3 games_recent odds_recent).

End Trainer.

(** ** [predict-games-v3.py]: artifact selection *)

Module Predictor.

Definition models_dir : string := "./models".

(** *** Artifact names, as [train_model] writes them *)

(** [datetime.now()], field by field. *)
Record datetime : Type := DateTime {
  year : nat; month : nat; day : nat;
  hour : nat; minute : nat; second : nat
}.

Definition valid_datetime (t : datetime) : Prop :=
  (1000 <= year t < 10 ^ 4 /\ 1 <= month t <= 12 /\ 1 <= day t <= 31
   /\ hour t <= 23 /\ minute t <= 59 /\ second t <= 59)%nat.

Definition digit (d : nat) : ascii := ascii_of_nat (48 + d).

(** [n] in decimal on [width] digits, zero padded ([%m], [%d], ... and
    [%Y] for a year of four digits). *)
Fixpoint zero_padded (width n : nat) : string :=
  match width with
  | O => ""
  | S w => zero_padded w (n / 10) +:+ String (digit (n mod 10)) ""
  end.

(** [t.strftime('%Y%m%d_%H%M%S')] *)
Definition strftime (t : datetime) : string :=
  zero_padded 4 (year t) +:+ zero_padded 2 (month t) +:+ zero_padded 2 (day t)
    +:+ "_" +:+ zero_padded 2 (hour t) +:+ zero_padded 2 (minute t)
    +:+ zero_padded 2 (second t).

(** The order of time on time stamps: year first, second last. *)
Fixpoint compare_fields (x y : list nat) : comparison :=
  match x, y with
  | [], [] => Eq
  | [], _ :: _ => Lt
  | _ :: _, [] => Gt
  | a :: x', b :: y' =>
      match Nat.compare a b with
      | Eq => compare_fields x' y'
      | c => c
      end
  end.

Definition fields (t : datetime) : list nat :=
  [year t; month t; day t; hour t; minute t; second t].

Definition compare_datetime (t1 t2 : datetime) : comparison :=
  compare_fields (fields t1) (fields t2).

Definition earlier (t1 t2 : datetime) : Prop := compare_datetime t1 t2 = Lt.

(** A trained pair: its family ([model_name]) and creation time. *)
Record artifact : Type := Artifact {
  family : string;
  created : datetime
}.

(** [f'nba_model_v3_{model_name}_{timestamp}.joblib'] and
    [f'scaler_v3_{model_name}_{timestamp}.joblib'] *)
Definition model_file (a : artifact) : string :=
  "nba_model_v3_" +:+ family a +:+ "_" +:+ strftime (created a) +:+ ".joblib".

Definition scaler_file (a : artifact) : string :=
  "scaler_v3_" +:+ family a +:+ "_" +:+ strftime (created a) +:+ ".joblib".

(** The trainer trains the families ['global'] and ['2025']. *)
Definition trained (a : artifact) : Prop :=
  (family a = "global" \/ family a = "2025") /\ valid_datetime (created a).

(** The names in the models directory after the given trainings. *)
Definition files_written (store : list artifact) : list string :=
  flat_map (fun a => [model_file a; scaler_file a]) store.

Definition path (name : string) : string := models_dir +:+ "/" +:+ name.

(** *** [glob], [sorted], [str.replace] *)

Fixpoint is_suffix (suf s : string) : bool :=
  String.eqb s suf
  || match s with
     | EmptyString => false
     | String _ s' => is_suffix suf s'
     end.

(** [fnmatch] against the pattern [pre*suf], for [pre] and [suf]
    without pattern characters. *)
Definition fnmatch_star (pre suf name : string) : bool :=
  String.prefix pre name && is_suffix suf name
  && (String.length pre + String.length suf <=? String.length name)%nat.

(** [glob(f'{models_dir}/{pre}*{suf}')] over the names of the
    directory, in the order the system lists them. *)
Definition glob (listing : list string) (pre suf : string) : list string :=
  path <$> filter (fun name => fnmatch_star pre suf name) listing.

(** [sorted(xs)]: ascending in the order of [str], which compares
    code points from the left. *)
Definition sorted (xs : list string) : list string :=
  merge_sort String.le xs.

(** [s.replace(old, new)] for a non-empty [old]: occurrences are
    replaced from the left and do not overlap; [skip] counts the
    characters of an occurrence still to pass over. *)
Fixpoint replace_from (skip : nat) (old new s : string) : string :=
  match s with
  | EmptyString => EmptyString
  | String c s' =>
      match skip with
      | S k => replace_from k old new s'
      | O =>
          if String.prefix old s
          then new +:+ replace_from (String.length old - 1) old new s'
          else String c (replace_from 0 old new s')
      end
  end.

Definition replace (old new s : string) : string := replace_from 0 old new s.

(** [c not in s] *)
Fixpoint avoids (c : ascii) (s : string) : bool :=
  match s with
  | EmptyString => true
  | String d s' => negb (Ascii.eqb c d) && avoids c s'
  end.

(** *** [NBAPredictorV3.load_model] *)

Inductive outcome : Type :=
| Loaded (latest_model latest_scaler : string)
| FileNotFoundError (what : string).

(** [joblib.load(p)] finds the file or raises. *)
Definition exists_file (listing : list string) (p : string) : bool :=
  bool_decide (p ∈ path <$> listing).

Definition load_model (model_type : string) (listing : list string) : outcome :=
  let model_files := glob listing ("nba_model_v3_" +:+ model_type +:+ "_") ".joblib" in
  let model_files :=
    match model_files with
    | [] => glob listing "nba_model_v3_global_" ".joblib"
    | _ => model_files
    end in
  match model_files with
  | [] => FileNotFoundError "No V3 model found"
  | _ =>
      let latest_model := List.last (sorted model_files) "" in
      let latest_scaler := replace "nba_model_" "scaler_" latest_model in
      if negb (exists_file listing latest_model)
      then FileNotFoundError latest_model
      else if negb (exists_file listing latest_scaler)
      then FileNotFoundError latest_scaler
      else Loaded latest_model latest_scaler
  end.

(** *** What selection is meant to return *)

Definition later_of (a b : artifact) : artifact :=
  match compare_datetime (created a) (created b) with
  | Lt => b
  | _ => a
  end.

(** The artifact of family [fam] created last, if there is one. *)
Fixpoint latest (fam : string) (store : list artifact) : option artifact :=
  match store with
  | [] => None
  | a :: store' =>
      if decide (family a = fam)
      then Some (match latest fam store' with
                 | Some b => later_of a b
                 | None => a
                 end)
      else latest fam store'
  end.

Definition loaded_pair (a : artifact) : outcome :=
  Loaded (path (model_file a)) (path (scaler_file a)).

Definition select_latest (model_type : string) (store : list artifact) : outcome :=
  match latest model_type store with
  | Some a => loaded_pair a
  | None =>
      match latest "global" store with
      | Some a => loaded_pair a
      | None => FileNotFoundError "No V3 model found"
      end
  end.

(** A family name the pattern takes literally and that ends at the
    first underscore of a file name. *)
Definition plain_char (c : ascii) : bool :=
  negb (Ascii.eqb c "_" || Ascii.eqb c "*" || Ascii.eqb c "?" || Ascii.eqb c "[")%char.

Fixpoint plain (s : string) : bool :=
  match s with
  | EmptyString => true
  | String c s' => plain_char c && plain s'
  end.

(** *** [prepare_features] *)

(** A row of [get_upcoming_games]: the odds columns are null when the
    game has no line of that market. *)
Record upcoming : Type := Upcoming {
  u_game_id : string;
  u_home_team : string;
  u_away_team : string;
  u_spread : option Q;
  u_over_under : option Q;
  u_ml_home_prob : option Q;
  u_ml_away_prob : option Q
}.

(** [self.features] *)
Definition features : list string :=
  [ "elo_diff"; "elo_diff_norm"; "home_last10_wins"; "away_last10_wins";
    "spread_num"; "over_under"; "ml_home_prob"; "ml_away_prob";
    "rest_days_home"; "rest_days_away"; "season_norm" ].

(** [elo_dict.get(x, 1500)] *)
Definition elo_get (elo_dict : gmap string Q) (x : string) : Q :=
  default 1500%Q (elo_dict !! x).

Definition elo_home (elo_dict : gmap string Q) (g : upcoming) : Q :=
  elo_get elo_dict (u_home_team g).

Definition elo_away (elo_dict : gmap string Q) (g : upcoming) : Q :=
  elo_get elo_dict (u_away_team g).

Definition elo_diff (elo_dict : gmap string Q) (g : upcoming) : Q :=
  (elo_home elo_dict g - elo_away elo_dict g)%Q.

Definition elo_diff_norm (elo_dict : gmap string Q) (g : upcoming) : Q :=
  ((elo_diff elo_dict g + 400) / 800)%Q.

(** [(2025 - 2010) / 15], and [(2025 - 2019) / 4] when
    [self.model_type == '2025'] *)
Definition season_norm (model_type : string) : Q :=
  if bool_decide (model_type = "2025")
  then ((2025 - 2019) / 4)%Q
  else ((2025 - 2010) / 15)%Q.

(** [games_df[self.features]], row by row *)
Definition prepare_features (model_type : string) (elo_dict : gmap string Q)
    (games_df : list upcoming) : list (list Q) :=
  (fun g =>
     [ elo_diff elo_dict g; elo_diff_norm elo_dict g;
       (1 # 2)%Q; (1 # 2)%Q;
       default 0%Q (u_spread g); default 220%Q (u_over_under g);
       default (1 # 2)%Q (u_ml_home_prob g);
       default (1 # 2)%Q (u_ml_away_prob g);
       2%Q; 2%Q;
       season_norm model_type ]) <$> games_df.

End Predictor.

(** ** [python-service/app.py]: the inference service *)

Module Service.

Inductive error : Type :=
| HTTPException (status_code : nat) (detail : string)
| KeyError (key : string)
| LibraryError.   (* an exception raised inside a numpy or scikit-learn
                     call, such as the [ValueError] of [transform] on an
                     empty or non-numeric matrix *)

(** Reads of the artifact store. *)
Inductive effect : Type :=
| JoblibLoad (file_name : string).

Section App.
(** The unpickled scikit-learn objects and the methods the service
    calls on them; a call gives [None] when it raises. *)
Variable Model Scaler : Type.
Variable transform : Scaler -> list (list Q) -> option (list (list Q)).
Variable predict : Model -> list (list Q) -> option (list Z).
Variable predict_proba : Model -> list (list Q) -> option (list (Q * Q)).
(** [round(x, ndigits)] *)
Variable round : Q -> nat -> Q.

(** The module globals [MODELS] and [SCALERS]. *)
Record registry : Type := Registry {
  MODELS : gmap string Model;
  SCALERS : gmap string Scaler
}.

(** A computation of the service: it may raise, change the globals
    and read the artifact store. *)
Definition action (A : Type) : Type :=
  registry -> (error + A) * registry * list effect.

Definition ret {A} (x : A) : action A := fun st => (inr x, st, []).

Definition raise {A} (e : error) : action A := fun st => (inl e, st, []).

Definition bind {A B} (m : action A) (k : A -> action B) : action B :=
  fun st =>
    match m st with
    | (inl e, st', log) => (inl e, st', log)
    | (inr x, st', log) =>
        match k x st' with
        | (r, st'', log') => (r, st'', log ++ log')
        end
    end.

Definition globals : action registry := fun st => (inr st, st, []).

(** An action that leaves the globals as they are and reads no
    artifact; an action that raises no [HTTPException]. *)
Definition pure {A} (m : action A) : Prop :=
  forall st, (m st).1.2 = st /\ (m st).2 = [].

Definition no_http_error {A} (m : action A) : Prop :=
  forall st code detail, (m st).1.1 <> inl (HTTPException code detail).

(** [d[k]] *)
Definition getitem {V} (d : gmap string V) (k : string) : action V :=
  match d !! k with
  | Some v => ret v
  | None => raise (KeyError k)
  end.

(** A call into the library: its result, or its exception. *)
Definition call {A} (result : option A) : action A :=
  match result with
  | Some x => ret x
  | None => raise LibraryError
  end.

Fixpoint for_each {A B} (f : A -> action B) (xs : list A) : action (list B) :=
  match xs with
  | [] => ret []
  | x :: xs' =>
      bind (f x) (fun y => bind (for_each f xs') (fun ys => ret (y :: ys)))
  end.

Record PredictRequest : Type := {
  model_type : string;
  games : list (gmap string (gmap string Q))
}.

Record PredictResponse : Type := {
  r_model_type : string;
  predictions : list Z;
  probabilities : list Q;
  confidence : list Q;
  latency_ms : Q
}.

Record GameFeatures : Type := {
  elo_diff : Q; elo_diff_norm : Q;
  home_last10_wins : Q; away_last10_wins : Q;
  spread_num : Q; over_under : Q;
  ml_home_prob : Q; ml_away_prob : Q;
  rest_days_home : Q; rest_days_away : Q;
  season_norm : Q
}.

Record SinglePredictRequest : Type := {
  s_model_type : string;
  features : GameFeatures
}.

Record SinglePredictResponse : Type := {
  prediction : Z;
  home_win_probability : Q;
  s_confidence : Q;
  s_latency_ms : Q
}.

Definition feature_order : list string :=
  [ "elo_diff"; "elo_diff_norm"; "home_last10_wins"; "away_last10_wins";
    "spread_num"; "over_under"; "ml_home_prob"; "ml_away_prob";
    "rest_days_home"; "rest_days_away"; "season_norm" ].

Definition not_found (model_type : string) : error :=
  HTTPException 400 ("Model " +:+ model_type +:+ " not found").

(** [abs(p - 0.5) * 2] *)
Definition confidence_of (p : Q) : Q := (Qabs (p - (1 # 2)) * 2)%Q.

(** [predict_batch]; [start] and [stop] are the two readings of
    [time.time()]. *)
Definition predict_batch (request : PredictRequest) (start stop : Q)
  : action PredictResponse :=
  bind globals (fun g =>
  if bool_decide (MODELS g !! model_type request = None)
  then raise (not_found (model_type request))
  else
    bind (getitem (MODELS g) (model_type request)) (fun model =>
    bind (getitem (SCALERS g) (model_type request)) (fun scaler =>
    bind (for_each
            (fun game =>
               bind (getitem game "features") (fun fs =>
               for_each (getitem fs) feature_order))
            (games request)) (fun X =>
    bind (call (transform scaler X)) (fun X_scaled =>
    bind (call (predict model X_scaled)) (fun predictions =>
    bind (call (predict_proba model X_scaled)) (fun probas =>
    let home_probs := snd <$> probas in
    let confidences := confidence_of <$> home_probs in
    let latency := ((stop - start) * 1000)%Q in
    ret {| r_model_type := model_type request;
           predictions := predictions;
           probabilities := home_probs;
           confidence := confidences;
           latency_ms := round latency 2 |}))))))).

(** [predict_single] *)
Definition predict_single (request : SinglePredictRequest) (start stop : Q)
  : action SinglePredictResponse :=
  bind globals (fun g =>
  if bool_decide (MODELS g !! s_model_type request = None)
  then raise (not_found (s_model_type request))
  else
    bind (getitem (MODELS g) (s_model_type request)) (fun model =>
    bind (getitem (SCALERS g) (s_model_type request)) (fun scaler =>
    let f := features request in
    let X := [[ elo_diff f; elo_diff_norm f; home_last10_wins f;
                away_last10_wins f; spread_num f; over_under f;
                ml_home_prob f; ml_away_prob f; rest_days_home f;
                rest_days_away f; season_norm f ]] in
    bind (call (transform scaler X)) (fun X_scaled =>
    bind (call (predict model X_scaled)) (fun predicted =>
    let prediction := default 0%Z (head predicted) in
    bind (call (predict_proba model X_scaled)) (fun probas =>
    let home_prob := default 0%Q (snd <$> head probas) in
    let confidence := confidence_of home_prob in
    let latency := ((stop - start) * 1000)%Q in
    ret {| prediction := prediction;
           home_win_probability := round home_prob 4;
           s_confidence := round confidence 4;
           s_latency_ms := round latency 2 |})))))).
(** A game of a request that has every entry [predict_batch] reads:
    [g['features'][f]] for each [f] of [feature_order]. *)
Definition complete_game (g : gmap string (gmap string Q)) : bool :=
  match g !! "features" with
  | Some fs => forallb (fun f => bool_decide (is_Some (fs !! f))) feature_order
  | None => false
  end.
End App.

(** *** [load_models], run at start-up *)

Section Startup.
Variable Model Scaler : Type.
(** [joblib.load] of a classifier file and of a scaler file. *)
Variable load_classifier : string -> Model.
Variable load_scaler : string -> Scaler.

(** A file of the models directory: its name and [stat().st_mtime]. *)
Record file : Type := File {
  f_name : string;
  st_mtime : Q
}.

Definition startup_dir : string := "../models".

Definition file_path (f : file) : string := startup_dir +:+ "/" +:+ f_name f.

(** [models_dir.glob(f'{pre}*{suf}')] *)
Definition path_glob (dir : list file) (pre suf : string) : list file :=
  filter (fun f => Predictor.fnmatch_star pre suf (f_name f)) dir.

(** [sorted(files, key=lambda x: x.stat().st_mtime, reverse=True)]:
    newest first; files of equal time keep their order. *)
Fixpoint insert_newest (f : file) (sorted : list file) : list file :=
  match sorted with
  | [] => [f]
  | g :: rest =>
      if Qlt_le_dec (st_mtime f) (st_mtime g)
      then g :: insert_newest f rest
      else f :: sorted
  end.

Definition newest_first (files : list file) : list file :=
  foldr insert_newest [] files.

Definition joblib_load {A} (decode : string -> A) (p : string)
  : action Model Scaler A :=
  fun st => (inr (decode p), st, [JoblibLoad p]).

(** [MODELS[k] = m] and [SCALERS[k] = s] *)
Definition set_model (k : string) (m : Model) : action Model Scaler unit :=
  fun st =>
    (inr tt,
     Registry Model Scaler (<[k := m]> (MODELS _ _ st)) (SCALERS _ _ st), []).

Definition set_scaler (k : string) (s : Scaler) : action Model Scaler unit :=
  fun st =>
    (inr tt,
     Registry Model Scaler (MODELS _ _ st) (<[k := s]> (SCALERS _ _ st)), []).

(** The body of the loop of [load_models] for one family. *)
Definition load_family (dir : list file) (model_type : string)
  : action Model Scaler unit :=
  let model_files :=
    newest_first (path_glob dir ("nba_model_v3_" +:+ model_type +:+ "_") ".joblib") in
  let scaler_files :=
    newest_first (path_glob dir ("scaler_v3_" +:+ model_type +:+ "_") ".joblib") in
  match model_files, scaler_files with
  | m :: _, s :: _ =>
      bind Model Scaler (joblib_load load_classifier (file_path m)) (fun model =>
      bind Model Scaler (set_model model_type model) (fun _ =>
      bind Model Scaler (joblib_load load_scaler (file_path s)) (fun scaler =>
      set_scaler model_type scaler)))
  | _, _ => ret Model Scaler tt
  end.

(** [for model_type in ['global', '2025']: ...] *)
Definition load_models (dir : list file) : action Model Scaler unit :=
  bind Model Scaler (load_family dir "global") (fun _ => load_family dir "2025").

(** The registry before [startup]: [MODELS = {}], [SCALERS = {}]. *)
Definition no_models : registry Model Scaler := Registry Model Scaler ∅ ∅.
End Startup.

End Service.

(** ** Sample inputs *)

Module Examples.
Import Frame.

Definition lakers_celtics (season0 date0 : Z) (i : nat) : game :=
  Game "g" (date0 + Z.of_nat i) season0 "LAL" "BOS" 100 90 1500 1500
       (Z.of_nat i mod 2).

Definition line (season0 date0 : Z) : odds :=
  OddsRow season0 date0 (Some "Los Angeles Lakers") (Some "Boston Celtics")
          (Some (-3)%Q) (Some 220%Q) (Odds.Num (-150)) (Odds.Num 130).

Definition home_game : game := lakers_celtics 2015 0 0.
Definition closing_line : odds := line 2015 0.
Definition opening_line : odds := line 2015 60.

(** A game between teams the odds table does not list. *)
Definition unlisted_game : game :=
  Game "h" 5 2015 "SEA" "VAN" 90 100 1500 1500 0.

Definition five_rows : list joined :=
  (fun i => Joined (lakers_celtics 2015 0 i) None) <$> seq 0 5.

(** 1000 games of season 2010 and ten of season 2019, with one odds
    row for each of the two seasons. *)
Definition games_1010 : list game :=
  (lakers_celtics 2010 0 <$> seq 0 1000)
    ++ (lakers_celtics 2019 1000 <$> seq 0 10).

Definition odds_two_seasons : list odds := [line 2010 0; line 2019 1000].

(** Artifacts with time stamps T1 < T2 < T3. *)
Definition T1 : Predictor.datetime := Predictor.DateTime 2025 1 5 9 30 0.
Definition T2 : Predictor.datetime := Predictor.DateTime 2025 2 1 8 0 59.
Definition T3 : Predictor.datetime := Predictor.DateTime 2025 11 30 23 59 59.

Definition artifact_2025 : Predictor.artifact := Predictor.Artifact "2025" T1.

Definition store_t123 : list Predictor.artifact :=
  [ Predictor.Artifact "2025" T2; Predictor.Artifact "global" T3;
    Predictor.Artifact "2025" T3; Predictor.Artifact "2025" T1 ].

(** Three rows of one date. *)
Definition same_day_rows : list joined :=
  [ Joined (Game "a" 7 2015 "LAL" "BOS" 100 90 1500 1500 1) None;
    Joined (Game "b" 7 2015 "BOS" "LAL" 90 100 1500 1500 0) None;
    Joined (Game "c" 7 2015 "CHI" "MIA" 100 90 1500 1500 1) None ].

(** A models directory: two classifiers and one scaler of the 2025
    family, a classifier of the global family without its scaler. *)
Definition startup_files : list Service.file :=
  [ Service.File "nba_model_v3_2025_20250105_093000.joblib" 10;
    Service.File "nba_model_v3_2025_20250201_080059.joblib" 20;
    Service.File "scaler_v3_2025_20250105_093000.joblib" 11;
    Service.File "nba_model_v3_global_20250105_093000.joblib" 12 ].

(** A game of a request with all its features, and one that lacks
    [season_norm]. *)
Definition full_features : gmap string Q :=
  list_to_map ((fun f => (f, 1%Q)) <$> Service.feature_order).

Definition full_game : gmap string (gmap string Q) :=
  {[ "features" := full_features ]}.

Definition short_game : gmap string (gmap string Q) :=
  {[ "features" := delete "season_norm" full_features ]}.

(** An upcoming game with no line. *)
Definition tip_off : Predictor.upcoming :=
  Predictor.Upcoming "u" "Los Angeles Lakers" "Boston Celtics"
                     None None None None.

End Examples.

(* ===================================================================== *)
(** * Part II.  Properties                                                 *)
(* ===================================================================== *)

(** ** String methods *)

Section StrFacts.
Import Str.

Local Ltac by_cases_on c :=
  destruct c as [[] [] [] [] [] [] [] []]; vm_compute; reflexivity.

Lemma lower_upper_char c : lower_char (upper_char c) = lower_char c.
Proof. by_cases_on c. Qed.

Lemma upper_lower_char c : upper_char (lower_char c) = upper_char c.
Proof. by_cases_on c. Qed.

Lemma is_space_upper_char c : is_space (upper_char c) = is_space c.
Proof. by_cases_on c. Qed.

Lemma is_space_lower_char c : is_space (lower_char c) = is_space c.
Proof. by_cases_on c. Qed.

Lemma lower_lower_char c : lower_char (lower_char c) = lower_char c.
Proof. by_cases_on c. Qed.

Lemma lower_idemp s : lower (lower s) = lower s.
Proof. induction s as [|c s IH]; simpl; [done|]. by rewrite lower_lower_char, IH. Qed.

Lemma lower_upper s : lower (upper s) = lower s.
Proof. induction s as [|c s IH]; simpl; [done|]. by rewrite lower_upper_char, IH. Qed.

Lemma upper_lower s : upper (lower s) = upper s.
Proof. induction s as [|c s IH]; simpl; [done|]. by rewrite upper_lower_char, IH. Qed.

(** Case conversion moves no white space, so it commutes with stripping. *)
Section Commute.
Variable f : ascii -> ascii.
Variable F : string -> string.
Hypothesis F_nil : F EmptyString = EmptyString.
Hypothesis F_cons : forall c s, F (String c s) = String (f c) (F s).
Hypothesis f_space : forall c, is_space (f c) = is_space c.

Lemma lstrip_commute s : lstrip (F s) = F (lstrip s).
Proof.
  induction s as [|c s IH]; [by rewrite F_nil|].
  rewrite F_cons. simpl. rewrite f_space.
  destruct (is_space c); [done|]. by rewrite F_cons.
Qed.

Lemma rstrip_commute s : rstrip (F s) = F (rstrip s).
Proof.
  induction s as [|c s IH]; [by rewrite F_nil|].
  rewrite F_cons. simpl. rewrite IH, f_space.
  destruct (rstrip s) as [|d r].
  - rewrite F_nil. destruct (is_space c); [by rewrite F_nil|].
    by rewrite F_cons, F_nil.
  - by rewrite !F_cons.
Qed.

Lemma strip_commute s : strip (F s) = F (strip s).
Proof. unfold strip. by rewrite rstrip_commute, lstrip_commute. Qed.
End Commute.

Lemma strip_upper s : strip (upper s) = upper (strip s).
Proof. apply (strip_commute upper_char); auto using is_space_upper_char. Qed.

Lemma strip_lower s : strip (lower s) = lower (strip s).
Proof. apply (strip_commute lower_char); auto using is_space_lower_char. Qed.

Lemma lstrip_idemp s : lstrip (lstrip s) = lstrip s.
Proof.
  induction s as [|c s IH]; simpl; [done|].
  destruct (is_space c) eqn:E; [done|]. simpl. by rewrite E.
Qed.

Lemma rstrip_idemp s : rstrip (rstrip s) = rstrip s.
Proof.
  induction s as [|c s IH]; simpl; [done|].
  destruct (rstrip s) as [|d r] eqn:E.
  - destruct (is_space c) eqn:Ec; simpl; [done|]. by rewrite Ec.
  - change (rstrip (String c (String d r))) with
      (match rstrip (String d r) with
       | EmptyString => if is_space c then EmptyString else String c EmptyString
       | String _ _ as r' => String c r'
       end).
    by rewrite IH.
Qed.

Lemma rstrip_lstrip s : rstrip (lstrip s) = lstrip (rstrip s).
Proof.
  induction s as [|c s IH]; simpl; [done|].
  destruct (is_space c) eqn:Ec.
  - rewrite IH. destruct (rstrip s); simpl; [done|]. by rewrite Ec.
  - simpl. destruct (rstrip s); simpl; by rewrite Ec.
Qed.

Lemma strip_idemp s : strip (strip s) = strip s.
Proof.
  unfold strip. by rewrite rstrip_lstrip, rstrip_idemp, lstrip_idemp.
Qed.
End StrFacts.

(** ** Team identity resolution *)

Section Resolver.
Import Str TeamMapping.

(** Insertion order decides: the entry written last for a key is the
    one a lookup finds. *)
Lemma dict_of_items_snoc items k v :
  dict_of_items (items ++ [(k, v)]) = <[k := v]> (dict_of_items items).
Proof. unfold dict_of_items. by rewrite fold_left_app. Qed.

Lemma dict_of_items_last before after k v :
  k ∉ after.*1 ->
  dict_of_items (before ++ (k, v) :: after) !! k = Some v.
Proof.
  revert before. induction after as [|[k' v'] after IH] using rev_ind; intros before Hk.
  - rewrite dict_of_items_snoc. apply lookup_insert_eq.
  - rewrite fmap_app in Hk. simpl in Hk.
    apply not_elem_of_app in Hk as [Hk1 Hk2].
    apply not_elem_of_cons in Hk2 as [Hne _].
    replace (before ++ (k, v) :: after ++ [(k', v')])
      with ((before ++ (k, v) :: after) ++ [(k', v')])
      by (by rewrite <- app_assoc).
    rewrite dict_of_items_snoc, lookup_insert_ne by done.
    by apply IH.
Qed.

(** The table read back from the store is the dict with every full
    name lower-cased: the abbreviations are upper case already. *)
Lemma team_map_lower : team_map = lower <$> TEAM_MAPPING.
Proof. refine (bool_decide_unpack _ _). vm_compute. exact I. Qed.

Lemma team_map_lookup k : team_map !! k = lower <$> (TEAM_MAPPING !! k).
Proof. by rewrite team_map_lower, lookup_fmap. Qed.

(** No lower-cased full name is itself an alias, and each is stripped:
    a resolved name resolves to itself. *)
Lemma canonical_fixed :
  map_Forall (fun _ full => map_team_name (lower full) = lower full) TEAM_MAPPING.
Proof. refine (bool_decide_unpack _ _). vm_compute. exact I. Qed.

Lemma keys_normal :
  Forall (fun kv => upper (strip kv.1) = kv.1) TEAM_MAPPING_items.
Proof. refine (bool_decide_unpack _ _). vm_compute. exact I. Qed.

Lemma map_team_name_unfold x :
  map_team_name x =
    match TEAM_MAPPING !! upper (strip x) with
    | Some full => lower full
    | None => lower (strip x)
    end.
Proof.
  unfold map_team_name, map_team_name_in.
  rewrite team_map_lookup.
  destruct (TEAM_MAPPING !! upper (strip x)); simpl; [done|].
  by rewrite lower_upper, strip_lower, strip_idemp.
Qed.

(** On strings of code points below 128: a token whose stripped,
    upper-cased form is an alias resolves to the lower-cased full name
    of the table, any other token to its own stripped, lower-cased
    form; and resolving a resolved name changes nothing. *)
Lemma map_team_name_fixed_point (x : string) :
  map_team_name x =
    match TEAM_MAPPING !! upper (strip x) with
    | Some full => lower full
    | None => lower (strip x)
    end
  /\ map_team_name (map_team_name x) = map_team_name x.
Proof.
  split; [apply map_team_name_unfold|].
  rewrite (map_team_name_unfold x).
  destruct (TEAM_MAPPING !! upper (strip x)) as [full|] eqn:E.
  - exact (canonical_fixed _ _ E).
  - rewrite map_team_name_unfold.
    by rewrite strip_lower, strip_idemp, upper_lower, E, lower_idemp.
Qed.

(** C9: for an alias written several times in the table, resolution
    returns the entry written last; for ['CHA'] that is the Bobcats
    entry, not the Hornets one. *)
Theorem duplicate_alias_resolves_to_last :
  (forall before after k v,
      TEAM_MAPPING_items = before ++ (k, v) :: after ->
      k ∉ after.*1 ->
      TEAM_MAPPING !! k = Some v /\ map_team_name k = lower v)
  /\ TEAM_MAPPING !! "CHA" = Some "Charlotte Bobcats"
  /\ map_team_name "CHA" = "charlotte bobcats"
  /\ map_team_name "CHA" <> lower "Charlotte Hornets".
Proof.
  split; [|by vm_compute].
  intros before after k v Hitems Hk.
  assert (TEAM_MAPPING !! k = Some v) as Hlook.
  { unfold TEAM_MAPPING. rewrite Hitems. by apply dict_of_items_last. }
  split; [done|].
  rewrite map_team_name_unfold.
  pose proof keys_normal as Hn. rewrite Hitems in Hn.
  apply Forall_app in Hn as [_ Hn]. apply Forall_cons in Hn as [Hn _].
  simpl in Hn. by rewrite Hn, Hlook.
Qed.

Lemma duplicate_alias_resolves_to_last_witness :
  TEAM_MAPPING !! "CHA" = Some "Charlotte Bobcats"
  /\ map_team_name "CHA" = lower "Charlotte Bobcats".
Proof.
  apply (proj1 duplicate_alias_resolves_to_last
           (firstn 36 TEAM_MAPPING_items) (skipn 37 TEAM_MAPPING_items)).
  - reflexivity.
  - vm_compute. intros H. repeat (inversion H as [|? ? ? H']; clear H; rename H' into H; subst).
Defined.
End Resolver.

(** ** Team identity resolution beyond ASCII *)

Section UnicodeResolver.
Import TeamMapping.
Local Open Scope N_scope.

Local Abbreviation of_string := Unicode.of_string.
Local Abbreviation plain_ascii s := (Unicode.isascii (Unicode.of_string s) = true).

Lemma of_string_cons c s :
  of_string (String c s) = N_of_ascii c :: of_string s.
Proof. reflexivity. Qed.

Lemma isascii_cons c s :
  Unicode.isascii (c :: s) = true <-> (c <? 128) = true /\ Unicode.isascii s = true.
Proof. unfold Unicode.isascii. cbn [forallb]. apply andb_true_iff. Qed.

(** Below 128 the two models of the string methods agree. *)
Lemma point_agrees c :
  (N_of_ascii c <? 128) = true ->
  Unicode.upper_point (N_of_ascii c) = Some (N_of_ascii (Str.upper_char c))
  /\ Unicode.lower_point (N_of_ascii c) = Some (N_of_ascii (Str.lower_char c))
  /\ Unicode.is_space (N_of_ascii c) = Str.is_space c
  /\ (N_of_ascii (Str.upper_char c) <? 128) = true
  /\ (N_of_ascii (Str.lower_char c) <? 128) = true.
Proof.
  destruct c as [[] [] [] [] [] [] [] []]; vm_compute; intros H;
    first [discriminate H | by repeat split].
Qed.

Lemma upper_of_string s :
  plain_ascii s ->
  Unicode.upper (of_string s) = Some (of_string (Str.upper s))
  /\ plain_ascii (Str.upper s).
Proof.
  induction s as [|c s IH]; [done|].
  rewrite of_string_cons. intros [Hc Hs]%isascii_cons.
  destruct (IH Hs) as [IH1 IH2].
  destruct (point_agrees c Hc) as (Hu & _ & _ & Hu' & _).
  split.
  - apply mapM_Some_2. cbn [Str.upper]. rewrite of_string_cons.
    constructor; [done|]. by apply mapM_Some_1.
  - cbn [Str.upper]. rewrite of_string_cons. by apply isascii_cons.
Qed.

Lemma lower_of_string s :
  plain_ascii s ->
  Unicode.lower (of_string s) = Some (of_string (Str.lower s))
  /\ plain_ascii (Str.lower s).
Proof.
  induction s as [|c s IH]; [done|].
  rewrite of_string_cons. intros [Hc Hs]%isascii_cons.
  destruct (IH Hs) as [IH1 IH2].
  destruct (point_agrees c Hc) as (_ & Hl & _ & _ & Hl').
  split.
  - apply mapM_Some_2. cbn [Str.lower]. rewrite of_string_cons.
    constructor; [done|]. by apply mapM_Some_1.
  - cbn [Str.lower]. rewrite of_string_cons. by apply isascii_cons.
Qed.

Lemma lstrip_of_string s :
  plain_ascii s ->
  Unicode.lstrip (of_string s) = of_string (Str.lstrip s)
  /\ plain_ascii (Str.lstrip s).
Proof.
  induction s as [|c s IH]; [done|].
  rewrite of_string_cons. intros Hcs. pose proof Hcs as [Hc Hs]%isascii_cons.
  destruct (IH Hs) as [IH1 IH2].
  destruct (point_agrees c Hc) as (_ & _ & Hsp & _ & _).
  cbn [Unicode.lstrip Str.lstrip]. rewrite Hsp.
  destruct (Str.is_space c); [done|]. by rewrite of_string_cons.
Qed.

Lemma rstrip_of_string s :
  plain_ascii s ->
  Unicode.rstrip (of_string s) = of_string (Str.rstrip s)
  /\ plain_ascii (Str.rstrip s).
Proof.
  induction s as [|c s IH]; [done|].
  rewrite of_string_cons. intros Hcs. pose proof Hcs as [Hc Hs]%isascii_cons.
  destruct (IH Hs) as [IH1 IH2].
  destruct (point_agrees c Hc) as (_ & _ & Hsp & _ & _).
  cbn [Unicode.rstrip Str.rstrip]. rewrite IH1, Hsp.
  destruct (Str.rstrip s) as [|c' r].
  - change (of_string "") with (@nil N).
    destruct (Str.is_space c); [done|].
    split; [done|]. by apply isascii_cons.
  - split; [done|].
    rewrite (of_string_cons c). apply isascii_cons. by split.
Qed.

Lemma strip_of_string s :
  plain_ascii s ->
  Unicode.strip (of_string s) = of_string (Str.strip s)
  /\ plain_ascii (Str.strip s).
Proof.
  intros Hs. unfold Unicode.strip, Str.strip.
  destruct (rstrip_of_string s Hs) as [-> Hr]. by apply lstrip_of_string.
Qed.

Local Instance of_string_inj : Inj (=) (=) Unicode.of_string.
Proof.
  intros s1. induction s1 as [|c1 s1 IH]; intros [|c2 s2]; try done.
  rewrite !of_string_cons. intros [= Hc Hs].
  f_equal; [|by apply IH].
  by rewrite <- (ascii_N_embedding c1), <- (ascii_N_embedding c2), Hc.
Qed.

Lemma team_map_of_string k :
  Unicode.team_map !! of_string k
  = (fun full => of_string (Str.lower full)) <$> TEAM_MAPPING !! k.
Proof.
  unfold Unicode.team_map.
  rewrite lookup_fmap, lookup_kmap, team_map_lookup; [|apply of_string_inj].
  by destruct (TEAM_MAPPING !! k).
Qed.

Lemma full_names_plain :
  map_Forall (fun _ full =>
                forallb (fun c => N_of_ascii c <? 128)
                        (list_ascii_of_string full) = true) TEAM_MAPPING.
Proof. refine (bool_decide_unpack _ _). vm_compute. exact I. Qed.

Lemma isascii_of_string s :
  Unicode.isascii (of_string s)
  = forallb (fun c => N_of_ascii c <? 128) (list_ascii_of_string s).
Proof.
  induction s as [|c s IH]; [done|].
  rewrite of_string_cons. cbn [list_ascii_of_string forallb].
  by rewrite <- IH.
Qed.

(** Every sequence of code points below 128 is a string. *)
Lemma of_string_surj (x : Unicode.str) :
  Unicode.isascii x = true -> exists s, x = of_string s.
Proof.
  induction x as [|c x IH]; [by exists ""%string|].
  intros [Hc Hx]%isascii_cons. destruct (IH Hx) as [s ->].
  exists (String (ascii_of_N c) s). rewrite of_string_cons.
  f_equal. symmetry. apply N_ascii_embedding.
  apply N.ltb_lt in Hc. lia.
Qed.

(** On tokens of code points below 128 the resolver on code point
    sequences is the resolver on strings. *)
Lemma map_team_name_of_string s :
  plain_ascii s ->
  Unicode.map_team_name (of_string s) = Some (of_string (map_team_name s))
  /\ plain_ascii (map_team_name s).
Proof.
  intros Hs.
  destruct (strip_of_string s Hs) as [Hstrip Hs1].
  destruct (upper_of_string _ Hs1) as [Hupper Hs2].
  destruct (lower_of_string _ Hs2) as [Hlower Hs3].
  destruct (strip_of_string _ Hs3) as [Hstrip' Hs4].
  unfold Unicode.map_team_name. rewrite Hstrip, Hupper. cbn [mbind option_bind].
  rewrite team_map_of_string.
  unfold map_team_name, map_team_name_in. rewrite team_map_lookup.
  destruct (TEAM_MAPPING !! Str.upper (Str.strip s)) as [full|] eqn:E;
    cbn [fmap option_fmap option_map].
  - split; [done|].
    pose proof (full_names_plain _ _ E) as Hfull. cbn beta in Hfull.
    rewrite <- isascii_of_string in Hfull.
    by apply lower_of_string.
  - rewrite Hlower. cbn [fmap option_fmap option_map]. by rewrite Hstrip'.
Qed.

(** C6 does not hold of the code for every token: a token that ends
    in the Kelvin sign resolves to ['nyk'], and ['nyk'] resolves to
    the full name of the alias ['NYK']. *)
Lemma map_team_name_not_idempotent_beyond_ascii :
  let x := Unicode.of_string "NY" ++ [Unicode.KELVIN_SIGN] in
  Unicode.map_team_name x = Some (Unicode.of_string "nyk")
  /\ Unicode.map_team_name (Unicode.of_string "nyk")
     = Some (Unicode.of_string "new york knicks")
  /\ (Unicode.map_team_name x ≫= Unicode.map_team_name)
     <> Unicode.map_team_name x.
Proof.
  assert (Unicode.map_team_name (Unicode.of_string "NY" ++ [Unicode.KELVIN_SIGN])
          = Some (Unicode.of_string "nyk")) as H1 by (by vm_compute).
  assert (Unicode.map_team_name (Unicode.of_string "nyk")
          = Some (Unicode.of_string "new york knicks")) as H2 by (by vm_compute).
  cbv zeta. split; [done|]. split; [done|].
  rewrite H1. cbn [mbind option_bind]. rewrite H2.
  intros H. vm_compute in H. discriminate H.
Qed.

(** C6, for tokens of code points below 128: resolution never fails;
    a token whose stripped, upper-cased form is an alias resolves to
    the lower-cased full name of the table, any other token to its
    own stripped, lower-cased form; the resolved name has code points
    below 128 only, and resolving it changes nothing. *)
Theorem map_team_name_idempotent_on_ascii (x : Unicode.str) :
  Unicode.isascii x = true ->
  exists (alias : string) (fallback y : Unicode.str),
    Unicode.upper (Unicode.strip x) = Some (Unicode.of_string alias)
    /\ Unicode.lower (Unicode.strip x) = Some fallback
    /\ match TEAM_MAPPING !! alias with
       | Some full => Unicode.lower (Unicode.of_string full) = Some y
       | None => y = fallback
       end
    /\ Unicode.map_team_name x = Some y
    /\ Unicode.isascii y = true
    /\ Unicode.map_team_name y = Some y.
Proof.
  intros Hx. destruct (of_string_surj x Hx) as [s ->].
  destruct (strip_of_string s Hx) as [Hstrip Hs1].
  destruct (upper_of_string _ Hs1) as [Hupper _].
  destruct (lower_of_string _ Hs1) as [Hlower _].
  destruct (map_team_name_of_string s Hx) as [Hmap Hplain].
  destruct (map_team_name_of_string _ Hplain) as [Hmap2 _].
  destruct (map_team_name_fixed_point s) as [Hunfold Hfix].
  exists (Str.upper (Str.strip s)),
         (of_string (Str.lower (Str.strip s))),
         (of_string (map_team_name s)).
  rewrite Hstrip. split; [done|]. split; [done|]. split.
  - rewrite Hunfold.
    destruct (TEAM_MAPPING !! Str.upper (Str.strip s)) as [full|] eqn:E; [|done].
    pose proof (full_names_plain _ _ E) as Hfull. cbn beta in Hfull.
    rewrite <- isascii_of_string in Hfull.
    by apply lower_of_string.
  - split; [done|]. split; [done|]. by rewrite Hmap2, Hfix.
Qed.

Lemma map_team_name_idempotent_on_ascii_witness :
  exists (alias : string) (fallback y : Unicode.str),
    Unicode.upper (Unicode.strip (Unicode.of_string " lal "))
    = Some (Unicode.of_string alias)
    /\ Unicode.lower (Unicode.strip (Unicode.of_string " lal ")) = Some fallback
    /\ match TEAM_MAPPING !! alias with
       | Some full => Unicode.lower (Unicode.of_string full) = Some y
       | None => y = fallback
       end
    /\ Unicode.map_team_name (Unicode.of_string " lal ") = Some y
    /\ Unicode.isascii y = true
    /\ Unicode.map_team_name y = Some y.
Proof.
  apply (map_team_name_idempotent_on_ascii (Unicode.of_string " lal ")).
  reflexivity.
Defined.
End UnicodeResolver.

(** ** Odds to probability *)

Section OddsFacts.
Import Odds.
Local Open Scope Q_scope.

Lemma truediv_nonzero a b : ~ b == 0 -> truediv a b = inr (a / b).
Proof.
  intros Hb. unfold truediv.
  destruct (Qeq_bool b 0) eqn:E; [|done].
  by apply Qeq_bool_eq in E.
Qed.


Lemma prob_nonpositive p :
  p <= 0 -> american_odds_to_prob (Num p) = Qabs p / (Qabs p + 100).
Proof.
  intros Hp. unfold american_odds_to_prob, convert. simpl.
  destruct (Qlt_le_dec 0 p) as [Hlt|_]; [by apply Qle_not_lt in Hp|].
  rewrite truediv_nonzero; [done|].
  pose proof (Qabs_nonneg p) as Habs. intros H. lra.
Qed.

(** C10: a price equal to 0 takes the non-positive branch and gives
    0, which is neither the neutral 0.5 nor strictly inside (0, 1). *)
Theorem american_odds_to_prob_zero (p : Q) :
  p == 0 ->
  american_odds_to_prob (Num p) == 0
  /\ ~ american_odds_to_prob (Num p) == 1 # 2
  /\ ~ 0 < american_odds_to_prob (Num p).
Proof.
  intros Hp.
  assert (american_odds_to_prob (Num p) == 0) as H0.
  { rewrite prob_nonpositive by lra.
    assert (Qabs p == 0) as ->. { rewrite Hp. reflexivity. }
    reflexivity. }
  rewrite H0. split; [reflexivity|]. split.
  - intros H. vm_compute in H. discriminate.
  - apply Qlt_irrefl.
Qed.

Lemma american_odds_to_prob_zero_witness :
  american_odds_to_prob (Num 0) == 0
  /\ ~ american_odds_to_prob (Num 0) == 1 # 2
  /\ ~ 0 < american_odds_to_prob (Num 0).
Proof. apply american_odds_to_prob_zero. reflexivity. Defined.
End OddsFacts.

(** ** Odds to probability in binary64 *)

Section FloatDivisors.
Import PrimFloat SpecFloat FloatOps FloatAxioms.
Local Open Scope Z_scope.

Local Abbreviation digits m := (Z.pos (digits2_pos m)).
Local Abbreviation emin := (-1074)%Z.

Lemma digits_le (a b : positive) : (a <= b)%positive -> digits a <= digits b.
Proof.
  revert b. induction a as [a IH|a IH|]; intros [b|b|] Hab;
    cbn [digits2_pos]; try lia; specialize (IH b); lia.
Qed.

Lemma digits_shift m d : digits (Pos.iter xO m d) = digits m + Z.pos d.
Proof.
  induction d as [|d IH] using Pos.peano_ind.
  - simpl. lia.
  - rewrite Pos.iter_succ. cbn [digits2_pos]. lia.
Qed.

(** A mantissa of [d + n] digits keeps [d] digits when shifted right
    by [n]. *)
Local Abbreviation positive_part mrs d :=
  (exists m, shr_m mrs = Z.pos m /\ d <= digits m).

Lemma shr_1_positive mrs d :
  1 <= d -> positive_part mrs (d + 1) -> positive_part (shr_1 mrs) d.
Proof.
  intros Hd (m & Hm & Hdig). destruct mrs as [m0 r s]. simpl in Hm. subst m0.
  destruct m as [p|p|]; simpl in *.
  - exists p. split; [done|lia].
  - exists p. split; [done|lia].
  - lia.
Qed.

Lemma iter_pos_nat {A} (f : A -> A) p x :
  iter_pos f p x = Nat.iter (Pos.to_nat p) f x.
Proof.
  revert x. induction p as [p IH|p IH|]; intros x; cbn [iter_pos].
  - rewrite !IH, Pos2Nat.inj_xI.
    replace (S (2 * Pos.to_nat p)) with (Pos.to_nat p + (Pos.to_nat p + 1))%nat
      by lia.
    by rewrite !Nat.iter_add.
  - rewrite !IH, Pos2Nat.inj_xO.
    replace (2 * Pos.to_nat p)%nat with (Pos.to_nat p + Pos.to_nat p)%nat by lia.
    by rewrite Nat.iter_add.
  - done.
Qed.

Lemma iter_shr_1_positive (n : nat) mrs d :
  1 <= d -> positive_part mrs (d + Z.of_nat n) ->
  positive_part (Nat.iter n shr_1 mrs) d.
Proof.
  revert d. induction n as [|n IH]; intros d Hd Hm.
  - simpl. by rewrite Z.add_0_r in Hm.
  - simpl. apply shr_1_positive; [done|]. apply IH; [lia|].
    by replace (d + 1 + Z.of_nat n) with (d + Z.of_nat (S n)) by lia.
Qed.

(** Rounding to the format keeps a positive mantissa positive, and
    keeps the sum of its number of digits and its exponent, when this
    sum is above the least exponent. *)
Lemma shr_fexp_positive m e l :
  emin < digits m + e ->
  exists m' e',
    shr_fexp prec emax (Z.pos m) e l = ({| shr_m := Z.pos m'; shr_r := shr_r (shr_fexp prec emax (Z.pos m) e l).1; shr_s := shr_s (shr_fexp prec emax (Z.pos m) e l).1 |}, e')
    /\ digits m + e <= digits m' + e'.
Proof.
  intros Hk. unfold shr_fexp, shr.
  set (n := fexp prec emax (Zdigits2 (Z.pos m) + e) - e).
  assert (n < digits m) as Hn.
  { unfold n, fexp, SpecFloat.emin, prec, emax. simpl Zdigits2. lia. }
  destruct n as [|p|p] eqn:En.
  - destruct l as [|[]]; simpl; eexists _, _; (split; [reflexivity|lia]).
  - rewrite iter_pos_nat.
    destruct (iter_shr_1_positive (Pos.to_nat p) (shr_record_of_loc (Z.pos m) l)
                (digits m - Z.pos p)) as (m' & Hm' & Hdig); [lia| |].
    { exists m. split; [by destruct l as [|[]]|]. lia. }
    destruct (Nat.iter (Pos.to_nat p) shr_1 (shr_record_of_loc (Z.pos m) l))
      as [m0 r s] eqn:E.
    simpl in Hm'. subst m0. exists m', (e + Z.pos p). split; [done|]. lia.
  - destruct l as [|[]]; simpl; eexists _, _; (split; [reflexivity|lia]).
Qed.

Lemma binary_round_aux_not_zero s m e l :
  emin < digits m + e ->
  forall s', binary_round_aux prec emax s (Z.pos m) e l <> S754_zero s'.
Proof.
  intros Hk s'. unfold binary_round_aux.
  destruct (shr_fexp_positive m e l Hk) as (m' & e' & -> & Hk').
  set (r := round_nearest_even _ _).
  assert (exists m'', r = Z.pos m'' /\ digits m' <= digits m'') as (m'' & -> & Hm'').
  { unfold r, round_nearest_even. cbn [shr_m].
    destruct (loc_of_shr_record _) as [|[]].
    - by exists m'.
    - destruct (Z.even (Z.pos m')); [by exists m'|].
      exists (m' + 1)%positive. split; [done|]. apply digits_le. lia.
    - by exists m'.
    - exists (m' + 1)%positive. split; [done|]. apply digits_le. lia. }
  destruct (shr_fexp_positive m'' e' loc_Exact) as (m3 & e3 & -> & _); [lia|].
  cbn [shr_m]. by destruct (e3 <=? emax - prec).
Qed.

Lemma binary_round_not_zero s m e :
  emin < digits m + e ->
  forall s', binary_round prec emax s m e <> S754_zero s'.
Proof.
  intros Hk s'. unfold binary_round, shl_align.
  destruct (fexp prec emax (digits m + e) - e) as [|d|d] eqn:Ed.
  - by apply binary_round_aux_not_zero.
  - by apply binary_round_aux_not_zero.
  - apply binary_round_aux_not_zero. rewrite digits_shift. lia.
Qed.

(** The sum of a positive float, or of a float that is not negative,
    and 100 is not zero. *)
Lemma hundred : Prim2SF 100 = S754_finite false 7036874417766400 (-46).
Proof. by vm_compute. Qed.

Lemma add_hundred_not_zero (X : spec_float) :
  match X with
  | S754_finite true _ _ | S754_infinity true => False
  | _ => True
  end ->
  SFeqb (SF64add X (Prim2SF 100)) (S754_zero false) = false.
Proof.
  rewrite hundred. intros HX.
  destruct X as [[]|[]| |[] mx ex]; try done.
  assert (forall Y, (forall s', Y <> S754_zero s') ->
                    SFeqb Y (S754_zero false) = false) as Hnz.
  { intros [s0|[]| |[] ? ?] HY; try done. by destruct (HY s0). }
  apply Hnz. intros s'.
  unfold SF64add, SFadd, cond_Zopp. cbv zeta.
  set (ez := Z.min ex (-46)).
  set (a := (shl_align mx ex ez).1).
  set (b := (shl_align 7036874417766400 (-46) ez).1).
  change (Z.pos a + Z.pos b) with (Z.pos (a + b)). unfold binary_normalize.
  apply binary_round_not_zero.
  assert (digits (a + b) >= digits b) as Hab.
  { apply Z.le_ge, digits_le. lia. }
  assert (digits b + ez = 7) as Hb.
  { unfold b, shl_align.
    destruct (ez - -46) as [|d|d] eqn:Ed; cbn [fst].
    - change (digits 7036874417766400) with 53. lia.
    - lia.
    - rewrite digits_shift. change (digits 7036874417766400) with 53. lia. }
  lia.
Qed.

Lemma positive_divisor x :
  (0 <? x)%float = true -> (x + 100 =? 0)%float = false.
Proof.
  rewrite ltb_spec, eqb_spec, add_spec. intros Hpos.
  change (Prim2SF 0) with (S754_zero false) in *.
  apply add_hundred_not_zero.
  by destruct (Prim2SF x) as [[]|[]| |[] ? ?].
Qed.

Lemma magnitude_divisor x : (abs x + 100 =? 0)%float = false.
Proof.
  rewrite eqb_spec, add_spec, abs_spec.
  change (Prim2SF 0) with (S754_zero false).
  apply add_hundred_not_zero.
  by destruct (Prim2SF x) as [[]|[]| |[] ? ?].
Qed.
End FloatDivisors.

Section OddsFloatFacts.
Import PrimFloat OddsFloat.
Local Open Scope float_scope.

Lemma prob_of_positive x :
  (0 <? x) = true ->
  american_odds_to_prob (Converts x) = 100 / (x + 100).
Proof.
  intros Hpos. unfold american_odds_to_prob, convert, truediv.
  cbn [isna float_of]. by rewrite Hpos, (positive_divisor x Hpos).
Qed.

Lemma prob_of_other x :
  (0 <? x) = false ->
  american_odds_to_prob (Converts x) = abs x / (abs x + 100).
Proof.
  intros Hpos. unfold american_odds_to_prob, convert, truediv.
  cbn [isna float_of]. by rewrite Hpos, magnitude_divisor.
Qed.

(** The check visits every whole price up to its bound. *)
Lemma check_whole_prices_sound (last : positive) :
  check_whole_prices last = true ->
  forall z, (1 <= z <= Z.pos last)%Z -> whole_price_ok z = true.
Proof.
  unfold check_whole_prices.
  assert ((Pos.iter check_next (1%Z, true) last).1 = (1 + Z.pos last)%Z
          /\ ((Pos.iter check_next (1%Z, true) last).2 = true ->
              forall z, (1 <= z <= Z.pos last)%Z -> whole_price_ok z = true))
    as [_ H]; [|exact H].
  induction last as [|last [IH1 IH2]] using Pos.peano_ind.
  - cbn [Pos.iter check_next fst snd]. split; [done|].
    rewrite andb_true_l. intros Hok z Hz.
    by assert (z = 1%Z) as -> by lia.
  - rewrite Pos.iter_succ. unfold check_next at 1. cbn [fst snd].
    rewrite IH1. split; [lia|].
    intros [Hprev Hlast]%andb_prop z Hz. rewrite IH1 in Hlast.
    destruct (decide (z = 1 + Z.pos last)%Z) as [->|Hne]; [done|].
    apply (IH2 Hprev). lia.
Qed.

Lemma whole_prices_checked : check_whole_prices 100000 = true.
Proof. vm_compute. reflexivity. Qed.

(** C2 does not hold of the code for every price that [float()]
    accepts: the price 1e-15 and the price -1e19 give exactly 1, the
    text ['inf'] gives 0, and the text ['nan'] gives a NaN; none of
    these prices is 0. *)
Lemma american_odds_to_prob_leaves_open_interval :
  american_odds_to_prob (Converts 0x1.203af9ee75616p-50) = 1
  /\ american_odds_to_prob (Converts (-0x1.158e460913dp+63)) = 1
  /\ american_odds_to_prob (Converts infinity) = 0
  /\ is_nan (american_odds_to_prob (Converts nan)) = true
  /\ (0x1.203af9ee75616p-50 =? 0) = false
  /\ (-0x1.158e460913dp+63 =? 0) = false
  /\ (infinity =? 0) = false
  /\ (nan =? 0) = false.
Proof. by vm_compute. Qed.

(** C2, as far as it holds: a missing price and a text that [float()]
    rejects give exactly 0.5, and no price makes the function raise
    (it is total, and the divisor is never zero); a price that
    converts to a positive float [x] gives [100 / (x + 100)] and any
    other converted price [|x| / (|x| + 100)], computed in binary64;
    and for every whole price of magnitude 1 to 100000 the result is
    strictly between 0 and 1. *)
Theorem american_odds_to_prob_float_spec :
  american_odds_to_prob Missing = 0.5
  /\ american_odds_to_prob Rejected = 0.5
  /\ (forall x, convert (Converts x) <> inl ZeroDivisionError)
  /\ (forall x, (0 <? x) = true ->
        american_odds_to_prob (Converts x) = 100 / (x + 100))
  /\ (forall x, (0 <? x) = false ->
        american_odds_to_prob (Converts x) = abs x / (abs x + 100))
  /\ (forall z : Z, (1 <= Z.abs z <= 100000)%Z ->
        let x := of_Z z in
        let prob := american_odds_to_prob (Converts x) in
        prob = (if (0 <? z)%Z then 100 / (x + 100)
                else abs x / (abs x + 100))
        /\ (0 <? prob) = true /\ (prob <? 1) = true).
Proof.
  split; [done|]. split; [done|].
  split.
  { intros x. unfold convert, truediv. cbn [float_of].
    destruct (0 <? x) eqn:Hpos.
    - by rewrite (positive_divisor x Hpos).
    - by rewrite magnitude_divisor. }
  split; [exact prob_of_positive|]. split; [exact prob_of_other|].
  intros z Hz. cbv zeta.
  pose proof (check_whole_prices_sound _ whole_prices_checked (Z.abs z) Hz) as Hok.
  unfold whole_price_ok in Hok. cbv zeta in Hok.
  repeat (apply andb_prop in Hok as [Hok ?]).
  repeat match goal with
         | H : negb _ = true |- _ => apply negb_true_iff in H
         end.
  destruct z as [|p|p]; [lia| |].
  - change (Z.abs (Z.pos p)) with (Z.pos p) in *.
    change (0 <? Z.pos p)%Z with true. cbv iota.
    rewrite prob_of_positive by done. by repeat split.
  - change (Z.abs (Z.neg p)) with (Z.pos p) in *.
    change (- Z.pos p)%Z with (Z.neg p) in *.
    change (0 <? Z.neg p)%Z with false. cbv iota.
    rewrite prob_of_other by done. by repeat split.
Qed.
End OddsFloatFacts.

(** ** Group-wise transforms and the rolling form *)

Section GroupByFacts.
Import Frame.
Context {R : Type}.
Variable by_key : R -> string.
Variable col : R -> Q.
Variable f : list Q -> list (option Q).
Hypothesis f_length : forall x, length (f x) = length x.

Lemma labelled_cons s r (df : list R) :
  labelled s (r :: df) = (s, r) :: labelled (S s) df.
Proof. reflexivity. Qed.

Lemma labelled_app s (a b : list R) :
  labelled s (a ++ b) = labelled s a ++ labelled (s + length a) b.
Proof.
  revert s. induction a as [|r a IH]; intros s; simpl.
  - by rewrite Nat.add_0_r.
  - rewrite !labelled_cons, IH. simpl. by rewrite Nat.add_succ_r.
Qed.

Lemma labelled_bound s (df : list R) i r :
  (i, r) ∈ labelled s df -> s <= i < s + length df.
Proof.
  intros H%elem_of_zip_l. apply elem_of_seq in H. lia.
Qed.

Lemma group_subset k (rows : list (nat * R)) x :
  x ∈ group by_key k rows -> x ∈ rows /\ by_key x.2 = k.
Proof. unfold group. rewrite list_elem_of_filter. tauto. Qed.

Lemma group_values k s (df : list R) :
  (group by_key k (labelled s df)).*2 = filter (fun r => by_key r = k) df.
Proof.
  revert s. induction df as [|r df IH]; intros s; [done|].
  unfold group in *. rewrite labelled_cons, !filter_cons. simpl.
  destruct (decide (by_key r = k)); simpl; by rewrite IH.
Qed.

Lemma at_label_skip i (a b : list (nat * option Q)) :
  i ∉ a.*1 -> at_label i (a ++ b) = at_label i b.
Proof.
  induction a as [|[j v] a IH]; simpl; [done|].
  intros [Hne Hin]%not_elem_of_cons.
  destruct (decide (j = i)); [congruence|]. by apply IH.
Qed.

Lemma at_label_hit i v (a b : list (nat * option Q)) :
  i ∉ a.*1 -> at_label i (a ++ (i, v) :: b) = v.
Proof.
  intros H. rewrite at_label_skip by done. simpl.
  by destruct (decide (i = i)).
Qed.

Lemma apply_group_labels (g : list (nat * R)) :
  (apply_group col f g).*1 = g.*1.
Proof.
  unfold apply_group. apply fst_zip.
  by rewrite f_length, !length_fmap.
Qed.

(** The transform puts at a row what [f] computes at the position of
    that row inside its own group. *)
Lemma groupby_transform_lookup (pre : list R) r (post : list R) :
  groupby_transform by_key col f (pre ++ r :: post) !! length pre
  = Some (default None
            (f (col <$> (filter (fun x => by_key x = by_key r) pre
                         ++ r :: filter (fun x => by_key x = by_key r) post))
               !! length (filter (fun x => by_key x = by_key r) pre))).
Proof.
  set (df := pre ++ r :: post). set (i := length pre).
  assert (i < length df)%nat as Hi.
  { unfold df, i. rewrite length_app. simpl. lia. }
  unfold groupby_transform.
  rewrite list_lookup_fmap, lookup_seq_lt by done. simpl. f_equal.
  assert (labelled 0 df
          = labelled 0 pre ++ (i, r) :: labelled (S i) post) as HL.
  { unfold df. by rewrite labelled_app, labelled_cons. }
  assert (forall x, (i, x) ∈ labelled 0 df -> x = r) as Huniq.
  { intros x. rewrite HL, elem_of_app, elem_of_cons.
    intros [H|[H|H]].
    - apply labelled_bound in H. unfold i in H. lia.
    - congruence.
    - apply labelled_bound in H. lia. }
  assert (by_key r ∈ group_keys by_key df) as Hk.
  { unfold group_keys. rewrite elem_of_remove_dups.
    apply list_elem_of_fmap. exists r. split; [done|].
    unfold df. rewrite elem_of_app, elem_of_cons. auto. }
  destruct (list_elem_of_split_l _ _ Hk) as (ks1 & ks2 & -> & Hks1).
  rewrite flat_map_app. simpl.
  rewrite at_label_skip.
  2:{ intros Hin. apply list_elem_of_fmap in Hin as ([j v] & Hj & Hin).
      simpl in Hj. subst j.
      apply list_elem_of_In, in_flat_map in Hin as (k & Hk1 & Hin).
      apply list_elem_of_In in Hin, Hk1.
      assert (i ∈ (apply_group col f (group by_key k (labelled 0 df))).*1) as Hl.
      { apply list_elem_of_fmap. by exists (i, v). }
      rewrite apply_group_labels in Hl.
      apply list_elem_of_fmap in Hl as ([j x] & Hj & Hx). simpl in Hj. subst j.
      apply group_subset in Hx as [Hx Hkx]. simpl in Hkx.
      apply Huniq in Hx. subst x. congruence. }
  set (same := fun x => by_key x = by_key r).
  assert (group by_key (by_key r) (labelled 0 df)
          = group by_key (by_key r) (labelled 0 pre)
              ++ (i, r) :: group by_key (by_key r) (labelled (S i) post)) as HG.
  { unfold group. rewrite HL, filter_app, filter_cons_True; done. }
  set (gpre := group by_key (by_key r) (labelled 0 pre)) in *.
  set (gpost := group by_key (by_key r) (labelled (S i) post)) in *.
  unfold apply_group at 1. rewrite HG.
  rewrite !fmap_app, !fmap_cons. simpl.
  unfold gpre at 2, gpost at 2. rewrite !group_values. fold same.
  set (X := f ((col <$> filter same pre) ++ col r :: (col <$> filter same post))).
  assert (length (filter same pre) = length gpre) as Hp.
  { unfold gpre, same. by rewrite <- (group_values (by_key r) 0 pre), length_fmap. }
  assert (length X = length gpre + S (length gpost))%nat as HX.
  { unfold X. rewrite f_length, length_app. simpl. rewrite !length_fmap, Hp.
    unfold gpost, same.
    by rewrite <- (group_values (by_key r) (S i) post), length_fmap. }
  destruct (lookup_lt_is_Some_2 X (length gpre)) as [w Hw]; [lia|].
  rewrite Hp, Hw. simpl.
  rewrite <- (take_drop_middle X (length gpre) w Hw).
  rewrite zip_with_app.
  2:{ rewrite length_fmap, length_take. lia. }
  simpl. rewrite <- app_assoc. simpl.
  apply at_label_hit.
  intros Hin. apply list_elem_of_fmap in Hin as ([j v] & Hj & Hin).
  simpl in Hj. subst j. apply elem_of_zip_l in Hin.
  apply list_elem_of_fmap in Hin as ([j x] & Hj & Hin). simpl in Hj. subst j.
  apply group_subset in Hin as [Hin _]. apply labelled_bound in Hin.
  unfold i in Hin. lia.
Qed.
End GroupByFacts.

Section RollingForm.
Import Frame.

Lemma observations_Some (x : list Q) : observations (Some <$> x) = x.
Proof. induction x as [|v x IH]; simpl; [done|]. by f_equal. Qed.

Lemma length_shift1 x : length (shift1 x) = length x.
Proof.
  unfold shift1. rewrite length_take. simpl. rewrite length_fmap. lia.
Qed.

Lemma length_rolling_mean w m x : length (rolling_mean w m x) = length x.
Proof. unfold rolling_mean. by rewrite length_fmap, length_seq. Qed.

Lemma length_last10 x : length (last10 x) = length x.
Proof. unfold last10. by rewrite length_rolling_mean, length_shift1. Qed.

(** Shift-then-window is causal: the value at a position is made of
    the values before it, the last ten of them at most. *)
Lemma last10_lookup (a : list Q) v (b : list Q) :
  last10 (a ++ v :: b) !! length a
  = Some (match a with
          | [] => None
          | _ => Some (mean (drop (length a - 10) a))
          end).
Proof.
  set (k := length a).
  assert (k < length (a ++ v :: b))%nat as Hk.
  { rewrite length_app. simpl. lia. }
  unfold last10, rolling_mean.
  rewrite list_lookup_fmap, length_shift1, lookup_seq_lt by done.
  cbn [fmap option_fmap option_map Nat.add]. f_equal.
  assert (take (S k) (shift1 (a ++ v :: b)) = None :: (Some <$> a)) as ->.
  { unfold shift1. rewrite take_take, Nat.min_l by lia.
    rewrite fmap_app. simpl. f_equal. unfold k.
    rewrite <- (length_fmap Some a). apply take_app_length. }
  assert (observations (drop (S k - 10) (None :: (Some <$> a)))
          = drop (k - 10) a) as ->.
  { destruct (le_lt_dec (S k) 10) as [Hle|Hgt].
    - replace (S k - 10)%nat with 0%nat by lia.
      replace (k - 10)%nat with 0%nat by lia.
      simpl. apply observations_Some.
    - replace (S k - 10)%nat with (S (k - 10)) by lia.
      simpl. by rewrite <- fmap_drop, observations_Some. }
  destruct a as [|v0 a]; [done|].
  assert (1 <= length (drop (k - 10) (v0 :: a)))%nat as Hlen.
  { rewrite length_drop. fold k. simpl in k. lia. }
  apply Nat.leb_le in Hlen. by rewrite Hlen.
Qed.

Lemma trailing_form_default (prior : list Q) :
  default (1 # 2)
    (match prior with
     | [] => None
     | _ => Some (mean (drop (length prior - 10) prior))
     end) = trailing_form 10 prior.
Proof. by destruct prior. Qed.

Lemma home_last10_wins_lookup pre r post :
  home_last10_wins (pre ++ r :: post) !! length pre
  = Some (trailing_form 10 (prior_home r pre)).
Proof.
  unfold home_last10_wins, fillna.
  rewrite list_lookup_fmap, groupby_transform_lookup by apply length_last10.
  simpl. f_equal.
  rewrite fmap_app, fmap_cons.
  rewrite <- (length_fmap home_win_col (filter _ pre)).
  rewrite last10_lookup. simpl. apply trailing_form_default.
Qed.

Lemma away_last10_wins_lookup pre r post :
  away_last10_wins (pre ++ r :: post) !! length pre
  = Some (trailing_form 10 (prior_away r pre)).
Proof.
  unfold away_last10_wins, fillna.
  rewrite list_lookup_fmap, groupby_transform_lookup.
  2:{ intros x. by rewrite length_last10, length_fmap. }
  simpl. f_equal.
  rewrite <- list_fmap_compose, fmap_app, fmap_cons.
  unfold prior_away.
  rewrite <- (length_fmap (fun x => (1 - home_win_col x)%Q) (filter _ pre)).
  unfold compose.
  rewrite last10_lookup. simpl. apply trailing_form_default.
Qed.

(** C1: the rolling-form features of the game at index [length pre]
    are the trailing mean over the (at most ten) earlier games of
    the same home team, resp. away team; they do not change when the
    rows after that game are cut off, and they are 0.5 when the team
    has no earlier game. *)
Theorem rolling_form_uses_prior_games_only
    (pre : list joined) (r : joined) (post : list joined) :
  home_last10_wins (pre ++ r :: post) !! length pre
    = Some (trailing_form 10 (prior_home r pre))
  /\ away_last10_wins (pre ++ r :: post) !! length pre
    = Some (trailing_form 10 (prior_away r pre))
  /\ home_last10_wins (pre ++ r :: post) !! length pre
    = home_last10_wins (pre ++ [r]) !! length pre
  /\ away_last10_wins (pre ++ r :: post) !! length pre
    = away_last10_wins (pre ++ [r]) !! length pre
  /\ (prior_home r pre = [] ->
      home_last10_wins (pre ++ r :: post) !! length pre = Some (1 # 2))
  /\ (prior_away r pre = [] ->
      away_last10_wins (pre ++ r :: post) !! length pre = Some (1 # 2)).
Proof.
  rewrite !home_last10_wins_lookup, !away_last10_wins_lookup.
  repeat split; try done.
  - by intros ->.
  - by intros ->.
Qed.
End RollingForm.

(** ** The join of games and odds *)

Section MergeFacts.
Import Frame.
Variable left_on : game -> key.
Variable right_on : odds -> key.

Lemma filter_none {A} (P : A -> Prop) `{forall x, Decision (P x)} (l : list A) :
  (forall x, x ∈ l -> ~ P x) -> filter P l = [].
Proof.
  induction l as [|x l IH]; intros Hall; [done|].
  rewrite filter_cons_False by (apply Hall; left).
  apply IH. intros y Hy. apply Hall. by right.
Qed.

(** With one odds row per key at most, a game meets one odds row at
    most. *)
Lemma matching_unique_key (g : game) (odds_df : list odds) :
  NoDup (right_on <$> odds_df) ->
  matching left_on right_on g odds_df = []
  \/ exists o, matching left_on right_on g odds_df = [o].
Proof.
  unfold matching. induction odds_df as [|o odds_df IH]; [by left|].
  rewrite fmap_cons, NoDup_cons. intros [Hnotin Hnd].
  rewrite filter_cons. destruct (decide (left_on g = right_on o)) as [Heq|Hne].
  - right. exists o. f_equal.
    apply filter_none. intros o' Ho' Hk.
    apply Hnotin. rewrite <- Heq, Hk. by apply list_elem_of_fmap_2.
  - by apply IH.
Qed.

Lemma merge_left_one_row_per_game games odds_df :
  NoDup (right_on <$> odds_df) ->
  j_game <$> merge_left left_on right_on games odds_df = games.
Proof.
  intros Hnd. unfold merge_left.
  induction games as [|g games IH]; [done|].
  cbn [flat_map]. rewrite fmap_app, IH. clear IH.
  destruct (matching_unique_key g odds_df Hnd) as [->|[o ->]]; done.
Qed.

Lemma merge_inner_one_row_per_matched_game games odds_df :
  NoDup (right_on <$> odds_df) ->
  j_game <$> merge_inner left_on right_on games odds_df
  = filter (fun g => matching left_on right_on g odds_df <> []) games.
Proof.
  intros Hnd. unfold merge_inner.
  induction games as [|g games IH]; [done|].
  cbn [flat_map]. rewrite fmap_app, IH, filter_cons. clear IH.
  destruct (matching_unique_key g odds_df Hnd) as [->|[o ->]]; simpl.
  - by destruct (decide (([] : list odds) <> [])).
  - by destruct (decide ([o] <> [])).
Qed.
End MergeFacts.

Section JoinClaim.
Import Frame Examples.

(** C3, as stated, fails: two odds rows with the key of a game give
    two joined rows for that game, in the V3 (inner) and in the V2
    (left) join; and the V3 join has no row for a game without odds. *)
Lemma join_duplicates_game_rows :
  j_game <$> merge_v3 [home_game] [closing_line; opening_line]
    = [home_game; home_game]
  /\ j_game <$> merge_v2 [home_game] [closing_line; opening_line]
    = [home_game; home_game]
  /\ merge_v3 [home_game] [] = [].
Proof. by vm_compute. Qed.

(** C3, amended: when no two odds rows share a join key, the V2 join
    has exactly one row per game, in the order of the games, and the
    V3 join exactly one row per game that has an odds row with its
    key and none for the other games. *)
Theorem join_one_row_per_game_unique_keys
    (games : list game) (odds_df : list odds) :
  NoDup (odds_key <$> odds_df) ->
  j_game <$> merge_v2 games odds_df = games
  /\ j_game <$> merge_v3 games odds_df
     = filter (fun g => matching game_key_v3 odds_key g odds_df <> []) games.
Proof.
  intros Hnd. split.
  - by apply merge_left_one_row_per_game.
  - by apply merge_inner_one_row_per_matched_game.
Qed.

Lemma join_one_row_per_game_unique_keys_witness :
  j_game <$> merge_v2 [home_game; unlisted_game] [closing_line]
    = [home_game; unlisted_game]
  /\ j_game <$> merge_v3 [home_game; unlisted_game] [closing_line]
     = filter (fun g => matching game_key_v3 odds_key g [closing_line] <> [])
              [home_game; unlisted_game].
Proof.
  apply (join_one_row_per_game_unique_keys
           [home_game; unlisted_game] [closing_line]).
  apply NoDup_singleton.
Defined.
End JoinClaim.

(** ** The time-based split *)

Section SplitFacts.
Import Frame Split.
Local Open Scope Q_scope.

Lemma split_date_nonempty model_data :
  model_data <> [] -> exists cutoff, split_date model_data = Some cutoff.
Proof.
  destruct model_data as [|r model_data]; [done|]. intros _.
  unfold split_date, quantile. rewrite fmap_cons. eauto.
Qed.

(** [Split.sort] sorts. *)
Lemma insert_Permutation d s : Split.insert d s ≡ₚ d :: s.
Proof.
  induction s as [|x s IH]; simpl; [done|].
  destruct (d <=? x)%Z; [done|]. rewrite IH. apply Permutation_swap.
Qed.

Lemma sort_Permutation x : Split.sort x ≡ₚ x.
Proof.
  induction x as [|d x IH]; simpl; [done|].
  by rewrite insert_Permutation, IH.
Qed.

Lemma insert_Sorted d s : Sorted Z.le s -> Sorted Z.le (Split.insert d s).
Proof.
  induction 1 as [|x s Hs IH Hx]; simpl; [by repeat constructor|].
  destruct (Z.leb_spec d x) as [Hle|Hlt].
  - constructor; [by constructor|by constructor].
  - constructor; [done|].
    destruct s as [|y s]; simpl.
    + constructor. lia.
    + destruct (Z.leb_spec d y); constructor; [lia|].
      by inversion Hx.
Qed.

Lemma sort_Sorted x : Sorted Z.le (Split.sort x).
Proof.
  induction x as [|d x IH]; simpl; [constructor|]. by apply insert_Sorted.
Qed.

Lemma sort_StronglySorted x : StronglySorted Z.le (Split.sort x).
Proof. apply Sorted_StronglySorted; [apply _|apply sort_Sorted]. Qed.

(** In a sorted list, the values from position [i] on are at least
    the value at [i], and those up to [i] are at most that value. *)
Lemma sorted_split (s : list Z) (i : nat) :
  StronglySorted Z.le s -> (i < length s)%nat ->
  s = take i s ++ nth i s 0%Z :: drop (S i) s
  /\ Forall (fun d => (d <= nth i s 0)%Z) (take i s)
  /\ Forall (fun d => (nth i s 0 <= d)%Z) (drop (S i) s).
Proof.
  intros Hs Hi.
  destruct (lookup_lt_is_Some_2 s i Hi) as [v Hv].
  assert (nth i s 0%Z = v) as -> by (by rewrite nth_lookup, Hv).
  pose proof (take_drop_middle s i v Hv) as Hmid.
  split; [done|].
  rewrite <- Hmid in Hs.
  apply StronglySorted_app in Hs as (Hcross & _ & Hs2).
  apply StronglySorted_cons in Hs2 as [Hafter _].
  split; [|done].
  apply Forall_forall. intros d Hd. apply Hcross; [done|left].
Qed.

Lemma count_at_most (s : list Z) (i : nat)
    (P : Z -> Prop) `{forall d, Decision (P d)} :
  StronglySorted Z.le s -> (i < length s)%nat ->
  (forall d, (nth i s 0 <= d)%Z -> ~ P d) ->
  (length (filter P s) <= i)%nat.
Proof.
  intros Hs Hi HP.
  destruct (sorted_split s i Hs Hi) as (Hsplit & _ & Hafter).
  rewrite Hsplit, filter_app, length_app.
  rewrite (filter_none P (_ :: _)).
  - pose proof (length_filter P (take i s)) as Hlen.
    rewrite length_take in Hlen. simpl. lia.
  - intros d [->|Hd]%elem_of_cons; [apply HP; lia|].
    apply HP. by apply (proj1 (Forall_forall _ _) Hafter).
Qed.

Lemma count_at_least (s : list Z) (i : nat)
    (P : Z -> Prop) `{forall d, Decision (P d)} :
  StronglySorted Z.le s -> (i < length s)%nat ->
  (forall d, (d <= nth i s 0)%Z -> P d) ->
  (i + 1 <= length (filter P s))%nat.
Proof.
  intros Hs Hi HP.
  destruct (sorted_split s i Hs Hi) as (Hsplit & Hbefore & _).
  rewrite Hsplit, filter_app, length_app.
  rewrite (filter_cons_True P) by (apply HP; lia).
  assert (filter P (take i s) = take i s) as ->.
  { clear Hsplit. induction Hbefore as [|d l Hd _ IH]; [done|].
    rewrite filter_cons_True by by apply HP. by f_equal. }
  rewrite length_take. simpl. lia.
Qed.

(** Counting rows is counting dates, in any order of the dates. *)
Lemma count_rows_as_dates (model_data : list joined) (s : list Z)
    (P : joined -> Prop) `{forall r, Decision (P r)}
    (P' : Z -> Prop) `{forall d, Decision (P' d)} :
  (forall r, P r <-> P' (date (j_game r))) ->
  s ≡ₚ (date ∘ j_game <$> model_data) ->
  length (filter P model_data) = length (filter P' s).
Proof.
  intros HP Hs. rewrite Hs. clear Hs.
  induction model_data as [|r model_data IH]; [done|].
  rewrite fmap_cons. simpl.
  destruct (decide (P r)) as [Hr|Hr].
  - rewrite filter_cons_True by done.
    rewrite (filter_cons_True P') by (by apply HP). simpl. by f_equal.
  - rewrite filter_cons_False by done.
    rewrite (filter_cons_False P') by (by rewrite <- HP). done.
Qed.

(** The positions between which the quantile interpolates, and the
    quantile between the values at these positions. *)
Lemma quantile_between (q : Q) (x : list Z) (c : Q) :
  0 <= q -> q <= 1 ->
  quantile q x = Some c ->
  let n := Z.of_nat (length x) in
  let h := inject_Z (n - 1) * q in
  let lo := Qfloor h in
  let hi := Z.min (lo + 1) (n - 1) in
  let vlo := inject_Z (nth (Z.to_nat lo) (Split.sort x) 0%Z) in
  let vhi := inject_Z (nth (Z.to_nat hi) (Split.sort x) 0%Z) in
  (0 <= lo)%Z /\ (lo <= hi)%Z /\ (hi <= n - 1)%Z
  /\ c = vlo + (vhi - vlo) * (h - inject_Z lo)
  /\ vlo <= c /\ c <= vhi.
Proof.
  intros Hq0 Hq1. unfold quantile.
  destruct x as [|d0 x']; [done|].
  set (x := d0 :: x') in *.
  set (n := Z.of_nat (length x)).
  set (h := inject_Z (n - 1) * q).
  set (lo := Qfloor h).
  set (hi := Z.min (lo + 1) (n - 1)).
  set (vlo := inject_Z (nth (Z.to_nat lo) (Split.sort x) 0%Z)).
  set (vhi := inject_Z (nth (Z.to_nat hi) (Split.sort x) 0%Z)).
  intros Hc.
  assert (c = vlo + (vhi - vlo) * (h - inject_Z lo)) as -> by congruence.
  clear Hc.
  assert (1 <= n)%Z as Hn by (unfold n, x; simpl; lia).
  assert (0 <= inject_Z (n - 1)) as Hn1.
  { change 0 with (inject_Z 0). rewrite <- Zle_Qle. lia. }
  assert (0 <= h) as Hh0 by (unfold h; nra).
  assert (h <= inject_Z (n - 1)) as Hh1 by (unfold h; nra).
  assert (0 <= lo)%Z as Hlo0.
  { change 0%Z with (Qfloor 0). by apply Qfloor_resp_le. }
  assert (lo <= n - 1)%Z as Hlo1.
  { rewrite <- (Qfloor_Z (n - 1)). by apply Qfloor_resp_le. }
  pose proof (Qfloor_le h) as Hf0. pose proof (Qlt_floor h) as Hf1.
  fold lo in Hf0, Hf1. rewrite inject_Z_plus in Hf1.
  change (inject_Z 1) with 1 in Hf1.
  assert (lo <= hi)%Z as Hlohi by (unfold hi; lia).
  assert (hi <= n - 1)%Z as Hhi by (unfold hi; lia).
  split; [done|]. split; [done|]. split; [done|]. split; [reflexivity|].
  assert (vlo <= vhi) as Hv.
  { unfold vlo, vhi. rewrite <- Zle_Qle.
    pose proof (sort_StronglySorted x) as Hs.
    assert (length (Split.sort x) = length x) as Hlen
      by apply Permutation_length, sort_Permutation.
    destruct (sorted_split (Split.sort x) (Z.to_nat lo) Hs) as (Hsplit & _ & Hafter);
      [unfold n in *; lia|].
    destruct (decide (hi = lo)) as [->|Hne]; [lia|].
    apply (proj1 (Forall_forall _ _) Hafter).
    apply list_elem_of_lookup. exists (Z.to_nat hi - S (Z.to_nat lo))%nat.
    rewrite lookup_drop.
    replace (S (Z.to_nat lo) + (Z.to_nat hi - S (Z.to_nat lo)))%nat
      with (Z.to_nat hi) by lia.
    rewrite nth_lookup.
    destruct (lookup_lt_is_Some_2 (Split.sort x) (Z.to_nat hi)) as [v ->];
      [unfold n in *; lia|done]. }
  clear -Hv Hf0 Hf1. clearbody vlo vhi lo h.
  assert (0 <= (vhi - vlo) * (h - inject_Z lo)) by (apply Qmult_le_0_compat; lra).
  assert (0 <= (vhi - vlo) * (1 - (h - inject_Z lo)))
    by (apply Qmult_le_0_compat; lra).
  split; lra.
Qed.

Local Instance Qlt_decision (a b : Q) : Decision (a < b).
Proof.
  destruct (Qlt_le_dec a b); [by left|right; by apply Qle_not_lt].
Defined.

(** C4: the split is by date.  The cutoff is the 0.8 quantile of the
    dates: with the dates in ascending order and [h = 0.8 * (n - 1)],
    it is the value interpolated between the dates at positions
    [floor h] and [floor h + 1]; so at least [floor h + 1] rows are
    dated at or before it and at most [floor h + 1] rows before it.
    The training rows are exactly the rows dated before the cutoff
    and the test rows exactly those dated at or after it; every
    training date precedes every test date, no row is on both sides,
    and the two sides together are all the rows. *)
Theorem train_test_split_is_temporal (model_data : list joined) :
  model_data <> [] ->
  exists cutoff,
    split_date model_data = Some cutoff
    /\ (exists dates : list Z,
          Sorted Z.le dates
          /\ dates ≡ₚ (date ∘ j_game <$> model_data)
          /\ let n := Z.of_nat (length model_data) in
             let h := inject_Z (n - 1) * (8 # 10) in
             let lo := Qfloor h in
             let hi := Z.min (lo + 1) (n - 1) in
             let vlo := inject_Z (nth (Z.to_nat lo) dates 0%Z) in
             let vhi := inject_Z (nth (Z.to_nat hi) dates 0%Z) in
             cutoff == vlo + (vhi - vlo) * (h - inject_Z lo)
             /\ (lo + 1 <=
                 Z.of_nat (length (filter
                   (fun r => Qle_bool (inject_Z (date (j_game r))) cutoff)
                   model_data)))%Z
             /\ (Z.of_nat (length (train_data model_data)) <= hi)%Z)
    /\ (forall r, r ∈ train_data model_data <->
                  r ∈ model_data /\ inject_Z (date (j_game r)) < cutoff)
    /\ (forall r, r ∈ test_data model_data <->
                  r ∈ model_data /\ cutoff <= inject_Z (date (j_game r)))
    /\ (forall a b, a ∈ train_data model_data -> b ∈ test_data model_data ->
                    (date (j_game a) < date (j_game b))%Z)
    /\ (forall r, ~ (r ∈ train_data model_data /\ r ∈ test_data model_data))
    /\ train_data model_data ++ test_data model_data ≡ₚ model_data.
Proof.
  intros Hne. destruct (split_date_nonempty _ Hne) as [cutoff Hc].
  exists cutoff. split; [done|].
  assert (forall r, r ∈ train_data model_data <->
                    r ∈ model_data /\ inject_Z (date (j_game r)) < cutoff) as Htrain.
  { intros r. unfold train_data. rewrite list_elem_of_filter, Hc. simpl. tauto. }
  assert (forall r, r ∈ test_data model_data <->
                    r ∈ model_data /\ cutoff <= inject_Z (date (j_game r))) as Htest.
  { intros r. unfold test_data. rewrite list_elem_of_filter, Hc. simpl. tauto. }
  split.
  { set (x := date ∘ j_game <$> model_data).
    exists (Split.sort x).
    split; [apply sort_Sorted|]. split; [apply sort_Permutation|].
    pose proof Hc as Hq. unfold split_date in Hq. fold x in Hq.
    apply quantile_between in Hq; [|done..].
    assert (length x = length model_data) as Hlen by (unfold x; apply length_fmap).
    rewrite Hlen in Hq. cbv zeta in Hq |- *.
    destruct Hq as (Hlo0 & Hlohi & Hhi & Heq & Hge & Hle).
    pose proof (sort_StronglySorted x) as Hs.
    assert (length (Split.sort x) = length model_data) as Hlens.
    { rewrite <- Hlen. apply Permutation_length, sort_Permutation. }
    split; [by rewrite Heq|]. split.
    - rewrite (count_rows_as_dates model_data (Split.sort x) _
                 (fun d => Qle_bool (inject_Z d) cutoff));
        [|done|apply sort_Permutation].
      pose proof (count_at_least (Split.sort x)
                    (Z.to_nat (Qfloor (inject_Z (Z.of_nat (length model_data) - 1) * (8 # 10))))
                    (fun d => Qle_bool (inject_Z d) cutoff) Hs) as Hcount.
      rewrite Hlens in Hcount.
      specialize (Hcount ltac:(lia)).
      assert (forall d : Z,
        (d <= nth (Z.to_nat (Qfloor (inject_Z (Z.of_nat (length model_data) - 1) * (8 # 10))))
                  (Split.sort x) 0)%Z ->
        Qle_bool (inject_Z d) cutoff) as HP.
      { intros d Hd. apply Is_true_true, Qle_bool_iff.
        rewrite Zle_Qle in Hd. lra. }
      specialize (Hcount HP). lia.
    - unfold train_data. rewrite Hc.
      rewrite (count_rows_as_dates model_data (Split.sort x) _
                 (fun d => inject_Z d < cutoff));
        [|done|apply sort_Permutation].
      pose proof (count_at_most (Split.sort x)
                    (Z.to_nat (Z.min (Qfloor (inject_Z (Z.of_nat (length model_data) - 1) * (8 # 10)) + 1)
                                     (Z.of_nat (length model_data) - 1)))
                    (fun d => inject_Z d < cutoff) Hs) as Hcount.
      rewrite Hlens in Hcount.
      specialize (Hcount ltac:(lia)).
      assert (forall d : Z,
        (nth (Z.to_nat (Z.min (Qfloor (inject_Z (Z.of_nat (length model_data) - 1) * (8 # 10)) + 1)
                              (Z.of_nat (length model_data) - 1)))
             (Split.sort x) 0 <= d)%Z ->
        ~ inject_Z d < cutoff) as HP.
      { intros d Hd. rewrite Zle_Qle in Hd. lra. }
      specialize (Hcount HP). lia. }
  repeat split; try (by apply Htrain); try (by apply Htest).
  - intros a b [_ Ha]%Htrain [_ Hb]%Htest.
    rewrite Zlt_Qlt. lra.
  - intros r [[_ Ha]%Htrain [_ Hb]%Htest]. lra.
  - unfold train_data, test_data. rewrite Hc.
    rewrite <- (filter_app_complement (before (Some cutoff)) model_data) at 3.
    f_equiv. apply reflexive_eq, list_filter_iff. intros r. simpl.
    split; [apply Qle_not_lt | apply Qnot_lt_le].
Qed.

Lemma train_test_split_is_temporal_witness :
  exists cutoff,
    split_date Examples.five_rows = Some cutoff
    /\ (exists dates : list Z,
          Sorted Z.le dates
          /\ dates ≡ₚ (date ∘ j_game <$> Examples.five_rows)
          /\ let n := Z.of_nat (length Examples.five_rows) in
             let h := inject_Z (n - 1) * (8 # 10) in
             let lo := Qfloor h in
             let hi := Z.min (lo + 1) (n - 1) in
             let vlo := inject_Z (nth (Z.to_nat lo) dates 0%Z) in
             let vhi := inject_Z (nth (Z.to_nat hi) dates 0%Z) in
             cutoff == vlo + (vhi - vlo) * (h - inject_Z lo)
             /\ (lo + 1 <=
                 Z.of_nat (length (filter
                   (fun r => Qle_bool (inject_Z (date (j_game r))) cutoff)
                   Examples.five_rows)))%Z
             /\ (Z.of_nat (length (train_data Examples.five_rows)) <= hi)%Z)
    /\ (forall r, r ∈ train_data Examples.five_rows <->
                  r ∈ Examples.five_rows /\ inject_Z (date (j_game r)) < cutoff)
    /\ (forall r, r ∈ test_data Examples.five_rows <->
                  r ∈ Examples.five_rows /\ cutoff <= inject_Z (date (j_game r)))
    /\ (forall a b, a ∈ train_data Examples.five_rows ->
                    b ∈ test_data Examples.five_rows ->
                    (date (j_game a) < date (j_game b))%Z)
    /\ (forall r, ~ (r ∈ train_data Examples.five_rows
                     /\ r ∈ test_data Examples.five_rows))
    /\ train_data Examples.five_rows ++ test_data Examples.five_rows
         ≡ₚ Examples.five_rows.
Proof. apply train_test_split_is_temporal. discriminate. Defined.
End SplitFacts.

(** ** The training run *)

Section RunFacts.
Import Frame Trainer Examples.

(** Below the threshold the run prints the shortfall and fits
    nothing. *)
Lemma run_aborts_below_threshold games_df odds_df :
  (length (engineer_features games_df odds_df) < 1000)%nat ->
  run games_df odds_df
  = [PrintError (length (engineer_features games_df odds_df))].
Proof. intros H%Nat.ltb_lt. unfold run. simpl. by rewrite H. Qed.

(** At the threshold or above, once the global model is trained the
    2025 model is trained on the recent seasons whatever their number
    of rows. *)
Lemma run_trains_both games_df odds_df :
  (1000 <= length (engineer_features games_df odds_df))%nat ->
  Split.train_data (engineer_features games_df odds_df) <> [] ->
  run games_df odds_df
  = train_model (engineer_features games_df odds_df) "global"
      ++ train_2025_model games_df odds_df.
Proof.
  intros H Hrows. unfold run. cbv zeta.
  destruct (Nat.ltb_spec (length (engineer_features games_df odds_df)) 1000);
    [lia|].
  unfold train_model at 1 2. cbv zeta.
  destruct (Split.train_data (engineer_features games_df odds_df)); [done|].
  reflexivity.
Qed.

(** C7 does not hold of the code: with 1010 joined rows of which ten
    are of the seasons 2019-2023, the run passes its only check and
    then fits the scaler and the classifier of the 2025 model on 8
    rows. *)
Theorem run_fits_2025_model_on_small_sample :
  length (engineer_features games_1010 odds_two_seasons) = 1010%nat
  /\ run games_1010 odds_two_seasons
     = [FitScaler "global" 808; FitClassifier "global" 808; Dump "global";
        FitScaler "2025" 8; FitClassifier "2025" 8; Dump "2025"].
Proof. by vm_compute. Qed.
End RunFacts.

(** ** Strings: append, order, prefixes *)

Section StringOrder.
Import Predictor.

Local Ltac str_simpl :=
  repeat (change (EmptyString +:+ ?b) with b
          || change (String ?c ?a +:+ ?b) with (String c (a +:+ b)));
  simpl.

Lemma append_nil_l (b : string) : "" +:+ b = b.
Proof. reflexivity. Qed.

Lemma append_cons c (a b : string) : String c a +:+ b = String c (a +:+ b).
Proof. reflexivity. Qed.

Lemma length_append (a b : string) :
  String.length (a +:+ b) = (String.length a + String.length b)%nat.
Proof. induction a as [|c a IH]; str_simpl; [done|]. by rewrite IH. Qed.

Lemma append_assoc (a b c : string) : (a +:+ b) +:+ c = a +:+ (b +:+ c).
Proof. induction a as [|x a IH]; str_simpl; congruence. Qed.

Lemma append_nil_r (a : string) : a +:+ "" = a.
Proof. induction a as [|x a IH]; str_simpl; [done|]. by rewrite IH. Qed.

Lemma ascii_compare_refl c : Ascii.compare c c = Eq.
Proof. unfold Ascii.compare. apply N.compare_refl. Qed.

Lemma compare_refl (s : string) : String.compare s s = Eq.
Proof.
  induction s as [|c s IH]; simpl; [done|]. by rewrite ascii_compare_refl.
Qed.

Lemma compare_append_l (p x y : string) :
  String.compare (p +:+ x) (p +:+ y) = String.compare x y.
Proof.
  induction p as [|c p IH]; str_simpl; [done|]. by rewrite ascii_compare_refl.
Qed.

(** Blocks of equal length compare first. *)
Lemma compare_append_block (a b x y : string) :
  String.length a = String.length b ->
  String.compare (a +:+ x) (b +:+ y)
  = match String.compare a b with
    | Eq => String.compare x y
    | c => c
    end.
Proof.
  revert b. induction a as [|c a IH]; intros [|d b] Hlen;
    str_simpl; simpl in Hlen; try done.
  destruct (Ascii.compare c d); try done. apply IH. lia.
Qed.

Lemma prefix_append (p x : string) : String.prefix p (p +:+ x) = true.
Proof.
  induction p as [|c p IH]; str_simpl; [by destruct x|].
  by destruct (ascii_dec c c).
Qed.

Lemma prefix_append_l (p x y : string) :
  String.prefix (p +:+ x) (p +:+ y) = String.prefix x y.
Proof.
  induction p as [|c p IH]; str_simpl; [done|].
  by destruct (ascii_dec c c).
Qed.

Lemma is_suffix_append (suf x : string) : is_suffix suf (x +:+ suf) = true.
Proof.
  induction x as [|c x IH]; str_simpl.
  - destruct suf; simpl; [done|]. by rewrite Ascii.eqb_refl, String.eqb_refl.
  - rewrite IH. apply orb_true_r.
Qed.

Lemma prefix_cons a (s1 : string) b (s2 : string) :
  String.prefix (String a s1) (String b s2)
  = if ascii_dec a b then String.prefix s1 s2 else false.
Proof. reflexivity. Qed.

(** A plain name ends where the first underscore stands. *)
Lemma prefix_plain (a b rest : string) :
  plain a = true -> plain b = true ->
  String.prefix (a +:+ "_") (b +:+ "_" +:+ rest) = true -> a = b.
Proof.
  revert b. induction a as [|c a IH]; intros [|d b] Ha Hb;
    rewrite ?append_nil_l, ?append_cons, ?prefix_cons;
    simpl in Ha, Hb.
  - done.
  - destruct (ascii_dec "_" d) as [<-|]; [|done].
    vm_compute in Hb. discriminate.
  - destruct (ascii_dec c "_") as [->|]; [|done].
    vm_compute in Ha. discriminate.
  - apply andb_true_iff in Ha as [_ Ha]. apply andb_true_iff in Hb as [_ Hb].
    destruct (ascii_dec c d) as [->|]; [|done].
    intros H. f_equal. by apply IH.
Qed.
End StringOrder.

(** ** Time stamps *)

Section TimeStamps.
Import Predictor.

Local Ltac str_simpl :=
  repeat (change (EmptyString +:+ ?b) with b
          || change (String ?c ?a +:+ ?b) with (String c (a +:+ b)));
  simpl.

Lemma zero_padded_S w n :
  zero_padded (S w) n = zero_padded w (n / 10) +:+ String (digit (n mod 10)) "".
Proof. reflexivity. Qed.

Lemma length_zero_padded w n : String.length (zero_padded w n) = w.
Proof.
  revert n. induction w as [|w IH]; intros n; simpl; [done|].
  rewrite length_append, IH. simpl. lia.
Qed.

Lemma compare_digit a b :
  (a < 10)%nat -> (b < 10)%nat ->
  Ascii.compare (digit a) (digit b) = Nat.compare a b.
Proof.
  intros Ha Hb.
  do 10 (destruct a as [|a]; [do 10 (destruct b as [|b]; [reflexivity|]); lia|]).
  lia.
Qed.

Lemma compare_by_digits n m :
  Nat.compare n m
  = match Nat.compare (n / 10) (m / 10) with
    | Eq => Nat.compare (n mod 10) (m mod 10)
    | c => c
    end.
Proof.
  pose proof (Nat.div_mod_eq n 10) as Hn. pose proof (Nat.div_mod_eq m 10) as Hm.
  assert (n mod 10 < 10)%nat as Hrn by (apply Nat.mod_upper_bound; lia).
  assert (m mod 10 < 10)%nat as Hrm by (apply Nat.mod_upper_bound; lia).
  revert Hn Hm Hrn Hrm.
  generalize (n / 10)%nat (n mod 10)%nat (m / 10)%nat (m mod 10)%nat.
  intros q1 r1 q2 r2 Hn Hm Hrn Hrm.
  destruct (Nat.compare_spec q1 q2);
    destruct (Nat.compare_spec r1 r2);
    destruct (Nat.compare_spec n m); try reflexivity; exfalso; lia.
Qed.

(** Zero-padded numerals of one width compare as the numbers do. *)
Lemma compare_zero_padded w n m rest1 rest2 :
  (n < 10 ^ w)%nat -> (m < 10 ^ w)%nat ->
  String.compare (zero_padded w n +:+ rest1) (zero_padded w m +:+ rest2)
  = match Nat.compare n m with
    | Eq => String.compare rest1 rest2
    | c => c
    end.
Proof.
  revert n m rest1 rest2. induction w as [|w IH]; intros n m rest1 rest2 Hn Hm.
  - rewrite Nat.pow_0_r in Hn, Hm.
    assert (n = 0%nat) as -> by lia. assert (m = 0%nat) as -> by lia.
    reflexivity.
  - rewrite !zero_padded_S, !append_assoc.
    rewrite Nat.pow_succ_r' in Hn, Hm.
    rewrite IH by (by apply Nat.Div0.div_lt_upper_bound).
    rewrite (compare_by_digits n m).
    destruct (Nat.compare (n / 10) (m / 10)); try done.
    rewrite !append_cons, !append_nil_l.
    change (String.compare (String ?a ?x) (String ?b ?y))
      with (match Ascii.compare a b with
            | Eq => String.compare x y
            | c => c
            end).
    rewrite compare_digit by (apply Nat.mod_upper_bound; lia).
    by destruct (Nat.compare (n mod 10) (m mod 10)).
Qed.

(** The text order of the time stamps is the order of time. *)
Lemma compare_strftime t1 t2 rest1 rest2 :
  valid_datetime t1 -> valid_datetime t2 ->
  String.compare (strftime t1 +:+ rest1) (strftime t2 +:+ rest2)
  = match compare_datetime t1 t2 with
    | Eq => String.compare rest1 rest2
    | c => c
    end.
Proof.
  intros ([_ Hy1] & Hm1 & Hd1 & HH1 & HM1 & HS1)
         ([_ Hy2] & Hm2 & Hd2 & HH2 & HM2 & HS2).
  unfold strftime, compare_datetime, fields. rewrite !append_assoc.
  cbn [compare_fields].
  rewrite compare_zero_padded by done.
  destruct (Nat.compare (year t1) (year t2)); try done.
  rewrite compare_zero_padded by (simpl; lia).
  destruct (Nat.compare (month t1) (month t2)); try done.
  rewrite compare_zero_padded by (simpl; lia).
  destruct (Nat.compare (day t1) (day t2)); try done.
  rewrite (compare_append_l "_").
  rewrite compare_zero_padded by (simpl; lia).
  destruct (Nat.compare (hour t1) (hour t2)); try done.
  rewrite compare_zero_padded by (simpl; lia).
  destruct (Nat.compare (minute t1) (minute t2)); try done.
  rewrite compare_zero_padded by (simpl; lia).
  by destruct (Nat.compare (second t1) (second t2)).
Qed.

Lemma compare_model_path a b :
  family a = family b ->
  valid_datetime (created a) -> valid_datetime (created b) ->
  String.compare (path (model_file a)) (path (model_file b))
  = compare_datetime (created a) (created b).
Proof.
  intros Hf Ha Hb. unfold path, model_file. rewrite Hf.
  rewrite !compare_append_l, compare_strftime by done.
  rewrite compare_refl. by destruct (compare_datetime _ _).
Qed.
End TimeStamps.

(** ** Artifact selection *)

Section Selection.
Import Predictor.

Lemma trained_plain a : trained a -> plain (family a) = true.
Proof. by intros [[-> | ->] _]. Qed.

(** The pattern of a family meets the classifier files of that
    family and no other file. *)
Lemma fnmatch_model_file model_type a :
  plain model_type = true -> plain (family a) = true ->
  fnmatch_star ("nba_model_v3_" +:+ model_type +:+ "_") ".joblib" (model_file a)
  = true <-> family a = model_type.
Proof.
  intros Ht Ha. unfold fnmatch_star, model_file. split.
  - intros [[Hp _]%andb_true_iff _]%andb_true_iff.
    rewrite prefix_append_l in Hp. symmetry. by eapply prefix_plain.
  - intros <-. rewrite !andb_true_iff. repeat split.
    + rewrite prefix_append_l.
      rewrite <- (append_assoc (family a) "_"). apply prefix_append.
    + rewrite <- !append_assoc. apply is_suffix_append.
    + apply Nat.leb_le. rewrite !length_append. simpl. lia.
Qed.

Lemma fnmatch_scaler_file pre suf a :
  fnmatch_star ("nba_model_v3_" +:+ pre) suf (scaler_file a) = false.
Proof. reflexivity. Qed.

Lemma elem_of_files_written store name :
  name ∈ files_written store
  <-> exists a, a ∈ store /\ (name = model_file a \/ name = scaler_file a).
Proof.
  unfold files_written. rewrite list_elem_of_In, in_flat_map.
  split; intros (a & Ha & Hn); exists a.
  - apply list_elem_of_In in Ha. split; [done|].
    destruct Hn as [<-|[<-|[]]]; auto.
  - apply list_elem_of_In in Ha. split; [done|].
    destruct Hn as [->| ->]; simpl; auto.
Qed.

Section Directory.
Variable store : list artifact.
Variable listing : list string.
Hypothesis store_trained : Forall trained store.
Hypothesis listing_store : listing ≡ₚ files_written store.

Lemma elem_of_glob model_type x :
  plain model_type = true ->
  x ∈ glob listing ("nba_model_v3_" +:+ model_type +:+ "_") ".joblib"
  <-> exists a, a ∈ store /\ family a = model_type /\ x = path (model_file a).
Proof.
  intros Ht. unfold glob. rewrite list_elem_of_fmap. split.
  - intros (name & -> & Hin). apply list_elem_of_filter in Hin as [Hm Hin].
    rewrite listing_store in Hin.
    apply elem_of_files_written in Hin as (a & Ha & [-> | ->]).
    + exists a. split; [done|]. split; [|done].
      assert (plain (family a) = true) as Hpa.
      { apply trained_plain. by eapply Forall_forall in store_trained. }
      apply Is_true_true in Hm.
      by apply (proj1 (fnmatch_model_file model_type a Ht Hpa)).
    + by rewrite fnmatch_scaler_file in Hm.
  - intros (a & Ha & Hf & ->). exists (model_file a). split; [done|].
    apply list_elem_of_filter. split.
    + assert (plain (family a) = true) as Hpa.
      { apply trained_plain. by eapply Forall_forall in store_trained. }
      apply Is_true_true.
      by apply (proj2 (fnmatch_model_file model_type a Ht Hpa)).
    + rewrite listing_store. apply elem_of_files_written. eauto.
Qed.

Lemma exists_model_file a :
  a ∈ store -> exists_file listing (path (model_file a)) = true.
Proof.
  intros Ha. unfold exists_file. apply bool_decide_eq_true.
  apply list_elem_of_fmap_2. rewrite listing_store.
  apply elem_of_files_written. eauto.
Qed.

Lemma exists_scaler_file a :
  a ∈ store -> exists_file listing (path (scaler_file a)) = true.
Proof.
  intros Ha. unfold exists_file. apply bool_decide_eq_true.
  apply list_elem_of_fmap_2. rewrite listing_store.
  apply elem_of_files_written. eauto.
Qed.
End Directory.

(** *** [sorted(xs)[-1]] is the greatest element *)

Lemma last_sorted_max (xs : list string) :
  xs <> [] ->
  List.last (sorted xs) "" ∈ xs
  /\ forall x, x ∈ xs -> String.le x (List.last (sorted xs) "").
Proof.
  intros Hne. unfold sorted.
  pose proof (merge_sort_Permutation String.le xs) as Hperm.
  pose proof (StronglySorted_merge_sort String.le xs) as Hsorted.
  assert (merge_sort String.le xs <> []) as Hne'.
  { intros E. rewrite E in Hperm. by apply Permutation_nil_l in Hperm. }
  set (m := List.last (merge_sort String.le xs) "").
  pose proof (app_removelast_last "" Hne') as Hsplit. fold m in Hsplit.
  split.
  - rewrite <- Hperm, Hsplit. set_solver.
  - intros x Hx. rewrite <- Hperm, Hsplit in Hx.
    apply elem_of_app in Hx as [Hx|Hx].
    + rewrite Hsplit in Hsorted.
      eapply StronglySorted_app_1_elem_of; [done..|]. set_solver.
    + apply list_elem_of_singleton in Hx as ->. reflexivity.
Qed.

(** *** [str.replace] on an artifact name *)

Lemma replace_from_0_cons old new c (s : string) :
  replace_from 0 old new (String c s)
  = if String.prefix old (String c s)
    then new +:+ replace_from (String.length old - 1) old new s
    else String c (replace_from 0 old new s).
Proof. reflexivity. Qed.

Lemma replace_from_cons_miss old new c (s : string) :
  String.prefix old (String c s) = false ->
  replace_from 0 old new (String c s) = String c (replace_from 0 old new s).
Proof. intros H. rewrite replace_from_0_cons. by rewrite H. Qed.

Lemma replace_from_avoids old0 old new (a b : string) :
  avoids old0 a = true ->
  replace_from 0 (String old0 old) new (a +:+ b)
  = a +:+ replace_from 0 (String old0 old) new b.
Proof.
  induction a as [|c a IH]; intros Ha; [done|].
  simpl in Ha. apply andb_true_iff in Ha as [Hc Ha].
  rewrite !append_cons, replace_from_cons_miss, IH; [done..|].
  rewrite prefix_cons. destruct (ascii_dec old0 c) as [->|]; [|done].
  by rewrite Ascii.eqb_refl in Hc.
Qed.

Lemma avoids_append c (a b : string) :
  avoids c (a +:+ b) = avoids c a && avoids c b.
Proof.
  induction a as [|d a IH]; [done|].
  rewrite append_cons. simpl. by rewrite IH, andb_assoc.
Qed.

Lemma avoids_zero_padded w n : avoids "n" (zero_padded w n) = true.
Proof.
  revert n. induction w as [|w IH]; intros n; [done|].
  rewrite zero_padded_S, avoids_append, IH.
  assert (n mod 10 < 10)%nat as H by (apply Nat.mod_upper_bound; lia).
  revert H. generalize (n mod 10)%nat. intros d Hd.
  do 10 (destruct d as [|d]; [reflexivity|]). lia.
Qed.

Lemma avoids_strftime t : avoids "n" (strftime t) = true.
Proof.
  unfold strftime.
  rewrite !avoids_append, !avoids_zero_padded. reflexivity.
Qed.

Lemma replace_model_path a :
  family a = "global" \/ family a = "2025" ->
  replace "nba_model_" "scaler_" (path (model_file a)) = path (scaler_file a).
Proof.
  unfold replace, path, model_file, scaler_file, models_dir.
  intros [-> | ->].
  - change (replace_from 0 "nba_model_" "scaler_"
              ("./models/nba_model_v3_global_" +:+ strftime (created a) +:+ ".joblib")
            = "./models/scaler_v3_global_" +:+ strftime (created a) +:+ ".joblib").
    change ("./models/nba_model_v3_global_" +:+ ?x)
      with ("./models/" +:+ String "n" ("ba_model_v3_global_" +:+ x)).
    rewrite replace_from_avoids by reflexivity.
    change (replace_from 0 "nba_model_" "scaler_"
              (String "n" ("ba_model_v3_global_" +:+ ?x)))
      with ("scaler_" +:+ replace_from 0 "nba_model_" "scaler_" ("v3_global_" +:+ x)).
    rewrite <- (append_assoc "v3_global_" (strftime (created a)) ".joblib").
    rewrite replace_from_avoids
      by (by rewrite avoids_append, avoids_strftime).
    by rewrite append_assoc.
  - change (replace_from 0 "nba_model_" "scaler_"
              ("./models/nba_model_v3_2025_" +:+ strftime (created a) +:+ ".joblib")
            = "./models/scaler_v3_2025_" +:+ strftime (created a) +:+ ".joblib").
    change ("./models/nba_model_v3_2025_" +:+ ?x)
      with ("./models/" +:+ String "n" ("ba_model_v3_2025_" +:+ x)).
    rewrite replace_from_avoids by reflexivity.
    change (replace_from 0 "nba_model_" "scaler_"
              (String "n" ("ba_model_v3_2025_" +:+ ?x)))
      with ("scaler_" +:+ replace_from 0 "nba_model_" "scaler_" ("v3_2025_" +:+ x)).
    rewrite <- (append_assoc "v3_2025_" (strftime (created a)) ".joblib").
    rewrite replace_from_avoids
      by (by rewrite avoids_append, avoids_strftime).
    by rewrite append_assoc.
Qed.
End Selection.

Section LatestArtifact.
Import Predictor.

Lemma le_of_compare (x y : string) : String.compare x y <> Gt -> String.le x y.
Proof. unfold String.le, String.leb. by destruct (String.compare x y). Qed.

Lemma compare_of_le (x y : string) : String.le x y -> String.compare x y <> Gt.
Proof. unfold String.le, String.leb. by destruct (String.compare x y). Qed.

Lemma latest_None fam store :
  latest fam store = None <-> forall b, b ∈ store -> family b <> fam.
Proof.
  induction store as [|a store IH]; simpl.
  - split; [|done]. intros _ b Hb. by apply not_elem_of_nil in Hb.
  - destruct (decide (family a = fam)) as [Ha|Ha].
    + split; [done|]. intros H. exfalso. apply (H a); [left|done].
    + rewrite IH. split.
      * intros H b [->|Hb]%elem_of_cons; auto.
      * intros H b Hb. apply H. by right.
Qed.

(** [latest] returns an artifact of the family whose classifier
    path no other one of the family exceeds. *)
Lemma latest_max fam store a :
  Forall trained store ->
  latest fam store = Some a ->
  a ∈ store /\ family a = fam
  /\ forall b, b ∈ store -> family b = fam ->
               String.le (path (model_file b)) (path (model_file a)).
Proof.
  revert a. induction store as [|a0 store IH]; intros a Htr; [done|].
  apply Forall_cons in Htr as [[_ Hv0] Htr]. simpl.
  destruct (decide (family a0 = fam)) as [Hf0|Hf0].
  - destruct (latest fam store) as [b|] eqn:E.
    + destruct (IH b Htr eq_refl) as (Hb & Hfb & Hmax).
      assert (valid_datetime (created b)) as Hvb.
      { eapply Forall_forall in Htr; [|exact Hb]. apply Htr. }
      unfold later_of.
      rewrite <- (compare_model_path a0 b) by congruence.
      destruct (String.compare (path (model_file a0)) (path (model_file b)))
        eqn:Hc; intros [= <-].
      * split; [left|]. split; [done|].
        intros x [->|Hx]%elem_of_cons Hfx; [reflexivity|].
        transitivity (path (model_file b)); [by apply Hmax|].
        apply le_of_compare. rewrite String.compare_antisym, Hc. done.
      * split; [by right|]. split; [done|].
        intros x [->|Hx]%elem_of_cons Hfx; [|by apply Hmax].
        apply le_of_compare. by rewrite Hc.
      * split; [left|]. split; [done|].
        intros x [->|Hx]%elem_of_cons Hfx; [reflexivity|].
        transitivity (path (model_file b)); [by apply Hmax|].
        apply le_of_compare. rewrite String.compare_antisym, Hc. done.
    + intros [= <-]. split; [left|]. split; [done|].
      intros x [->|Hx]%elem_of_cons Hfx; [reflexivity|].
      exfalso. by eapply (proj1 (latest_None fam store) E).
  - intros Ha. destruct (IH a Htr Ha) as (Hin & Hfa & Hmax).
    split; [by right|]. split; [done|].
    intros x [->|Hx]%elem_of_cons Hfx; [done|]. by apply Hmax.
Qed.

(** No artifact of the family is later than the one [latest] returns. *)
Lemma latest_not_earlier fam store a :
  Forall trained store ->
  latest fam store = Some a ->
  a ∈ store /\ family a = fam
  /\ forall b, b ∈ store -> family b = fam ->
               ~ earlier (created a) (created b).
Proof.
  intros Htr Hl. destruct (latest_max fam store a Htr Hl) as (Ha & Hfa & Hmax).
  split; [done|]. split; [done|].
  intros b Hb Hfb. unfold earlier.
  assert (forall c, c ∈ store -> valid_datetime (created c)) as Hv.
  { intros c Hc. eapply Forall_forall in Htr; [|exact Hc]. apply Htr. }
  rewrite <- (compare_model_path a b) by (auto; congruence).
  intros Hlt. apply (compare_of_le _ _ (Hmax b Hb Hfb)).
  by rewrite String.compare_antisym, Hlt.
Qed.

Section Directory.
Variable store : list artifact.
Variable listing : list string.
Hypothesis store_trained : Forall trained store.
Hypothesis listing_store : listing ≡ₚ files_written store.

(** The files [glob] finds for a family, and their greatest. *)
Lemma glob_latest model_type :
  plain model_type = true ->
  match latest model_type store with
  | Some a =>
      glob listing ("nba_model_v3_" +:+ model_type +:+ "_") ".joblib" <> []
      /\ List.last
           (sorted (glob listing ("nba_model_v3_" +:+ model_type +:+ "_") ".joblib"))
           "" = path (model_file a)
  | None => glob listing ("nba_model_v3_" +:+ model_type +:+ "_") ".joblib" = []
  end.
Proof.
  intros Ht.
  pose proof (elem_of_glob store listing store_trained listing_store model_type)
    as Hglob.
  set (files := glob listing ("nba_model_v3_" +:+ model_type +:+ "_") ".joblib")
    in *.
  destruct (latest model_type store) as [a|] eqn:E.
  - destruct (latest_max _ _ _ store_trained E) as (Ha & Hfa & Hmax).
    assert (path (model_file a) ∈ files) as Hin.
    { apply Hglob; [done|]. eauto. }
    assert (files <> []) as Hne.
    { intros E'. rewrite E' in Hin. by apply not_elem_of_nil in Hin. }
    split; [done|].
    destruct (last_sorted_max files Hne) as [Hm Hge].
    apply (proj1 (Hglob _ Ht)) in Hm as (b & Hb & Hfb & Hm).
    apply (anti_symm String.le).
    + rewrite Hm. by apply Hmax.
    + by apply Hge.
  - destruct files as [|x files']; [done|]. exfalso.
    assert (x ∈ x :: files') as Hx by left.
    apply (proj1 (Hglob _ Ht)) in Hx as (b & Hb & Hfb & _).
    by eapply (proj1 (latest_None model_type store) E).
Qed.

Lemma load_latest (files : list string) a :
  a ∈ store ->
  files <> [] ->
  List.last (sorted files) "" = path (model_file a) ->
  match files with
  | [] => FileNotFoundError "No V3 model found"
  | _ =>
      let latest_model := List.last (sorted files) "" in
      let latest_scaler := replace "nba_model_" "scaler_" latest_model in
      if negb (exists_file listing latest_model)
      then FileNotFoundError latest_model
      else if negb (exists_file listing latest_scaler)
      then FileNotFoundError latest_scaler
      else Loaded latest_model latest_scaler
  end = loaded_pair a.
Proof.
  intros Ha Hne Hlast. destruct files as [|x files']; [done|].
  cbv zeta. rewrite Hlast.
  assert (family a = "global" \/ family a = "2025") as Hfam.
  { eapply Forall_forall in store_trained; [|exact Ha]. apply store_trained. }
  rewrite (replace_model_path a Hfam).
  rewrite (exists_model_file store listing listing_store a Ha).
  rewrite (exists_scaler_file store listing listing_store a Ha).
  reflexivity.
Qed.

Lemma load_model_refines model_type :
  plain model_type = true ->
  load_model model_type listing = select_latest model_type store.
Proof.
  intros Ht. unfold load_model, select_latest.
  pose proof (glob_latest model_type Ht) as H1.
  pose proof (glob_latest "global" eq_refl) as H2.
  change ("nba_model_v3_" +:+ "global" +:+ "_") with "nba_model_v3_global_" in H2.
  set (files1 := glob listing ("nba_model_v3_" +:+ model_type +:+ "_") ".joblib")
    in *.
  set (files2 := glob listing "nba_model_v3_global_" ".joblib") in *.
  clearbody files1 files2. cbv zeta.
  destruct (latest model_type store) as [a|] eqn:E1.
  - destruct H1 as [Hne Hlast].
    destruct (latest_max _ _ _ store_trained E1) as (Ha & _).
    assert (match files1 with [] => files2 | _ :: _ => files1 end = files1)
      as -> by (by destruct files1).
    by apply load_latest.
  - rewrite H1.
    destruct (latest "global" store) as [a|] eqn:E2.
    + destruct H2 as [Hne Hlast].
      destruct (latest_max _ _ _ store_trained E2) as (Ha & _).
      by apply load_latest.
    + by rewrite H2.
Qed.
End Directory.

(** C5, as stated, fails: asked for the family ['global'] in a
    directory that holds an artifact pair of the family ['2025']
    only, loading fails although an artifact exists. *)
Lemma load_model_fails_beside_other_family :
  files_written [Examples.artifact_2025] <> []
  /\ load_model "global" (files_written [Examples.artifact_2025])
     = FileNotFoundError "No V3 model found".
Proof. by vm_compute. Qed.

(** C5, amended: for a family name without pattern characters and a
    directory holding the files of the trained artifact pairs, in any
    order, [load_model] returns the pair of the requested family that
    was created last; without any of that family, the pair of the
    family ['global'] created last; and it fails exactly when neither
    the requested family nor ['global'] has an artifact. *)
Theorem load_model_selects_latest
    (store : list artifact) (listing : list string) (model_type : string) :
  Forall trained store ->
  listing ≡ₚ files_written store ->
  plain model_type = true ->
  load_model model_type listing = select_latest model_type store
  /\ (forall a, latest model_type store = Some a ->
        load_model model_type listing = loaded_pair a
        /\ a ∈ store /\ family a = model_type
        /\ forall b, b ∈ store -> family b = model_type ->
                     ~ earlier (created a) (created b))
  /\ (latest model_type store = None ->
      forall a, latest "global" store = Some a ->
        load_model model_type listing = loaded_pair a
        /\ a ∈ store /\ family a = "global"
        /\ forall b, b ∈ store -> family b = "global" ->
                     ~ earlier (created a) (created b))
  /\ (load_model model_type listing = FileNotFoundError "No V3 model found"
      <-> forall a, a ∈ store ->
                    family a <> model_type /\ family a <> "global").
Proof.
  intros Htr Hperm Ht.
  pose proof (load_model_refines store listing Htr Hperm model_type Ht) as Href.
  split; [done|]. rewrite Href. unfold select_latest.
  split; [|split].
  - intros a Ha. rewrite Ha. split; [done|]. by apply latest_not_earlier.
  - intros -> a Ha. rewrite Ha. split; [done|]. by apply latest_not_earlier.
  - destruct (latest model_type store) as [a|] eqn:E1.
    + split; [done|]. intros H. exfalso.
      destruct (latest_max _ _ _ Htr E1) as (Ha & Hfa & _).
      by destruct (H a Ha).
    + destruct (latest "global" store) as [a|] eqn:E2.
      * split; [done|]. intros H. exfalso.
        destruct (latest_max _ _ _ Htr E2) as (Ha & Hfa & _).
        by destruct (H a Ha).
      * split; [|done]. intros _ a Ha. split.
        -- by apply (proj1 (latest_None _ _) E1).
        -- by apply (proj1 (latest_None _ _) E2).
Qed.

(** Three artifacts of one family with time stamps T1 < T2 < T3, and
    one of the other family: the T3 pair is loaded, whatever the
    order of the directory. *)
Lemma load_model_selects_latest_witness :
  load_model "2025" (reverse (files_written Examples.store_t123))
    = select_latest "2025" Examples.store_t123
  /\ (forall a, latest "2025" Examples.store_t123 = Some a ->
        load_model "2025" (reverse (files_written Examples.store_t123))
          = loaded_pair a
        /\ a ∈ Examples.store_t123 /\ family a = "2025"
        /\ forall b, b ∈ Examples.store_t123 -> family b = "2025" ->
                     ~ earlier (created a) (created b))
  /\ (latest "2025" Examples.store_t123 = None ->
      forall a, latest "global" Examples.store_t123 = Some a ->
        load_model "2025" (reverse (files_written Examples.store_t123))
          = loaded_pair a
        /\ a ∈ Examples.store_t123 /\ family a = "global"
        /\ forall b, b ∈ Examples.store_t123 -> family b = "global" ->
                     ~ earlier (created a) (created b))
  /\ (load_model "2025" (reverse (files_written Examples.store_t123))
        = FileNotFoundError "No V3 model found"
      <-> forall a, a ∈ Examples.store_t123 ->
                    family a <> "2025" /\ family a <> "global").
Proof.
  apply load_model_selects_latest.
  - unfold Examples.store_t123.
    repeat match goal with
           | |- Forall _ (_ :: _) => constructor
           | |- Forall _ [] => constructor
           end;
      (split; [first [by left | by right]|]);
      repeat split; apply Nat.leb_le; reflexivity.
  - apply reverse_Permutation.
  - reflexivity.
Defined.
End LatestArtifact.

(** ** The inference service *)

Section ServiceFacts.
Import Service.
Context {Model Scaler : Type}.
Variable transform : Scaler -> list (list Q) -> option (list (list Q)).
Variable predict : Model -> list (list Q) -> option (list Z).
Variable predict_proba : Model -> list (list Q) -> option (list (Q * Q)).
Variable round : Q -> nat -> Q.

Lemma pure_ret {A} (x : A) : pure Model Scaler (ret Model Scaler x).
Proof. by intros st. Qed.

Lemma pure_raise {A} e : pure Model Scaler (@raise Model Scaler A e).
Proof. by intros st. Qed.

Lemma pure_globals : pure Model Scaler (globals Model Scaler).
Proof. by intros st. Qed.

Lemma pure_bind {A B} (m : action Model Scaler A) (k : A -> action Model Scaler B) :
  pure Model Scaler m -> (forall x, pure Model Scaler (k x)) ->
  pure Model Scaler (bind Model Scaler m k).
Proof.
  intros Hm Hk st. unfold bind.
  destruct (Hm st) as [H1 H2].
  destruct (m st) as [[[e|x] st'] log]; simpl in *; subst; [done|].
  destruct (Hk x st) as [H3 H4].
  destruct (k x st) as [[r st''] log']; simpl in *. by subst.
Qed.

Lemma pure_getitem {V} (d : gmap string V) k :
  pure Model Scaler (getitem Model Scaler d k).
Proof. unfold getitem. destruct (d !! k); [apply pure_ret | apply pure_raise]. Qed.

Lemma pure_call {A} (result : option A) :
  pure Model Scaler (call Model Scaler result).
Proof. destruct result; [apply pure_ret | apply pure_raise]. Qed.

Lemma pure_for_each {A B} (f : A -> action Model Scaler B) xs :
  (forall x, pure Model Scaler (f x)) ->
  pure Model Scaler (for_each Model Scaler f xs).
Proof.
  intros Hf. induction xs as [|x xs IH]; simpl; [apply pure_ret|].
  apply pure_bind; [done|]. intros y.
  apply pure_bind; [done|]. intros ys. apply pure_ret.
Qed.

Lemma no_http_ret {A} (x : A) : no_http_error Model Scaler (ret Model Scaler x).
Proof. by intros st code detail. Qed.

Lemma no_http_bind {A B} (m : action Model Scaler A) (k : A -> action Model Scaler B) :
  no_http_error Model Scaler m -> (forall x, no_http_error Model Scaler (k x)) ->
  no_http_error Model Scaler (bind Model Scaler m k).
Proof.
  intros Hm Hk st code detail. unfold bind.
  specialize (Hm st code detail).
  destruct (m st) as [[[e|x] st'] log]; simpl in *; [congruence|].
  specialize (Hk x st' code detail).
  destruct (k x st') as [[r st''] log']. exact Hk.
Qed.

Lemma no_http_getitem {V} (d : gmap string V) k :
  no_http_error Model Scaler (getitem Model Scaler d k).
Proof. unfold getitem. intros st code detail. by destruct (d !! k). Qed.

Lemma no_http_call {A} (result : option A) :
  no_http_error Model Scaler (call Model Scaler result).
Proof. intros st code detail. by destruct result. Qed.

Lemma no_http_for_each {A B} (f : A -> action Model Scaler B) xs :
  (forall x, no_http_error Model Scaler (f x)) ->
  no_http_error Model Scaler (for_each Model Scaler f xs).
Proof.
  intros Hf. induction xs as [|x xs IH]; simpl; [apply no_http_ret|].
  apply no_http_bind; [done|]. intros y.
  apply no_http_bind; [done|]. intros ys. apply no_http_ret.
Qed.

Lemma extract_features_pure (game : gmap string (gmap string Q)) :
  pure Model Scaler
    (bind Model Scaler (getitem Model Scaler game "features")
       (fun fs => for_each Model Scaler (getitem Model Scaler fs) feature_order)).
Proof.
  apply pure_bind; [apply pure_getitem|]. intros fs.
  apply pure_for_each. intros k. apply pure_getitem.
Qed.

Lemma extract_features_no_http (game : gmap string (gmap string Q)) :
  no_http_error Model Scaler
    (bind Model Scaler (getitem Model Scaler game "features")
       (fun fs => for_each Model Scaler (getitem Model Scaler fs) feature_order)).
Proof.
  apply no_http_bind; [apply no_http_getitem|]. intros fs.
  apply no_http_for_each. intros k. apply no_http_getitem.
Qed.

Lemma pure_predict_batch request start stop :
  pure Model Scaler
    (predict_batch Model Scaler transform predict predict_proba round
       request start stop).
Proof.
  unfold predict_batch. apply pure_bind; [apply pure_globals|]. intros g.
  destruct (bool_decide _); [apply pure_raise|].
  apply pure_bind; [apply pure_getitem|]. intros model.
  apply pure_bind; [apply pure_getitem|]. intros scaler.
  apply pure_bind; [apply pure_for_each, extract_features_pure|]. intros X.
  apply pure_bind; [apply pure_call|]. intros X_scaled.
  apply pure_bind; [apply pure_call|]. intros predictions.
  apply pure_bind; [apply pure_call|]. intros probas. apply pure_ret.
Qed.

Lemma pure_predict_single request start stop :
  pure Model Scaler
    (predict_single Model Scaler transform predict predict_proba round
       request start stop).
Proof.
  unfold predict_single. apply pure_bind; [apply pure_globals|]. intros g.
  destruct (bool_decide _); [apply pure_raise|].
  apply pure_bind; [apply pure_getitem|]. intros model.
  apply pure_bind; [apply pure_getitem|]. intros scaler.
  apply pure_bind; [apply pure_call|]. intros X_scaled.
  apply pure_bind; [apply pure_call|]. intros predicted.
  apply pure_bind; [apply pure_call|]. intros probas. apply pure_ret.
Qed.

(** C8: a request for a family that is not loaded is answered by
    [HTTPException 400 "Model ... not found"], with the globals
    unchanged and no artifact read; a request for a loaded family
    raises no [HTTPException]; and no request, of either kind, loads
    an artifact or changes the loaded ones. *)
Theorem unknown_family_is_client_error
    (batch : PredictRequest) (single : SinglePredictRequest)
    (start stop : Q) (st : registry Model Scaler) :
  let run_batch :=
    predict_batch Model Scaler transform predict predict_proba round
      batch start stop in
  let run_single :=
    predict_single Model Scaler transform predict predict_proba round
      single start stop in
  (MODELS _ _ st !! model_type batch = None ->
   run_batch st
   = (inl (HTTPException 400 ("Model " +:+ model_type batch +:+ " not found")),
      st, []))
  /\ (MODELS _ _ st !! s_model_type single = None ->
      run_single st
      = (inl (HTTPException 400 ("Model " +:+ s_model_type single +:+ " not found")),
         st, []))
  /\ (is_Some (MODELS _ _ st !! model_type batch) ->
      forall code detail, (run_batch st).1.1 <> inl (HTTPException code detail))
  /\ (is_Some (MODELS _ _ st !! s_model_type single) ->
      forall code detail, (run_single st).1.1 <> inl (HTTPException code detail))
  /\ ((run_batch st).1.2 = st /\ (run_batch st).2 = [])
  /\ ((run_single st).1.2 = st /\ (run_single st).2 = []).
Proof.
  intros run_batch run_single.
  split; [|split; [|split; [|split; [|split]]]].
  - intros H. unfold run_batch, predict_batch, bind, globals. simpl.
    by rewrite bool_decide_eq_true_2.
  - intros H. unfold run_single, predict_single, bind, globals. simpl.
    by rewrite bool_decide_eq_true_2.
  - intros [model Hm] code detail.
    unfold run_batch, predict_batch.
    unfold bind at 1. unfold globals at 1. cbv beta iota.
    rewrite bool_decide_eq_false_2 by congruence.
    match goal with
    | |- context [match ?m st with _ => _ end] =>
        assert (no_http_error Model Scaler m) as Hno
    end.
    { apply no_http_bind; [apply no_http_getitem|]. intros m0.
      apply no_http_bind; [apply no_http_getitem|]. intros s0.
      apply no_http_bind;
        [apply no_http_for_each, extract_features_no_http|]. intros X.
      apply no_http_bind; [apply no_http_call|]. intros X_scaled.
      apply no_http_bind; [apply no_http_call|]. intros predictions.
      apply no_http_bind; [apply no_http_call|]. intros probas.
      apply no_http_ret. }
    specialize (Hno st code detail).
    match goal with
    | |- context [match ?m st with _ => _ end] =>
        destruct (m st) as [[r st'] log]
    end.
    simpl in *. exact Hno.
  - intros [model Hm] code detail.
    unfold run_single, predict_single.
    unfold bind at 1. unfold globals at 1. cbv beta iota.
    rewrite bool_decide_eq_false_2 by congruence.
    match goal with
    | |- context [match ?m st with _ => _ end] =>
        assert (no_http_error Model Scaler m) as Hno
    end.
    { apply no_http_bind; [apply no_http_getitem|]. intros m0.
      apply no_http_bind; [apply no_http_getitem|]. intros s0.
      apply no_http_bind; [apply no_http_call|]. intros X_scaled.
      apply no_http_bind; [apply no_http_call|]. intros predicted.
      apply no_http_bind; [apply no_http_call|]. intros probas.
      apply no_http_ret. }
    specialize (Hno st code detail).
    match goal with
    | |- context [match ?m st with _ => _ end] =>
        destruct (m st) as [[r st'] log]
    end.
    simpl in *. exact Hno.
  - apply pure_predict_batch.
  - apply pure_predict_single.
Qed.
End ServiceFacts.

(** ** Further properties of the odds conversion *)

Section OddsSides.
Import Odds.
Local Open Scope Q_scope.




End OddsSides.

(** ** Further properties of team resolution and of the join keys *)

Section ResolverMore.
Import Str TeamMapping Frame.

Lemma upper_upper_char c : upper_char (upper_char c) = upper_char c.
Proof. destruct c as [[] [] [] [] [] [] [] []]; vm_compute; reflexivity. Qed.

Lemma upper_idemp s : upper (upper s) = upper s.
Proof. induction s as [|c s IH]; simpl; [done|]. by rewrite upper_upper_char, IH. Qed.

(** Every lower-cased full name of the table is in normal form. *)
Lemma canonical_normal :
  map_Forall (fun _ full => lower (lower full) = lower full
                            /\ strip (lower full) = lower full) TEAM_MAPPING.
Proof. refine (bool_decide_unpack _ _). vm_compute. exact I. Qed.

(** The aliases of the table are upper case and stripped. *)
Lemma alias_normal :
  map_Forall (fun k _ => upper (strip k) = k) TEAM_MAPPING.
Proof. refine (bool_decide_unpack _ _). vm_compute. exact I. Qed.

(** X3: resolution ignores letter case and surrounding white space:
    the lower-cased, the upper-cased and the stripped token resolve as
    the token itself does. *)
Theorem map_team_name_ignores_case_and_space (x : string) :
  map_team_name (lower x) = map_team_name x
  /\ map_team_name (upper x) = map_team_name x
  /\ map_team_name (strip x) = map_team_name x.
Proof.
  rewrite !map_team_name_unfold.
  rewrite !strip_lower, !strip_upper, !strip_idemp.
  by rewrite !upper_lower, !lower_idemp, !lower_upper, upper_idemp.
Qed.

(** X4: a resolved name is in the normal form of the odds side of the
    join: lower-casing or stripping it changes nothing. *)
Theorem map_team_name_normal_form (x : string) :
  lower (map_team_name x) = map_team_name x
  /\ strip (map_team_name x) = map_team_name x.
Proof.
  rewrite map_team_name_unfold.
  destruct (TEAM_MAPPING !! upper (strip x)) as [full|] eqn:E.
  - exact (canonical_normal _ _ E).
  - by rewrite lower_idemp, strip_lower, strip_idemp.
Qed.

(** X5: a game and an odds row that the V2 join pairs are paired by
    the V3 join as well exactly when the odds row names both teams:
    the V2 join also pairs a game whose team has no alias with an
    odds row whose team name is NULL, which the V3 join never does. *)
Theorem v2_match_is_v3_match (g : game) (o : odds) :
  game_key_v2 g = odds_key o ->
  (game_key_v3 g = odds_key o
   <-> is_Some (o_home_team o) /\ is_Some (o_away_team o)).
Proof.
  unfold game_key_v2, game_key_v3, odds_key. intros H.
  apply pair_equal_spec in H as [H Ha].
  apply pair_equal_spec in H as [Hs Hh].
  assert (forall t v, team_map !! t = Some v -> map_team_name t = v) as Hres.
  { intros t v Ht. rewrite team_map_lookup in Ht.
    destruct (TEAM_MAPPING !! t) as [full|] eqn:E; [|done].
    simpl in Ht. injection Ht as <-.
    rewrite map_team_name_unfold, (alias_normal _ _ E). by rewrite E. }
  split.
  - intros H3.
    apply pair_equal_spec in H3 as [H3 Ha3].
    apply pair_equal_spec in H3 as [_ Hh3].
    destruct (o_home_team o), (o_away_team o); by eauto.
  - intros [[h Eh] [a Ea]]. rewrite Eh, Ea in *.
    cbn [fmap option_fmap option_map] in *.
    by rewrite Hs, (Hres _ _ Hh), (Hres _ _ Ha).
Qed.

Lemma v2_match_is_v3_match_witness :
  game_key_v3 Examples.home_game = odds_key Examples.closing_line
  <-> is_Some (o_home_team Examples.closing_line)
      /\ is_Some (o_away_team Examples.closing_line).
Proof. apply v2_match_is_v3_match. by vm_compute. Defined.
End ResolverMore.

(** ** Further properties of the rolling form and of the join *)

Section RollingFraction.
Import Frame.
Local Open Scope Q_scope.


Lemma Qsum_bounds (x : list Q) :
  Forall unit_interval x ->
  0 <= Qsum x /\ Qsum x <= inject_Z (Z.of_nat (length x)).
Proof.
  induction 1 as [|v x [Hv0 Hv1] _ [IH0 IH1]].
  - split; apply Qle_refl.
  - change (Qsum (v :: x)) with (v + Qsum x).
    change (length (v :: x)) with (S (length x)).
    rewrite Nat2Z.inj_succ, <- Z.add_1_r, inject_Z_plus.
    change (inject_Z 1) with 1. split; lra.
Qed.

Lemma mean_bounds (x : list Q) :
  Forall unit_interval x -> x <> [] -> unit_interval (mean x).
Proof.
  intros Hx Hne. destruct (Qsum_bounds x Hx) as [H0 H1].
  assert (0 < inject_Z (Z.of_nat (length x))) as Hlen.
  { change 0 with (inject_Z 0). rewrite <- Zlt_Qlt.
    destruct x; [done|]. simpl. lia. }
  unfold mean. split.
  - apply Qle_shift_div_l; [done|]. lra.
  - apply Qle_shift_div_r; [done|]. lra.
Qed.

Lemma trailing_form_bounds n (prior : list Q) :
  (0 < n)%nat -> Forall unit_interval prior ->
  unit_interval (trailing_form n prior).
Proof.
  intros Hn Hp. destruct prior as [|v prior]; [split; by vm_compute|].
  unfold trailing_form. apply mean_bounds.
  - by apply Forall_drop.
  - intros E. apply (f_equal length) in E.
    rewrite length_drop in E. simpl in E. lia.
Qed.

Lemma length_groupby_transform {R} (by_key : R -> string) col f (df : list R) :
  length (groupby_transform by_key col f df) = length df.
Proof. unfold groupby_transform. by rewrite length_fmap, length_seq. Qed.

(** X6: the rolling-form columns have one value per row, and when the
    [home_win] column holds 0 and 1 only, every value is a fraction
    between 0 and 1. *)
Theorem rolling_form_is_a_fraction (merged : list joined) :
  Forall (fun r => home_win (j_game r) = 0%Z \/ home_win (j_game r) = 1%Z) merged ->
  length (home_last10_wins merged) = length merged
  /\ length (away_last10_wins merged) = length merged
  /\ Forall unit_interval (home_last10_wins merged)
  /\ Forall unit_interval (away_last10_wins merged).
Proof.
  intros Hwin.
  assert (length (home_last10_wins merged) = length merged) as Hlh.
  { unfold home_last10_wins, fillna.
    by rewrite length_fmap, length_groupby_transform. }
  assert (length (away_last10_wins merged) = length merged) as Hla.
  { unfold away_last10_wins, fillna.
    by rewrite length_fmap, length_groupby_transform. }
  split; [done|]. split; [done|].
  split; apply Forall_lookup; intros i v Hv.
  - assert (i < length merged)%nat as Hi.
    { rewrite <- Hlh. by eapply lookup_lt_Some. }
    destruct (lookup_lt_is_Some_2 merged i Hi) as [r Hr].
    destruct (list_elem_of_split_length merged i r Hr) as (pre & post & -> & ->).
    rewrite home_last10_wins_lookup in Hv. injection Hv as <-.
    apply trailing_form_bounds; [lia|].
    unfold prior_home. apply Forall_fmap, Forall_forall.
    intros x Hx. apply list_elem_of_filter in Hx as [_ Hx].
    apply Forall_app in Hwin as [Hwin _].
    eapply Forall_forall in Hwin; [|exact Hx]. unfold home_win_col. simpl.
    destruct Hwin as [-> | ->]; split; by vm_compute.
  - assert (i < length merged)%nat as Hi.
    { rewrite <- Hla. by eapply lookup_lt_Some. }
    destruct (lookup_lt_is_Some_2 merged i Hi) as [r Hr].
    destruct (list_elem_of_split_length merged i r Hr) as (pre & post & -> & ->).
    rewrite away_last10_wins_lookup in Hv. injection Hv as <-.
    apply trailing_form_bounds; [lia|].
    unfold prior_away. apply Forall_fmap, Forall_forall.
    intros x Hx. apply list_elem_of_filter in Hx as [_ Hx].
    apply Forall_app in Hwin as [Hwin _].
    eapply Forall_forall in Hwin; [|exact Hx]. unfold home_win_col. simpl.
    destruct Hwin as [-> | ->]; split; by vm_compute.
Qed.

Lemma rolling_form_is_a_fraction_witness :
  length (home_last10_wins Examples.five_rows) = length Examples.five_rows
  /\ length (away_last10_wins Examples.five_rows) = length Examples.five_rows
  /\ Forall unit_interval (home_last10_wins Examples.five_rows)
  /\ Forall unit_interval (away_last10_wins Examples.five_rows).
Proof.
  apply rolling_form_is_a_fraction.
  refine (bool_decide_unpack _ _). vm_compute. exact I.
Defined.
End RollingFraction.

Section JoinModes.
Import Frame.
Variable left_on : game -> key.
Variable right_on : odds -> key.

Lemma elem_of_merge_inner games odds_df r :
  r ∈ merge_inner left_on right_on games odds_df
  <-> exists g o, g ∈ games /\ o ∈ odds_df /\ left_on g = right_on o
                  /\ r = Joined g (Some o).
Proof.
  unfold merge_inner. rewrite list_elem_of_In, in_flat_map. split.
  - intros (g & Hg & Hr). apply list_elem_of_In in Hg, Hr.
    apply list_elem_of_fmap in Hr as (o & -> & Ho).
    apply list_elem_of_filter in Ho as [Hk Ho]. by exists g, o.
  - intros (g & o & Hg & Ho & Hk & ->). exists g.
    rewrite <- !list_elem_of_In. split; [done|].
    apply (list_elem_of_fmap_2 (fun o => Joined g (Some o))).
    by apply list_elem_of_filter.
Qed.

Lemma elem_of_merge_left games odds_df r :
  r ∈ merge_left left_on right_on games odds_df
  <-> exists g, g ∈ games
        /\ ((matching left_on right_on g odds_df = [] /\ r = Joined g None)
            \/ exists o, o ∈ odds_df /\ left_on g = right_on o
                         /\ r = Joined g (Some o)).
Proof.
  unfold merge_left. rewrite list_elem_of_In, in_flat_map. split.
  - intros (g & Hg & Hr). apply list_elem_of_In in Hg, Hr. exists g.
    split; [done|].
    destruct (matching left_on right_on g odds_df) as [|o ms] eqn:E.
    + left. apply list_elem_of_singleton in Hr. done.
    + right. apply list_elem_of_fmap in Hr as (o' & -> & Ho').
      rewrite <- E in Ho'. apply list_elem_of_filter in Ho' as [Hk Ho'].
      by exists o'.
  - intros (g & Hg & Hr). exists g. rewrite <- !list_elem_of_In.
    split; [done|]. destruct Hr as [[E ->]|(o & Ho & Hk & ->)].
    + rewrite E. by apply list_elem_of_singleton.
    + assert (o ∈ matching left_on right_on g odds_df) as Hm
        by (by apply list_elem_of_filter).
      destruct (matching left_on right_on g odds_df) as [|o' ms] eqn:E.
      * by apply not_elem_of_nil in Hm.
      * by apply (list_elem_of_fmap_2 (fun o => Joined g (Some o))).
Qed.
Lemma merge_left_keeps_games games odds_df g :
  g ∈ games -> g ∈ j_game <$> merge_left left_on right_on games odds_df.
Proof.
  intros Hg. apply list_elem_of_fmap.
  destruct (matching left_on right_on g odds_df) as [|o ms] eqn:E.
  - exists (Joined g None). split; [reflexivity|].
    apply elem_of_merge_left. exists g. split; [assumption|]. left. by split.
  - exists (Joined g (Some o)). split; [reflexivity|].
    assert (o ∈ matching left_on right_on g odds_df) as Ho
      by (rewrite E; left).
    apply list_elem_of_filter in Ho as [Hk Ho].
    apply elem_of_merge_left. exists g. split; [assumption|]. right.
    exists o. repeat split; assumption.
Qed.

Lemma merge_left_null_odds games odds_df r :
  r ∈ merge_left left_on right_on games odds_df -> j_odds r = None ->
  forall o, o ∈ odds_df -> left_on (j_game r) <> right_on o.
Proof.
  intros Hr Hnone o Ho Hk.
  apply elem_of_merge_left in Hr as (g & Hg & [[E ->]|(o' & _ & _ & ->)]);
    [|discriminate Hnone].
  cbn [j_game] in Hk.
  assert (o ∈ matching left_on right_on g odds_df) as Hm.
  { apply list_elem_of_filter. split; assumption. }
  rewrite E in Hm. by apply not_elem_of_nil in Hm.
Qed.
End JoinModes.

Section JoinModesClaim.
Import Frame.

(** X7: the left join of V2 drops no game: every game has a joined
    row, and a row without odds means that no odds row carries the key
    of the game; the inner join of V3 holds exactly the pairs of a game
    and an odds row with equal keys, so none of its rows lacks odds. *)
Theorem join_modes (games : list game) (odds_df : list odds) :
  (forall g, g ∈ games -> g ∈ j_game <$> merge_v2 games odds_df)
  /\ (forall r, r ∈ merge_v2 games odds_df -> j_odds r = None ->
        forall o, o ∈ odds_df -> game_key_v2 (j_game r) <> odds_key o)
  /\ (forall r, r ∈ merge_v3 games odds_df <->
        exists g o, g ∈ games /\ o ∈ odds_df /\ game_key_v3 g = odds_key o
                    /\ r = Joined g (Some o)).
Proof.
  unfold merge_v2, merge_v3. split; [|split].
  - intros g. apply merge_left_keeps_games.
  - intros r. apply merge_left_null_odds.
  - intros r. apply elem_of_merge_inner.
Qed.
End JoinModesClaim.

(** ** Further properties of the training frames and of the split *)

Section MergeFilter.
Import Frame.
Variable left_on : game -> key.
Variable right_on : odds -> key.
Variable P : Z -> Prop.
Context `{forall s, Decision (P s)}.
Hypothesis key_season :
  forall g o, left_on g = right_on o -> season g = o_season o.

Lemma matching_filter_season g odds_df :
  P (season g) ->
  matching left_on right_on g (filter (fun o => P (o_season o)) odds_df)
  = matching left_on right_on g odds_df.
Proof.
  intros Hg. unfold matching.
  induction odds_df as [|o odds_df IH]; [done|].
  rewrite !filter_cons.
  destruct (decide (left_on g = right_on o)) as [Hk|Hk].
  - rewrite decide_True by (rewrite <- (key_season g o Hk); exact Hg).
    rewrite filter_cons, decide_True by exact Hk. by rewrite IH.
  - destruct (decide (P (o_season o))); [|exact IH].
    rewrite filter_cons, decide_False by exact Hk. exact IH.
Qed.

Lemma filter_joined_of_game g (ms : list odds) :
  filter (fun r => P (season (j_game r))) ((fun o => Joined g (Some o)) <$> ms)
  = if decide (P (season g)) then (fun o => Joined g (Some o)) <$> ms else [].
Proof.
  induction ms as [|o ms IH]; [by destruct (decide (P (season g)))|].
  rewrite fmap_cons, filter_cons, IH. cbn [j_game].
  by destruct (decide (P (season g))).
Qed.

Lemma merge_inner_filter_season games odds_df :
  merge_inner left_on right_on
    (filter (fun g => P (season g)) games)
    (filter (fun o => P (o_season o)) odds_df)
  = filter (fun r => P (season (j_game r)))
      (merge_inner left_on right_on games odds_df).
Proof.
  unfold merge_inner. induction games as [|g games IH]; [done|].
  cbn [flat_map]. rewrite filter_app, filter_joined_of_game, filter_cons.
  destruct (decide (P (season g))) as [Hg|Hg].
  - cbn [flat_map]. by rewrite matching_filter_season, IH.
  - exact IH.
Qed.
End MergeFilter.

Section RecentFrame.
Import Frame Trainer.

(** X8: the frame of the 2025 model is the frame of the global model
    restricted to the seasons 2019-2023: merging the recent games with
    the recent odds gives exactly the joined rows of all games and odds
    whose season is recent, in the same order. *)
Theorem recent_frame_is_restriction (games_df : list game) (odds_df : list odds) :
  merge_v3 (filter (fun g => season g ∈ recent_seasons) games_df)
           (filter (fun o => o_season o ∈ recent_seasons) odds_df)
  = filter (fun r => season (j_game r) ∈ recent_seasons)
           (merge_v3 games_df odds_df).
Proof.
  assert (forall g o, game_key_v3 g = odds_key o -> season g = o_season o) as Hkey.
  { unfold game_key_v3, odds_key. intros g o Hk.
    apply pair_equal_spec in Hk as [Hk _].
    by apply pair_equal_spec in Hk as [Hk _]. }
  exact (@merge_inner_filter_season game_key_v3 odds_key
           (fun s => s ∈ recent_seasons)
           (fun s => decide (s ∈ recent_seasons))
           Hkey games_df odds_df).
Qed.
End RecentFrame.

Section QuantileBounds.
Import Frame Split.
Local Open Scope Q_scope.

Lemma nth_sort_elem_of (x : list Z) (i : nat) :
  (i < length x)%nat -> nth i (Split.sort x) 0%Z ∈ x.
Proof.
  intros Hi. rewrite <- (sort_Permutation x) at 2.
  apply list_elem_of_In, nth_In.
  by rewrite (Permutation_length (sort_Permutation x)).
Qed.

(** The quantile is an interpolation between two of the values. *)
Lemma quantile_interpolates (q : Q) (x : list Z) (c : Q) :
  0 <= q -> q <= 1 ->
  quantile q x = Some c ->
  exists a b f, a ∈ x /\ b ∈ x /\ 0 <= f /\ f <= 1
                /\ c = inject_Z a + (inject_Z b - inject_Z a) * f.
Proof.
  intros Hq0 Hq1. unfold quantile.
  destruct x as [|d0 x']; [done|].
  set (x := d0 :: x') in *. intros [= <-].
  set (n := Z.of_nat (length x)).
  assert (1 <= n)%Z as Hn by (unfold n, x; simpl; lia).
  set (h := inject_Z (n - 1) * q).
  assert (0 <= inject_Z (n - 1)) as Hn1.
  { change 0 with (inject_Z 0). rewrite <- Zle_Qle. lia. }
  assert (0 <= h) as Hh0 by (unfold h; nra).
  assert (h <= inject_Z (n - 1)) as Hh1 by (unfold h; nra).
  set (lo := Qfloor h).
  assert (0 <= lo)%Z as Hlo0.
  { change 0%Z with (Qfloor 0). by apply Qfloor_resp_le. }
  assert (lo <= n - 1)%Z as Hlo1.
  { rewrite <- (Qfloor_Z (n - 1)). by apply Qfloor_resp_le. }
  pose proof (Qfloor_le h) as Hf0. pose proof (Qlt_floor h) as Hf1.
  fold lo in Hf0, Hf1. rewrite inject_Z_plus in Hf1.
  change (inject_Z 1) with 1 in Hf1.
  set (hi := Z.min (lo + 1) (n - 1)).
  assert (0 <= hi <= n - 1)%Z as Hhi by (unfold hi; lia).
  exists (nth (Z.to_nat lo) (Split.sort x) 0%Z),
         (nth (Z.to_nat hi) (Split.sort x) 0%Z), (h - inject_Z lo).
  split; [apply nth_sort_elem_of; unfold n in *; lia|].
  split; [apply nth_sort_elem_of; unfold n in *; lia|].
  split; [lra|]. split; [lra|]. reflexivity.
Qed.

Lemma split_date_interpolates model_data cutoff :
  split_date model_data = Some cutoff ->
  exists r1 r2 f, r1 ∈ model_data /\ r2 ∈ model_data /\ 0 <= f /\ f <= 1
    /\ cutoff = inject_Z (date (j_game r1))
                 + (inject_Z (date (j_game r2)) - inject_Z (date (j_game r1))) * f.
Proof.
  unfold split_date. intros Hc.
  apply quantile_interpolates in Hc as (a & b & f & Ha & Hb & Hf0 & Hf1 & ->);
    [|done..].
  apply list_elem_of_fmap in Ha as (r1 & -> & Hr1).
  apply list_elem_of_fmap in Hb as (r2 & -> & Hr2).
  by exists r1, r2, f.
Qed.

Lemma train_test_Permutation model_data cutoff :
  split_date model_data = Some cutoff ->
  train_data model_data ++ test_data model_data ≡ₚ model_data.
Proof.
  intros Hc. unfold train_data, test_data. rewrite Hc.
  rewrite <- (filter_app_complement (before (Some cutoff)) model_data) at 3.
  f_equiv. apply reflexive_eq, list_filter_iff. intros r. simpl.
  split; [apply Qle_not_lt | apply Qnot_lt_le].
Qed.

(** X9: the rows of the latest date are always test rows: the test set
    of a non-empty frame is never empty, and the training set is
    strictly smaller than the frame. *)
Theorem latest_rows_are_test_rows (model_data : list joined) (r : joined) :
  r ∈ model_data ->
  (forall r', r' ∈ model_data -> (date (j_game r') <= date (j_game r))%Z) ->
  r ∈ test_data model_data
  /\ (length (train_data model_data) < length model_data)%nat.
Proof.
  intros Hr Hmax.
  assert (model_data <> []) as Hne.
  { intros ->. by apply not_elem_of_nil in Hr. }
  destruct (split_date_nonempty _ Hne) as [cutoff Hc].
  assert (r ∈ test_data model_data) as Htest.
  { unfold test_data. apply list_elem_of_filter. split; [|done].
    rewrite Hc. simpl.
    destruct (split_date_interpolates _ _ Hc)
      as (r1 & r2 & f & Hr1 & Hr2 & Hf0 & Hf1 & ->).
    pose proof (Hmax r1 Hr1) as H1. pose proof (Hmax r2 Hr2) as H2.
    rewrite Zle_Qle in H1, H2. nra. }
  split; [done|].
  pose proof (Permutation_length (train_test_Permutation _ _ Hc)) as Hlen.
  rewrite length_app in Hlen.
  destruct (test_data model_data); [by apply not_elem_of_nil in Htest|].
  simpl in Hlen. lia.
Qed.

Lemma latest_rows_are_test_rows_witness :
  Joined (Examples.lakers_celtics 2015 0 4) None ∈ test_data Examples.five_rows
  /\ (length (train_data Examples.five_rows) < length Examples.five_rows)%nat.
Proof.
  apply latest_rows_are_test_rows.
  - unfold Examples.five_rows. simpl. set_solver.
  - intros r' Hr'. unfold Examples.five_rows in Hr'. simpl in Hr'.
    repeat (apply elem_of_cons in Hr' as [->|Hr']; [simpl; lia|]).
    by apply not_elem_of_nil in Hr'.
Defined.

Lemma filter_all {A} (P : A -> Prop) `{forall x, Decision (P x)} (l : list A) :
  (forall x, x ∈ l -> P x) -> filter P l = l.
Proof.
  induction l as [|x l IH]; intros Hall; [done|].
  rewrite filter_cons_True by (apply Hall; left).
  f_equal. apply IH. intros y Hy. apply Hall. by right.
Qed.

(** X10: when all rows carry one date, the cutoff is that date: the
    training set is empty and every row is a test row. *)
Theorem single_date_leaves_no_training_rows (model_data : list joined) (d : Z) :
  model_data <> [] ->
  (forall r, r ∈ model_data -> date (j_game r) = d) ->
  (exists cutoff, split_date model_data = Some cutoff /\ cutoff == inject_Z d)
  /\ train_data model_data = []
  /\ test_data model_data = model_data.
Proof.
  intros Hne Hd.
  destruct (split_date_nonempty _ Hne) as [cutoff Hc].
  destruct (split_date_interpolates _ _ Hc)
    as (r1 & r2 & f & Hr1 & Hr2 & Hf0 & Hf1 & Heq).
  rewrite (Hd r1 Hr1), (Hd r2 Hr2) in Heq.
  assert (cutoff == inject_Z d) as Hcd by (rewrite Heq; ring).
  split; [by exists cutoff|]. split.
  - unfold train_data. rewrite Hc. apply filter_none.
    intros r Hr. simpl. rewrite (Hd r Hr), Hcd. apply Qlt_irrefl.
  - unfold test_data. rewrite Hc. apply filter_all.
    intros r Hr. simpl. rewrite (Hd r Hr), Hcd. apply Qle_refl.
Qed.

Lemma single_date_leaves_no_training_rows_witness :
  (exists cutoff, split_date Examples.same_day_rows = Some cutoff
                  /\ cutoff == inject_Z 7)
  /\ train_data Examples.same_day_rows = []
  /\ test_data Examples.same_day_rows = Examples.same_day_rows.
Proof.
  apply single_date_leaves_no_training_rows.
  - discriminate.
  - intros r Hr. unfold Examples.same_day_rows in Hr.
    repeat (apply elem_of_cons in Hr as [->|Hr]; [reflexivity|]).
    by apply not_elem_of_nil in Hr.
Defined.
End QuantileBounds.

(** ** Further properties of artifact selection *)

Section SelectionMore.
Import Predictor.

Lemma glob_Permutation l1 l2 pre suf :
  l1 ≡ₚ l2 -> glob l1 pre suf ≡ₚ glob l2 pre suf.
Proof. intros Hp. unfold glob. by rewrite Hp. Qed.

Lemma sorted_Permutation xs ys : xs ≡ₚ ys -> sorted xs = sorted ys.
Proof.
  intros Hp. unfold sorted.
  apply (StronglySorted_unique String.le);
    [apply StronglySorted_merge_sort; apply _..|].
  by rewrite !merge_sort_Permutation.
Qed.

Lemma exists_file_Permutation l1 l2 p :
  l1 ≡ₚ l2 -> exists_file l1 p = exists_file l2 p.
Proof.
  intros Hp. unfold exists_file. apply bool_decide_ext. by rewrite Hp.
Qed.

(** X11: the outcome of [load_model] does not depend on the order in
    which the directory is listed, whatever files it holds. *)
Theorem load_model_ignores_listing_order
    (model_type : string) (l1 l2 : list string) :
  l1 ≡ₚ l2 -> load_model model_type l1 = load_model model_type l2.
Proof.
  intros Hp. unfold load_model.
  pose proof (glob_Permutation l1 l2
                ("nba_model_v3_" +:+ model_type +:+ "_") ".joblib" Hp) as H1.
  pose proof (glob_Permutation l1 l2 "nba_model_v3_global_" ".joblib" Hp) as H2.
  set (a1 := glob l1 ("nba_model_v3_" +:+ model_type +:+ "_") ".joblib") in *.
  set (a2 := glob l2 ("nba_model_v3_" +:+ model_type +:+ "_") ".joblib") in *.
  set (b1 := glob l1 "nba_model_v3_global_" ".joblib") in *.
  set (b2 := glob l2 "nba_model_v3_global_" ".joblib") in *.
  clearbody a1 a2 b1 b2.
  assert (match a1 with [] => b1 | _ :: _ => a1 end
          ≡ₚ match a2 with [] => b2 | _ :: _ => a2 end) as H3.
  { destruct a1 as [|x a1], a2 as [|y a2]; try done.
    - by apply Permutation_nil_cons in H1.
    - symmetry in H1. by apply Permutation_nil_cons in H1. }
  set (c1 := match a1 with [] => b1 | _ :: _ => a1 end) in *.
  set (c2 := match a2 with [] => b2 | _ :: _ => a2 end) in *.
  clearbody c1 c2. cbv zeta.
  rewrite (sorted_Permutation c1 c2 H3).
  rewrite !(exists_file_Permutation l1 l2) by done.
  destruct c1 as [|x c1], c2 as [|y c2]; try done.
  - by apply Permutation_nil_cons in H3.
  - symmetry in H3. by apply Permutation_nil_cons in H3.
Qed.

Lemma load_model_ignores_listing_order_witness :
  load_model "2025" (files_written Examples.store_t123)
  = load_model "2025" (reverse (files_written Examples.store_t123)).
Proof.
  apply load_model_ignores_listing_order. symmetry. apply reverse_Permutation.
Defined.

Lemma model_path_not_scaler_path a b :
  path (model_file a) <> path (scaler_file b).
Proof. unfold path, model_file, scaler_file, models_dir. discriminate. Qed.

(** X12: a classifier file without its scaler file is not loadable: in
    a directory that holds the classifier of a trained artifact only,
    [load_model] fails on the missing scaler path. *)
Theorem classifier_without_scaler_fails (a : artifact) :
  trained a ->
  load_model (family a) [model_file a] = FileNotFoundError (path (scaler_file a)).
Proof.
  intros Ha. pose proof (trained_plain a Ha) as Hp.
  unfold load_model.
  assert (glob [model_file a] ("nba_model_v3_" +:+ family a +:+ "_") ".joblib"
          = [path (model_file a)]) as ->.
  { unfold glob. rewrite filter_cons_True; [done|].
    apply Is_true_true. by apply (proj2 (fnmatch_model_file (family a) a Hp Hp)). }
  cbv zeta.
  change (List.last (sorted [path (model_file a)]) "") with (path (model_file a)).
  rewrite replace_model_path by apply Ha.
  assert (exists_file [model_file a] (path (model_file a)) = true) as ->.
  { apply bool_decide_eq_true. set_solver. }
  assert (exists_file [model_file a] (path (scaler_file a)) = false) as ->.
  { apply bool_decide_eq_false. rewrite fmap_cons, fmap_nil.
    intros H%list_elem_of_singleton.
    by apply (model_path_not_scaler_path a a). }
  reflexivity.
Qed.

Lemma classifier_without_scaler_fails_witness :
  load_model "2025" [model_file Examples.artifact_2025]
  = FileNotFoundError (path (scaler_file Examples.artifact_2025)).
Proof.
  apply (classifier_without_scaler_fails Examples.artifact_2025).
  split; [by right|]. repeat split; apply Nat.leb_le; reflexivity.
Defined.

Lemma compare_fields_eq x y : compare_fields x y = Eq -> x = y.
Proof.
  revert y. induction x as [|a x IH]; intros [|b y]; simpl; try done.
  destruct (Nat.compare_spec a b) as [->| |]; try done. intros Hxy. f_equal. by apply IH.
Qed.

Lemma artifact_of_stem (pre : string) a b :
  trained a -> trained b ->
  pre +:+ family a +:+ "_" +:+ strftime (created a) +:+ ".joblib"
  = pre +:+ family b +:+ "_" +:+ strftime (created b) +:+ ".joblib" ->
  a = b.
Proof.
  intros Ha Hb H. apply (inj (String.append pre)) in H.
  assert (family a = family b) as Hf.
  { apply (prefix_plain _ _ (strftime (created b) +:+ ".joblib"));
      [by apply trained_plain..|].
    rewrite <- H, <- append_assoc. apply prefix_append. }
  rewrite Hf in H. apply (inj (String.append (family b))) in H.
  apply (inj (String.append "_")) in H.
  assert (compare_datetime (created a) (created b) = Eq) as Hc.
  { pose proof (compare_strftime (created a) (created b) ".joblib" ".joblib"
                  (proj2 Ha) (proj2 Hb)) as Hcmp.
    rewrite H, compare_refl in Hcmp.
    by destruct (compare_datetime (created a) (created b)). }
  apply compare_fields_eq in Hc. unfold fields in Hc.
  destruct a as [fa [? ? ? ? ? ?]], b as [fb [? ? ? ? ? ?]].
  simpl in *. by simplify_eq.
Qed.

(** X13: the artifact files of different trainings never collide: two
    trained artifacts with the same classifier file name, or the same
    scaler file name, are the same artifact (same family, same time to
    the second), and no classifier name is a scaler name. *)
Theorem artifact_file_names_are_distinct (a b : artifact) :
  trained a -> trained b ->
  (model_file a = model_file b -> a = b)
  /\ (scaler_file a = scaler_file b -> a = b)
  /\ model_file a <> scaler_file b.
Proof.
  intros Ha Hb. split; [|split].
  - by apply artifact_of_stem.
  - by apply artifact_of_stem.
  - unfold model_file, scaler_file. discriminate.
Qed.

Lemma artifact_file_names_are_distinct_witness :
  (model_file Examples.artifact_2025 = model_file Examples.artifact_2025 ->
   Examples.artifact_2025 = Examples.artifact_2025)
  /\ (scaler_file Examples.artifact_2025 = scaler_file Examples.artifact_2025 ->
      Examples.artifact_2025 = Examples.artifact_2025)
  /\ model_file Examples.artifact_2025 <> scaler_file Examples.artifact_2025.
Proof.
  apply artifact_file_names_are_distinct;
    (split; [by right|]; repeat split; apply Nat.leb_le; reflexivity).
Defined.
End SelectionMore.

(** ** Start-up of the service *)

Section StartupFacts.
Import Service.
Context {Model Scaler : Type}.
Variable load_classifier : string -> Model.
Variable load_scaler : string -> Scaler.

Lemma newest_first_cons f files :
  newest_first (f :: files) = insert_newest f (newest_first files).
Proof. reflexivity. Qed.

Lemma path_glob_elem_of dir pre suf f :
  f ∈ path_glob dir pre suf
  <-> f ∈ dir /\ Predictor.fnmatch_star pre suf (f_name f) = true.
Proof.
  unfold path_glob. rewrite list_elem_of_filter, Is_true_true. tauto.
Qed.

(** The first file of [newest_first] is a file of the list that no
    other one is newer than. *)
Lemma newest_first_head files m rest :
  newest_first files = m :: rest ->
  m ∈ files /\ forall f, f ∈ files -> (st_mtime f <= st_mtime m)%Q.
Proof.
  revert m rest. induction files as [|f files IH]; intros m rest; [done|].
  rewrite newest_first_cons.
  destruct (newest_first files) as [|g sorted] eqn:E.
  - destruct files as [|f' files'].
    + simpl. intros [= <- <-]. split; [left|].
      intros f' ->%list_elem_of_singleton. apply Qle_refl.
    + exfalso. rewrite newest_first_cons in E.
      destruct (newest_first files') as [|g' ?]; simpl in E; [done|].
      by destruct (Qlt_le_dec (st_mtime f') (st_mtime g')).
  - destruct (IH g sorted eq_refl) as [Hg Hmax]. simpl.
    destruct (Qlt_le_dec (st_mtime f) (st_mtime g)) as [Hlt|Hle];
      intros [= <- <-].
    + split; [by right|]. intros f' [->|Hf']%elem_of_cons; [lra|by apply Hmax].
    + split; [left|]. intros f' [->|Hf']%elem_of_cons; [apply Qle_refl|].
      pose proof (Hmax f' Hf'). lra.
Qed.

Lemma newest_first_nil files : newest_first files = [] <-> files = [].
Proof.
  split; [|by intros ->]. destruct files as [|f files]; [done|].
  rewrite newest_first_cons.
  destruct (newest_first files) as [|g ?]; simpl; [done|].
  by destruct (Qlt_le_dec (st_mtime f) (st_mtime g)).
Qed.

(** What one round of the loop does. *)
Lemma load_family_run dir model_type st :
  load_family Model Scaler load_classifier load_scaler dir model_type st
  = match newest_first
            (path_glob dir ("nba_model_v3_" +:+ model_type +:+ "_") ".joblib"),
          newest_first
            (path_glob dir ("scaler_v3_" +:+ model_type +:+ "_") ".joblib") with
    | m :: _, s :: _ =>
        (inr tt,
         Registry Model Scaler
           (<[model_type := load_classifier (file_path m)]> (MODELS _ _ st))
           (<[model_type := load_scaler (file_path s)]> (SCALERS _ _ st)),
         [JoblibLoad (file_path m); JoblibLoad (file_path s)])
    | _, _ => (inr tt, st, [])
    end.
Proof.
  unfold load_family.
  destruct (newest_first (path_glob dir _ _)) as [|m ?]; [done|].
  destruct (newest_first (path_glob dir _ _)) as [|s ?]; [done|].
  reflexivity.
Qed.

(** One round never fails, keeps the two dictionaries on the same
    keys, and touches the entry of its own family only. *)
Lemma load_family_invariant dir model_type st :
  let out := load_family Model Scaler load_classifier load_scaler
               dir model_type st in
  out.1.1 = inr tt
  /\ (dom (MODELS _ _ st) = dom (SCALERS _ _ st) ->
      dom (MODELS _ _ out.1.2) = dom (SCALERS _ _ out.1.2))
  /\ (forall k, is_Some (MODELS _ _ st !! k) -> is_Some (MODELS _ _ out.1.2 !! k))
  /\ (forall k, k <> model_type ->
        MODELS _ _ out.1.2 !! k = MODELS _ _ st !! k
        /\ SCALERS _ _ out.1.2 !! k = SCALERS _ _ st !! k).
Proof.
  cbv zeta. rewrite load_family_run.
  destruct (newest_first (path_glob dir _ _)) as [|m ?]; [by repeat split|].
  destruct (newest_first (path_glob dir _ _)) as [|s ?]; [by repeat split|].
  simpl. split; [done|]. split; [|split].
  - intros Hdom. by rewrite !dom_insert_L, Hdom.
  - intros k Hk. rewrite lookup_insert. by destruct (decide _).
  - intros k Hk. by rewrite !lookup_insert_ne.
Qed.
Lemma load_family_result dir model_type st :
  let out := load_family Model Scaler load_classifier load_scaler
               dir model_type st in
  let classifiers :=
    path_glob dir ("nba_model_v3_" +:+ model_type +:+ "_") ".joblib" in
  let scalers :=
    path_glob dir ("scaler_v3_" +:+ model_type +:+ "_") ".joblib" in
  (classifiers = [] \/ scalers = [] -> out.1.2 = st)
  /\ (classifiers <> [] -> scalers <> [] ->
      exists m s,
        m ∈ classifiers /\ s ∈ scalers
        /\ (forall f, f ∈ classifiers -> (st_mtime f <= st_mtime m)%Q)
        /\ (forall f, f ∈ scalers -> (st_mtime f <= st_mtime s)%Q)
        /\ MODELS _ _ out.1.2 !! model_type = Some (load_classifier (file_path m))
        /\ SCALERS _ _ out.1.2 !! model_type = Some (load_scaler (file_path s))).
Proof.
  cbv zeta. rewrite load_family_run.
  set (classifiers := path_glob dir ("nba_model_v3_" +:+ model_type +:+ "_") ".joblib").
  set (scalers := path_glob dir ("scaler_v3_" +:+ model_type +:+ "_") ".joblib").
  destruct (newest_first classifiers) as [|m cs] eqn:Ec.
  { apply (proj1 (newest_first_nil _)) in Ec. split; [done|]. intros Hc. by destruct Hc. }
  destruct (newest_first scalers) as [|s ss] eqn:Es.
  { apply (proj1 (newest_first_nil _)) in Es. split; [done|]. intros _ Hs. by destruct Hs. }
  split.
  - intros [E|E]; rewrite E in *; discriminate.
  - intros _ _. exists m, s.
    destruct (newest_first_head _ _ _ Ec) as [Hm Hmmax].
    destruct (newest_first_head _ _ _ Es) as [Hs Hsmax].
    simpl. by rewrite !lookup_insert_eq.
Qed.

Lemma load_models_run dir st :
  load_models Model Scaler load_classifier load_scaler dir st
  = let out1 := load_family Model Scaler load_classifier load_scaler
                  dir "global" st in
    let out2 := load_family Model Scaler load_classifier load_scaler
                  dir "2025" out1.1.2 in
    (inr tt, out2.1.2, out1.2 ++ out2.2).
Proof.
  unfold load_models, bind. cbv zeta.
  destruct (load_family_invariant dir "global" st) as [H1 _].
  destruct (load_family _ _ _ _ dir "global" st) as [[r1 st1] log1].
  simpl in H1. subst r1. simpl.
  destruct (load_family_invariant dir "2025" st1) as [H2 _].
  destruct (load_family _ _ _ _ dir "2025" st1) as [[r2 st2] log2].
  simpl in H2. by subst r2.
Qed.

(** X14: [load_models], every [joblib.load] of which returns, ends
    without an error, never unloads a family, touches the entries of
    ['global'] and ['2025'] only, and keeps [MODELS] and [SCALERS] on
    the same keys: if a family was in one exactly when it was in the
    other, it still is. *)
Theorem load_models_keeps_registry_consistent
    (dir : list file) (st : registry Model Scaler) :
  let out := load_models Model Scaler load_classifier load_scaler dir st in
  out.1.1 = inr tt
  /\ (dom (MODELS _ _ st) = dom (SCALERS _ _ st) ->
      dom (MODELS _ _ out.1.2) = dom (SCALERS _ _ out.1.2))
  /\ (forall k, is_Some (MODELS _ _ st !! k) -> is_Some (MODELS _ _ out.1.2 !! k))
  /\ (forall k, k <> "global" -> k <> "2025" ->
        MODELS _ _ out.1.2 !! k = MODELS _ _ st !! k
        /\ SCALERS _ _ out.1.2 !! k = SCALERS _ _ st !! k).
Proof.
  cbv zeta. rewrite load_models_run. cbv zeta. simpl.
  destruct (load_family_invariant dir "global" st) as (_ & Hd1 & Hk1 & Ho1).
  set (st1 := (load_family _ _ _ _ dir "global" st).1.2) in *.
  destruct (load_family_invariant dir "2025" st1) as (_ & Hd2 & Hk2 & Ho2).
  split; [done|]. split; [|split].
  - intros Hdom. apply Hd2, Hd1, Hdom.
  - intros k Hk. apply Hk2, Hk1, Hk.
  - intros k Hg Hy. destruct (Ho1 k Hg) as [<- <-]. by apply Ho2.
Qed.

(** X15: for each of the two families, [load_models] leaves the entry
    as it was when the directory lacks a classifier file or a scaler
    file of the family; otherwise it loads a classifier file and a
    scaler file of the family that no other file of the same kind is
    newer than. *)
Theorem load_models_loads_newest
    (dir : list file) (st : registry Model Scaler) (model_type : string) :
  model_type = "global" \/ model_type = "2025" ->
  let out := load_models Model Scaler load_classifier load_scaler dir st in
  let classifiers :=
    path_glob dir ("nba_model_v3_" +:+ model_type +:+ "_") ".joblib" in
  let scalers :=
    path_glob dir ("scaler_v3_" +:+ model_type +:+ "_") ".joblib" in
  (classifiers = [] \/ scalers = [] ->
   MODELS _ _ out.1.2 !! model_type = MODELS _ _ st !! model_type
   /\ SCALERS _ _ out.1.2 !! model_type = SCALERS _ _ st !! model_type)
  /\ (classifiers <> [] -> scalers <> [] ->
      exists m s,
        m ∈ classifiers /\ s ∈ scalers
        /\ (forall f, f ∈ classifiers -> (st_mtime f <= st_mtime m)%Q)
        /\ (forall f, f ∈ scalers -> (st_mtime f <= st_mtime s)%Q)
        /\ MODELS _ _ out.1.2 !! model_type = Some (load_classifier (file_path m))
        /\ SCALERS _ _ out.1.2 !! model_type = Some (load_scaler (file_path s))).
Proof.
  intros Hfam. cbv zeta. rewrite load_models_run. cbv zeta. simpl.
  destruct (load_family_invariant dir "global" st) as (_ & _ & _ & Ho1).
  destruct (load_family_result dir "global" st) as [Hn1 Hl1].
  set (st1 := (load_family _ _ _ _ dir "global" st).1.2) in *.
  destruct (load_family_invariant dir "2025" st1) as (_ & _ & _ & Ho2).
  destruct (load_family_result dir "2025" st1) as [Hn2 Hl2].
  set (st2 := (load_family _ _ _ _ dir "2025" st1).1.2) in *.
  destruct Hfam as [-> | ->].
  - destruct (Ho2 "global") as [-> ->]; [done|]. split.
    + intros Hnone. by rewrite (Hn1 Hnone).
    + exact Hl1.
  - split.
    + intros Hnone. rewrite (Hn2 Hnone). by apply Ho1.
    + exact Hl2.
Qed.
End StartupFacts.
Section StartupWitness.
Import Service.

Lemma load_models_loads_newest_witness :
  let out := load_models string string id id Examples.startup_files
               (no_models string string) in
  let classifiers :=
    path_glob Examples.startup_files ("nba_model_v3_" +:+ "2025" +:+ "_") ".joblib" in
  let scalers :=
    path_glob Examples.startup_files ("scaler_v3_" +:+ "2025" +:+ "_") ".joblib" in
  (classifiers = [] \/ scalers = [] ->
   MODELS _ _ out.1.2 !! "2025" = MODELS _ _ (no_models string string) !! "2025"
   /\ SCALERS _ _ out.1.2 !! "2025" = SCALERS _ _ (no_models string string) !! "2025")
  /\ (classifiers <> [] -> scalers <> [] ->
      exists m s,
        m ∈ classifiers /\ s ∈ scalers
        /\ (forall f, f ∈ classifiers -> (st_mtime f <= st_mtime m)%Q)
        /\ (forall f, f ∈ scalers -> (st_mtime f <= st_mtime s)%Q)
        /\ MODELS _ _ out.1.2 !! "2025" = Some (id (file_path m))
        /\ SCALERS _ _ out.1.2 !! "2025" = Some (id (file_path s))).
Proof.
  apply (@load_models_loads_newest string string id id
           Examples.startup_files (no_models string string) "2025").
  by right.
Defined.
End StartupWitness.

(** ** The request handlers on loaded families *)

Section HandlerFacts.
Import Service.
Variable Model Scaler : Type.
Variable transform : Scaler -> list (list Q) -> option (list (list Q)).
Variable predict : Model -> list (list Q) -> option (list Z).
Variable predict_proba : Model -> list (list Q) -> option (list (Q * Q)).
Variable round : Q -> nat -> Q.

(** [[g['features'][f] for f in feature_order]] for one game. *)
Local Abbreviation extract :=
  (fun game : gmap string (gmap string Q) =>
     bind Model Scaler (getitem Model Scaler game "features") (fun fs =>
     for_each Model Scaler (getitem Model Scaler fs) feature_order)).

Local Abbreviation present fs := (fun f : string => bool_decide (is_Some (fs !! f))).

Lemma for_each_cons {A B} (f : A -> action Model Scaler B) x xs :
  for_each Model Scaler f (x :: xs)
  = bind Model Scaler (f x) (fun y =>
    bind Model Scaler (for_each Model Scaler f xs) (fun ys =>
    ret Model Scaler (y :: ys))).
Proof. reflexivity. Qed.

Lemma for_each_getitem_complete (fs : gmap string Q) (names : list string) :
  forallb (present fs) names = true ->
  exists row,
    Forall2 (fun f v => fs !! f = Some v) names row
    /\ forall st, for_each Model Scaler (getitem Model Scaler fs) names st
                  = (inr row, st, []).
Proof.
  induction names as [|f names IH].
  - intros _. exists []. by split; [constructor|].
  - intros H. cbn [forallb] in H. apply andb_prop in H as [Hf Hn].
    apply bool_decide_eq_true in Hf as [v Hv].
    destruct (IH Hn) as (row & Hrow & Hrun).
    exists (v :: row). split; [by constructor|]. intros st.
    rewrite for_each_cons. unfold bind, getitem. rewrite Hv.
    unfold ret. by rewrite Hrun.
Qed.

Lemma for_each_getitem_missing (fs : gmap string Q) before k after :
  Forall (fun f => is_Some (fs !! f)) before ->
  fs !! k = None ->
  forall st, for_each Model Scaler (getitem Model Scaler fs)
               (before ++ k :: after) st
             = (inl (KeyError k), st, []).
Proof.
  intros Hbefore Hk st. induction Hbefore as [|f before [v Hv] _ IH].
  - rewrite app_nil_l, for_each_cons. unfold bind, getitem. by rewrite Hk.
  - rewrite <- app_comm_cons, for_each_cons. unfold bind at 1, getitem at 1.
    rewrite Hv. unfold ret at 1. cbv beta iota.
    unfold bind at 1. by rewrite IH.
Qed.

Lemma first_missing (fs : gmap string Q) (names : list string) :
  forallb (present fs) names = false ->
  exists before k after,
    names = before ++ k :: after
    /\ Forall (fun f => is_Some (fs !! f)) before
    /\ fs !! k = None.
Proof.
  induction names as [|f names IH]; [done|].
  cbn [forallb]. destruct (fs !! f) as [v|] eqn:Hf.
  - rewrite bool_decide_eq_true_2 by (by exists v). rewrite andb_true_l.
    intros H. destruct (IH H) as (before & k & after & -> & Hb & Hk).
    exists (f :: before), k, after. split; [done|]. split; [|done].
    constructor; [by exists v|done].
  - intros _. by exists [], f, names.
Qed.

Lemma extract_Some (g : gmap string (gmap string Q)) fs st :
  g !! "features" = Some fs ->
  extract g st = for_each Model Scaler (getitem Model Scaler fs) feature_order st.
Proof.
  intros Hfs. unfold bind at 1, getitem at 1. rewrite Hfs. unfold ret at 1.
  cbv beta iota.
  by destruct (for_each Model Scaler (getitem Model Scaler fs) feature_order st)
    as [[r st''] log].
Qed.

Lemma extract_None (g : gmap string (gmap string Q)) st :
  g !! "features" = None ->
  extract g st = (inl (KeyError "features"), st, []).
Proof. intros Hfs. unfold bind at 1, getitem at 1. by rewrite Hfs. Qed.

Lemma extract_complete (games : list (gmap string (gmap string Q))) :
  forallb complete_game games = true ->
  exists X,
    Forall2 (fun g row =>
               exists fs, g !! "features" = Some fs
                          /\ Forall2 (fun f v => fs !! f = Some v)
                                     feature_order row) games X
    /\ forall st, for_each Model Scaler extract games st = (inr X, st, []).
Proof.
  induction games as [|g games IH].
  - intros _. exists []. by split; [constructor|].
  - intros H. cbn [forallb] in H. apply andb_prop in H as [Hg Hn].
    unfold complete_game in Hg.
    destruct (g !! "features") as [fs|] eqn:Hfs; [|done].
    destruct (for_each_getitem_complete fs _ Hg) as (row & Hrow & Hrun).
    destruct (IH Hn) as (X & HX & HXrun).
    exists (row :: X). split.
    + constructor; [by exists fs|done].
    + intros st. rewrite for_each_cons.
      unfold bind at 1. rewrite (extract_Some g fs st Hfs), Hrun.
      unfold bind at 1. by rewrite HXrun.
Qed.

Lemma extract_incomplete pre (g : gmap string (gmap string Q)) post :
  forallb complete_game pre = true ->
  complete_game g = false ->
  exists k,
    match g !! "features" with
    | None => k = "features"
    | Some fs =>
        exists before after,
          feature_order = before ++ k :: after
          /\ Forall (fun f => is_Some (fs !! f)) before
          /\ fs !! k = None
    end
    /\ forall st, for_each Model Scaler extract (pre ++ g :: post) st
                  = (inl (KeyError k), st, []).
Proof.
  intros Hpre Hg.
  assert (exists k,
    match g !! "features" with
    | None => k = "features"
    | Some fs =>
        exists before after,
          feature_order = before ++ k :: after
          /\ Forall (fun f => is_Some (fs !! f)) before
          /\ fs !! k = None
    end
    /\ forall st, extract g st = (inl (KeyError k), st, [])) as (k & Hspec & Hrun).
  { unfold complete_game in Hg.
    destruct (g !! "features") as [fs|] eqn:Hfs.
    - destruct (first_missing fs _ Hg) as (before & k & after & Hsplit & Hb & Hk).
      exists k. split; [by exists before, after|]. intros st.
      rewrite (extract_Some g fs st Hfs), Hsplit.
      by apply for_each_getitem_missing.
    - exists "features". split; [done|]. intros st. by apply extract_None. }
  exists k. split; [done|]. intros st.
  induction pre as [|p pre IH].
  - rewrite app_nil_l, for_each_cons. unfold bind at 1. by rewrite Hrun.
  - cbn [forallb] in Hpre. apply andb_prop in Hpre as [Hp Hpre].
    destruct (extract_complete [p]) as (X & HX & HXrun).
    { cbn [forallb]. by rewrite Hp. }
    rewrite <- app_comm_cons, for_each_cons.
    specialize (HXrun st). rewrite for_each_cons in HXrun.
    unfold bind at 1 in HXrun. unfold bind at 1.
    destruct (extract p st) as [[[e|row] st'] log]; [done|].
    cbn [for_each] in HXrun. unfold bind, ret in HXrun. simpl in HXrun.
    injection HXrun as _ -> Hlog.
    rewrite app_nil_r in Hlog. subst log.
    unfold bind at 1. by rewrite (IH Hpre).
Qed.

(** What the scaler and the classifier make of the feature matrix:
    the fields of the response, or the exception of the first call
    that raises. *)
Local Abbreviation scored request start stop model scaler X :=
  (match transform scaler X with
   | None => inl LibraryError
   | Some X_scaled =>
       match predict model X_scaled with
       | None => inl LibraryError
       | Some predictions =>
           match predict_proba model X_scaled with
           | None => inl LibraryError
           | Some probas =>
               inr {| r_model_type := model_type request;
                      predictions := predictions;
                      probabilities := snd <$> probas;
                      confidence := confidence_of <$> (snd <$> probas);
                      latency_ms := round ((stop - start) * 1000)%Q 2 |}
           end
       end
   end).

Lemma predict_batch_loaded request start stop st model scaler :
  MODELS _ _ st !! model_type request = Some model ->
  SCALERS _ _ st !! model_type request = Some scaler ->
  predict_batch Model Scaler transform predict predict_proba round
    request start stop st
  = match for_each Model Scaler extract (games request) st with
    | (inl e, st', log) => (inl e, st', log)
    | (inr X, st', log) => (scored request start stop model scaler X, st', log)
    end.
Proof.
  intros Hm Hs. unfold predict_batch.
  unfold bind at 1. unfold globals at 1. cbv beta iota.
  rewrite bool_decide_eq_false_2 by congruence.
  unfold bind at 1. unfold getitem at 1. rewrite Hm. unfold ret at 1.
  cbv beta iota.
  unfold bind at 1. unfold getitem at 1. rewrite Hs. unfold ret at 1.
  cbv beta iota.
  unfold bind at 1.
  destruct (for_each Model Scaler extract (games request) st)
    as [[[e|X] st'] log]; [done|].
  unfold bind, call, ret, raise.
  destruct (transform scaler X) as [X_scaled|];
    [|by rewrite !app_nil_l, app_nil_r].
  destruct (predict model X_scaled) as [predictions|];
    [|by rewrite !app_nil_l, !app_nil_r].
  destruct (predict_proba model X_scaled) as [probas|];
    by rewrite !app_nil_l, !app_nil_r.
Qed.

(** X16: on a loaded family and a request whose games all carry the
    eleven features, [predict_batch] builds one feature row per game,
    read in the order of [feature_order], and its outcome is what the
    family's scaler and classifier make of that matrix: the response
    built from their results when [transform], [predict] and
    [predict_proba] return, and their exception as soon as one of
    them raises (as [transform] does on an empty batch).  The globals
    stay as they are and no artifact is read. *)
Theorem predict_batch_scores_every_game
    (request : PredictRequest) (start stop : Q)
    (st : registry Model Scaler) (model : Model) (scaler : Scaler) :
  MODELS _ _ st !! model_type request = Some model ->
  SCALERS _ _ st !! model_type request = Some scaler ->
  forallb complete_game (games request) = true ->
  exists X,
    Forall2 (fun g row =>
               exists fs, g !! "features" = Some fs
                          /\ Forall2 (fun f v => fs !! f = Some v)
                                     feature_order row)
            (games request) X
    /\ predict_batch Model Scaler transform predict predict_proba round
         request start stop st
       = (match transform scaler X with
          | None => inl LibraryError
          | Some X_scaled =>
              match predict model X_scaled with
              | None => inl LibraryError
              | Some predictions =>
                  match predict_proba model X_scaled with
                  | None => inl LibraryError
                  | Some probas =>
                      inr {| r_model_type := model_type request;
                             predictions := predictions;
                             probabilities := snd <$> probas;
                             confidence := confidence_of <$> (snd <$> probas);
                             latency_ms :=
                               round ((stop - start) * 1000)%Q 2 |}
                  end
              end
          end, st, []).
Proof.
  intros Hm Hs Hgames.
  destruct (extract_complete _ Hgames) as (X & HX & Hrun).
  exists X. split; [done|].
  rewrite (predict_batch_loaded _ _ _ _ _ _ Hm Hs). by rewrite Hrun.
Qed.

(** X17: a game that lacks an entry stops [predict_batch] with a
    [KeyError], not with an [HTTPException]: the key is ['features']
    when the first incomplete game has no feature dict, and otherwise
    the first name of [feature_order] that its feature dict lacks. *)
Theorem predict_batch_incomplete_game_is_key_error
    (request : PredictRequest) (start stop : Q)
    (st : registry Model Scaler) (model : Model) (scaler : Scaler)
    (pre post : list (gmap string (gmap string Q)))
    (g : gmap string (gmap string Q)) :
  MODELS _ _ st !! model_type request = Some model ->
  SCALERS _ _ st !! model_type request = Some scaler ->
  games request = pre ++ g :: post ->
  forallb complete_game pre = true ->
  complete_game g = false ->
  exists k,
    match g !! "features" with
    | None => k = "features"
    | Some fs =>
        exists before after,
          feature_order = before ++ k :: after
          /\ Forall (fun f => is_Some (fs !! f)) before
          /\ fs !! k = None
    end
    /\ predict_batch Model Scaler transform predict predict_proba round
         request start stop st
       = (inl (KeyError k), st, []).
Proof.
  intros Hm Hs Hgames Hpre Hg.
  destruct (extract_incomplete pre g post Hpre Hg) as (k & Hspec & Hrun).
  exists k. split; [done|].
  rewrite (predict_batch_loaded _ _ _ _ _ _ Hm Hs), Hgames. by rewrite Hrun.
Qed.

(** X18: the confidence [abs(p - 0.5) * 2] of a probability lies
    between 0 and 1, is 0 exactly at [p = 1/2], is 1 at [p = 0] and
    at [p = 1], and grows with the distance of [p] from 1/2. *)
Theorem confidence_of_probability (p : Q) :
  (0 <= p)%Q -> (p <= 1)%Q ->
  (0 <= confidence_of p)%Q /\ (confidence_of p <= 1)%Q
  /\ ((confidence_of p == 0)%Q <-> (p == 1 # 2)%Q)
  /\ ((p == 0)%Q \/ (p == 1)%Q -> (confidence_of p == 1)%Q)
  /\ (forall q, (Qabs (p - (1 # 2)) <= Qabs (q - (1 # 2)))%Q ->
                (confidence_of p <= confidence_of q)%Q).
Proof.
  intros H0 H1. unfold confidence_of.
  pose proof (Qabs_nonneg (p - (1 # 2))) as Hpos.
  split; [lra|]. split; [|split; [|split]].
  - apply (Qabs_case (p - (1 # 2))); intros; lra.
  - split.
    + apply (Qabs_case (p - (1 # 2))); intros; lra.
    + intros ->. reflexivity.
  - intros [-> | ->]; reflexivity.
  - intros q Hq. lra.
Qed.
End HandlerFacts.

Section HandlerWitness.
Import Service.

Local Abbreviation sample_registry :=
  (Registry unit unit {[ "2025" := tt ]} {[ "2025" := tt ]}).

Lemma predict_batch_scores_every_game_witness :
  exists X,
    Forall2 (fun g row =>
               exists fs, g !! "features" = Some fs
                          /\ Forall2 (fun f v => fs !! f = Some v)
                                     feature_order row)
            [Examples.full_game] X
    /\ predict_batch unit unit (fun _ X => Some X)
         (fun _ X => Some ((fun _ => 1%Z) <$> X))
         (fun _ X => Some ((fun _ => (0, 1)%Q) <$> X)) (fun q _ => q)
         {| model_type := "2025"; games := [Examples.full_game] |} 0 1
         sample_registry
       = (inr {| r_model_type := "2025";
                 predictions := (fun _ => 1%Z) <$> X;
                 probabilities := snd <$> ((fun _ => (0, 1)%Q) <$> X);
                 confidence :=
                   confidence_of <$> (snd <$> ((fun _ => (0, 1)%Q) <$> X));
                 latency_ms := ((1 - 0) * 1000)%Q |},
          sample_registry, []).
Proof.
  apply (predict_batch_scores_every_game unit unit
           (fun _ X => Some X) (fun _ X => Some ((fun _ => 1%Z) <$> X))
           (fun _ X => Some ((fun _ => (0, 1)%Q) <$> X)) (fun q _ => q)
           {| model_type := "2025"; games := [Examples.full_game] |} 0 1
           sample_registry tt tt).
  - reflexivity.
  - reflexivity.
  - vm_compute. reflexivity.
Defined.

Lemma predict_batch_incomplete_game_is_key_error_witness :
  exists k,
    match Examples.short_game !! "features" with
    | None => k = "features"
    | Some fs =>
        exists before after,
          feature_order = before ++ k :: after
          /\ Forall (fun f => is_Some (fs !! f)) before
          /\ fs !! k = None
    end
    /\ predict_batch unit unit (fun _ X => Some X)
         (fun _ X => Some ((fun _ => 1%Z) <$> X))
         (fun _ X => Some ((fun _ => (0, 1)%Q) <$> X)) (fun q _ => q)
         {| model_type := "2025";
            games := [Examples.full_game; Examples.short_game;
                      Examples.full_game] |} 0 1
         sample_registry
       = (inl (KeyError k), sample_registry, []).
Proof.
  apply (predict_batch_incomplete_game_is_key_error unit unit
           (fun _ X => Some X) (fun _ X => Some ((fun _ => 1%Z) <$> X))
           (fun _ X => Some ((fun _ => (0, 1)%Q) <$> X)) (fun q _ => q)
           {| model_type := "2025";
              games := [Examples.full_game; Examples.short_game;
                        Examples.full_game] |} 0 1
           sample_registry tt tt
           [Examples.full_game] [Examples.full_game] Examples.short_game).
  - reflexivity.
  - reflexivity.
  - reflexivity.
  - vm_compute. reflexivity.
  - vm_compute. reflexivity.
Defined.

Lemma confidence_of_probability_witness :
  (0 <= confidence_of (3 # 4))%Q /\ (confidence_of (3 # 4) <= 1)%Q
  /\ ((confidence_of (3 # 4) == 0)%Q <-> ((3 # 4) == 1 # 2)%Q)
  /\ (((3 # 4) == 0)%Q \/ ((3 # 4) == 1)%Q -> (confidence_of (3 # 4) == 1)%Q)
  /\ (forall q, (Qabs ((3 # 4) - (1 # 2)) <= Qabs (q - (1 # 2)))%Q ->
                (confidence_of (3 # 4) <= confidence_of q)%Q).
Proof.
  apply (confidence_of_probability (3 # 4)); by vm_compute.
Defined.
End HandlerWitness.

(** ** Start-up followed by a request *)

Section StartupThenRequest.
Import Service.
Variable Model Scaler : Type.
Variable load_classifier : string -> Model.
Variable load_scaler : string -> Scaler.
Variable transform : Scaler -> list (list Q) -> option (list (list Q)).
Variable predict : Model -> list (list Q) -> option (list Z).
Variable predict_proba : Model -> list (list Q) -> option (list (Q * Q)).
Variable round : Q -> nat -> Q.

(** X19: after [load_models] has run on the empty registry, a batch
    request is refused with [HTTPException 400] unless its family is
    ['global'] or ['2025'] and the models directory holds both a
    classifier file and a scaler file of that family; in that case a
    request whose games are complete is neither refused nor stopped
    by a missing scaler or feature: it is answered, unless a
    scikit-learn call raises. *)
Theorem startup_then_predict_batch
    (dir : list file) (request : PredictRequest) (start stop : Q) :
  let st :=
    (load_models Model Scaler load_classifier load_scaler dir
       (no_models Model Scaler)).1.2 in
  let family := model_type request in
  let loadable :=
    (family = "global" \/ family = "2025")
    /\ path_glob dir ("nba_model_v3_" +:+ family +:+ "_") ".joblib" <> []
    /\ path_glob dir ("scaler_v3_" +:+ family +:+ "_") ".joblib" <> [] in
  (~ loadable ->
   predict_batch Model Scaler transform predict predict_proba round
     request start stop st
   = (inl (HTTPException 400 ("Model " +:+ family +:+ " not found")), st, []))
  /\ (loadable ->
      forallb complete_game (games request) = true ->
      (exists response,
         predict_batch Model Scaler transform predict predict_proba round
           request start stop st
         = (inr response, st, []))
      \/ predict_batch Model Scaler transform predict predict_proba round
           request start stop st
         = (inl LibraryError, st, [])).
Proof.
  cbv zeta. rewrite load_models_run. cbv zeta. cbn [fst snd].
  set (family := model_type request).
  set (st0 := no_models Model Scaler).
  destruct (load_family_invariant load_classifier load_scaler dir "global" st0)
    as (_ & _ & _ & Ho1).
  destruct (load_family_result load_classifier load_scaler dir "global" st0)
    as [Hn1 Hl1].
  set (st1 := (load_family _ _ _ _ dir "global" st0).1.2) in *.
  destruct (load_family_invariant load_classifier load_scaler dir "2025" st1)
    as (_ & _ & _ & Ho2).
  destruct (load_family_result load_classifier load_scaler dir "2025" st1)
    as [Hn2 Hl2].
  set (st2 := (load_family _ _ _ _ dir "2025" st1).1.2) in *.
  split.
  - intros Hnot.
    assert (MODELS _ _ st2 !! family = None) as Hnone.
    { destruct (decide (family = "2025")) as [E|Hy].
      - rewrite E in *.
        destruct (path_glob dir ("nba_model_v3_" +:+ "2025" +:+ "_") ".joblib")
          as [|m ms] eqn:Ec.
        { rewrite Hn2 by by left. by destruct (Ho1 "2025") as [-> _]. }
        destruct (path_glob dir ("scaler_v3_" +:+ "2025" +:+ "_") ".joblib")
          as [|s ss] eqn:Es.
        { rewrite Hn2 by by right. by destruct (Ho1 "2025") as [-> _]. }
        destruct Hnot. split; [by right|]. by split.
      - destruct (Ho2 family Hy) as [-> _].
        destruct (decide (family = "global")) as [E|Hg].
        + rewrite E in *.
          destruct (path_glob dir ("nba_model_v3_" +:+ "global" +:+ "_") ".joblib")
            as [|m ms] eqn:Ec.
          { by rewrite Hn1 by by left. }
          destruct (path_glob dir ("scaler_v3_" +:+ "global" +:+ "_") ".joblib")
            as [|s ss] eqn:Es.
          { by rewrite Hn1 by by right. }
          destruct Hnot. split; [by left|]. by split.
        + by destruct (Ho1 family Hg) as [-> _]. }
    unfold predict_batch, bind, globals. cbv beta iota.
    by rewrite bool_decide_eq_true_2.
  - intros (Hfam & Hc & Hs) Hgames.
    assert (exists model scaler,
              MODELS _ _ st2 !! family = Some model
              /\ SCALERS _ _ st2 !! family = Some scaler)
      as (model & scaler & Hm & Hsc).
    { destruct Hfam as [E|E]; rewrite E in *.
      - destruct (Ho2 "global") as [-> ->]; [done|].
        destruct (Hl1 Hc Hs) as (m & s & _ & _ & _ & _ & Hm & Hsc). eauto.
      - destruct (Hl2 Hc Hs) as (m & s & _ & _ & _ & _ & Hm & Hsc). eauto. }
    destruct (extract_complete Model Scaler _ Hgames) as (X & _ & Hrun).
    rewrite (predict_batch_loaded Model Scaler transform predict predict_proba
               round request start stop st2 model scaler Hm Hsc), Hrun.
    destruct (transform scaler X) as [X_scaled|]; [|by right].
    destruct (predict model X_scaled) as [predictions|]; [|by right].
    destruct (predict_proba model X_scaled) as [probas|]; [|by right].
    left. by eexists.
Qed.
End StartupThenRequest.

(** ** The feature columns *)

Section FeatureColumns.
Import Frame.
Local Open Scope Q_scope.

Lemma insert_by_date_Permutation (r : joined) (sorted : list joined) :
  insert_by_date r sorted ≡ₚ r :: sorted.
Proof.
  induction sorted as [|x sorted IH]; simpl; [done|].
  destruct (date (j_game r) <=? date (j_game x))%Z; [done|].
  rewrite IH. apply Permutation_swap.
Qed.

Lemma sort_values_date_Permutation (df : list joined) :
  sort_values_date df ≡ₚ df.
Proof.
  induction df as [|r df IH]; [done|].
  unfold sort_values_date. cbn [foldr].
  rewrite insert_by_date_Permutation. by constructor.
Qed.

Lemma train_2025_model_frame games_df odds_df :
  Trainer.train_2025_model games_df odds_df
  = Trainer.train_model (Trainer.recent_frame games_df odds_df) "2025".
Proof. reflexivity. Qed.

Lemma recent_frame_seasons games_df odds_df r :
  r ∈ Trainer.recent_frame games_df odds_df ->
  season (j_game r) ∈ Trainer.recent_seasons.
Proof.
  unfold Trainer.recent_frame. cbv zeta.
  rewrite sort_values_date_Permutation. unfold merge_v3.
  intros (g & o & Hg & _ & _ & ->)%elem_of_merge_inner.
  by apply list_elem_of_filter in Hg as [Hs _].
Qed.

(** X20: the [season_norm] that the predictor feeds the 2025 model is
    outside what that model was trained on: every row of the frame of
    [train_2025_model] has a [season_norm] between 0 and 1, and
    [prepare_features] gives every upcoming game 3/2. *)
Theorem prediction_season_norm_outside_training
    (games_df : list game) (odds_df : list odds) (r : joined) :
  r ∈ Trainer.recent_frame games_df odds_df ->
  0 <= Trainer.season_norm_recent r
  /\ Trainer.season_norm_recent r <= 1
  /\ Predictor.season_norm "2025" == 3 # 2
  /\ Trainer.season_norm_recent r < Predictor.season_norm "2025".
Proof.
  intros Hs%recent_frame_seasons.
  unfold Trainer.season_norm_recent. unfold Trainer.recent_seasons in Hs.
  repeat (apply elem_of_cons in Hs as [->|Hs]; [by vm_compute|]).
  by apply not_elem_of_nil in Hs.
Qed.

Lemma prediction_season_norm_outside_training_witness :
  0 <= Trainer.season_norm_recent
         (Joined (Examples.lakers_celtics 2019 1000 0)
                 (Some (Examples.line 2019 1000)))
  /\ Trainer.season_norm_recent
       (Joined (Examples.lakers_celtics 2019 1000 0)
               (Some (Examples.line 2019 1000))) <= 1
  /\ Predictor.season_norm "2025" == 3 # 2
  /\ Trainer.season_norm_recent
       (Joined (Examples.lakers_celtics 2019 1000 0)
               (Some (Examples.line 2019 1000)))
     < Predictor.season_norm "2025".
Proof.
  apply (prediction_season_norm_outside_training
           [Examples.lakers_celtics 2019 1000 0] [Examples.line 2019 1000]).
  apply (list_elem_of_lookup_2 _ 0%nat). vm_compute. reflexivity.
Defined.

(** X21: the ELO features of [prepare_features]: swapping home and
    away negates [elo_diff]; a game of two teams that the ELO table
    does not list gets [elo_diff] 0 and [elo_diff_norm] 1/2;
    [elo_diff_norm] is at least 1/2 when the home team has the higher
    or an equal rating and at most 1/2 when the away team has; and it
    lies between 0 and 1 when the ratings differ by at most 400. *)
Theorem prepare_features_elo_columns
    (elo_dict : gmap string Q) (g : Predictor.upcoming) :
  let swapped :=
    Predictor.Upcoming (Predictor.u_game_id g)
      (Predictor.u_away_team g) (Predictor.u_home_team g)
      (Predictor.u_spread g) (Predictor.u_over_under g)
      (Predictor.u_ml_home_prob g) (Predictor.u_ml_away_prob g) in
  Predictor.elo_diff elo_dict swapped == - Predictor.elo_diff elo_dict g
  /\ (elo_dict !! Predictor.u_home_team g = None ->
      elo_dict !! Predictor.u_away_team g = None ->
      Predictor.elo_diff elo_dict g == 0
      /\ Predictor.elo_diff_norm elo_dict g == 1 # 2)
  /\ (Predictor.elo_away elo_dict g <= Predictor.elo_home elo_dict g ->
      1 # 2 <= Predictor.elo_diff_norm elo_dict g)
  /\ (Predictor.elo_home elo_dict g <= Predictor.elo_away elo_dict g ->
      Predictor.elo_diff_norm elo_dict g <= 1 # 2)
  /\ (Qabs (Predictor.elo_diff elo_dict g) <= 400 ->
      0 <= Predictor.elo_diff_norm elo_dict g
      /\ Predictor.elo_diff_norm elo_dict g <= 1).
Proof.
  cbv zeta.
  unfold Predictor.elo_diff_norm, Predictor.elo_diff, Predictor.elo_home,
    Predictor.elo_away, Predictor.elo_get.
  cbn [Predictor.u_home_team Predictor.u_away_team].
  split; [ring|]. split; [intros -> ->; by vm_compute|].
  generalize (default 1500 (elo_dict !! Predictor.u_home_team g)).
  generalize (default 1500 (elo_dict !! Predictor.u_away_team g)).
  intros a h.
  assert (forall d : Q, (d + 400) / 800 == (d + 400) * (1 # 800)) as Hdiv.
  { intros d. field. }
  split; [|split].
  - intros Hle. rewrite Hdiv. lra.
  - intros Hle. rewrite Hdiv. lra.
  - intros Habs. apply Qabs_Qle_condition in Habs as [Hlo Hhi].
    rewrite Hdiv. lra.
Qed.
End FeatureColumns.
